(** * Colorific: palette extraction (src/colorific.py)

    A shallow embedding of the colour pipeline of [colorific.py] and the
    properties its specification states about it.

    Conventions of the embedding.
    - A raw colour is the Python tuple [(r, g, b)] of integers: a triple of [Z].
    - Python floats are IEEE binary64 numbers: Rocq's primitive [float].
    - A Python exception is a value of [exn]; code that may raise returns
      [result A] and is sequenced with [x <- e ;; k].
    - [dict] and [Counter] objects are association lists kept in insertion
      order.  Python 2 iterates a dict in hash order, which the code does not
      control: iteration goes through the Section variable [items], of which
      only [Permutation (items d) d] is assumed.
    - The calls into PIL (decoding, [autocrop], adaptive quantisation) and into
      colormath ([delta_e]) are outside the repository.  The model starts from
      the preprocessed image (size and pixel data) and takes the colour
      difference as the Section variable [distance]. *)

From Stdlib Require Import ZArith List Floats String Ascii Bool Lia.
From Stdlib Require Import Permutation Sorted HexString.
Import ListNotations.

#[local] Open Scope Z_scope.
#[local] Set Warnings "-inexact-float".

(** ** Exceptions *)

Inductive exn : Type :=
| AssertionError
| ValueError
| KeyError
| IndexError
| ZeroDivisionError
| OverflowError.

Inductive result (A : Type) : Type :=
| Ok (a : A)
| Raise (e : exn).

Arguments Ok {A} a.
Arguments Raise {A} e.

Definition bind {A B : Type} (m : result A) (k : A -> result B) : result B :=
  match m with
  | Ok a => k a
  | Raise e => Raise e
  end.

Notation "x <- m ;; k" := (bind m (fun x => k))
  (at level 61, m at next level, right associativity).
Notation "' p <- m ;; k" := (bind m (fun x => let 'p := x in k))
  (at level 61, p pattern, m at next level, right associativity).

(** [[f(x) for x in l]] where [f] may raise: left to right, first error wins. *)
Fixpoint mapM {A B : Type} (f : A -> result B) (l : list A) : result (list B) :=
  match l with
  | [] => Ok []
  | x :: xs => y <- f x ;; ys <- mapM f xs ;; Ok (y :: ys)
  end.

(** [[x for x in l if p(x)]] where [p] may raise. *)
Fixpoint filterM {A : Type} (p : A -> result bool) (l : list A) : result (list A) :=
  match l with
  | [] => Ok []
  | x :: xs =>
      b <- p x ;; ys <- filterM p xs ;; Ok (if b then x :: ys else ys)
  end.

(** ** Data model (lines 21-33) *)

Definition RawColor : Type := Z * Z * Z.

Record Color : Type := mkColor { value : RawColor; prominence : float }.

Record Palette : Type := mkPalette { colors : list Color; bgcolor : option Color }.

Definition WHITE : RawColor := (255, 255, 255).
Definition BLACK : RawColor := (0, 0, 0).

Definition N_QUANTIZED : Z := 200.
Definition MIN_DISTANCE : float := 10.0%float.
Definition MIN_PROMINENCE : float := 0.01%float.
Definition MIN_SATURATION : float := 0.05%float.
Definition MAX_COLORS : Z := 5.
Definition BACKGROUND_PROMINENCE : float := 0.4%float.

(** The channels of a pixel of an RGB image are bytes. *)
Definition channel (n : Z) : Prop := 0 <= n <= 255.

Definition valid_color (c : RawColor) : Prop :=
  let '(r, g, b) := c in channel r /\ channel g /\ channel b.

Definition RawColor_eqb (a b : RawColor) : bool :=
  let '(r1, g1, b1) := a in
  let '(r2, g2, b2) := b in
  (r1 =? r2) && (g1 =? g2) && (b1 =? b2).

(** [a < b] on tuples of integers: the first differing component decides. *)
Definition RawColor_ltb (a b : RawColor) : bool :=
  let '(r1, g1, b1) := a in
  let '(r2, g2, b2) := b in
  if negb (r1 =? r2) then r1 <? r2
  else if negb (g1 =? g2) then g1 <? g2
  else b1 <? b2.

(** ** Python numbers *)

(** [float(n)] of an integer: rounded to the nearest binary64 number. *)
Definition float_of_Z (z : Z) : float :=
  SF2Prim (binary_normalize prec emax z 0 false).

Definition py_float (z : Z) : result float :=
  let f := float_of_Z z in
  if PrimFloat.is_infinity f then Raise OverflowError else Ok f.

(** [x / y] on floats. *)
Definition float_div (x y : float) : result float :=
  if PrimFloat.eqb y 0%float then Raise ZeroDivisionError
  else Ok (PrimFloat.div x y).

(** [l[:k]] for a possibly negative [k]. *)
Definition slice_to {A : Type} (k : Z) (l : list A) : list A :=
  if k <? 0 then firstn (Z.to_nat (Z.of_nat (List.length l) + k)) l
  else firstn (Z.to_nat k) l.

(** ** Hex strings (lines 51-57) *)

#[local] Open Scope string_scope.

Definition hex_digits (v : Z) : string :=
  match v with
  | Z0 => "0"
  | Zpos p => HexString.Raw.of_pos p ""
  | Zneg p => HexString.Raw.of_pos p ""
  end.

(** ['%.02x' % v]: lowercase hexadecimal, at least two digits, the sign first. *)
Definition fmt_02x (v : Z) : string :=
  let d := hex_digits v in
  let padded := if (String.length d <? 2)%nat then "0" ++ d else d in
  if (v <? 0)%Z then "-" ++ padded else padded.

Definition rgb_to_hex (color : RawColor) : string :=
  let '(r, g, b) := color in
  fmt_02x r ++ fmt_02x g ++ fmt_02x b.

Definition is_space (c : ascii) : bool :=
  let n := nat_of_ascii c in
  ((n =? 32) || ((9 <=? n) && (n <=? 13)))%nat.

Fixpoint lstrip (s : string) : string :=
  match s with
  | String c s' => if is_space c then lstrip s' else s
  | EmptyString => EmptyString
  end.

Fixpoint rstrip (s : string) : string :=
  match s with
  | String c s' =>
      match rstrip s' with
      | EmptyString => if is_space c then EmptyString else String c EmptyString
      | t => String c t
      end
  | EmptyString => EmptyString
  end.

Fixpoint hex_value (s : string) (acc : Z) : option Z :=
  match s with
  | EmptyString => Some acc
  | String c s' =>
      match HexString.ascii_to_digit c with
      | Some d => hex_value s' (16 * acc + Z.of_N d)
      | None => None
      end
  end.

Definition strip_0x (s : string) : string :=
  match s with
  | String "0" (String "x" t) => t
  | String "0" (String "X" t) => t
  | _ => s
  end.

Definition hex_unsigned (s : string) : result Z :=
  match strip_0x s with
  | EmptyString => Raise ValueError
  | t => match hex_value t 0 with
         | Some v => Ok v
         | None => Raise ValueError
         end
  end.

(** [int(s, 16)] as [hex_to_rgb] calls it, on a slice of two characters:
    surrounding whitespace, an optional sign, an optional [0x] prefix, then at
    least one hexadecimal digit of either case; anything else is a
    [ValueError]. *)
Definition int16 (s : string) : result Z :=
  match rstrip (lstrip s) with
  | String "-" t => v <- hex_unsigned t ;; Ok (- v)
  | String "+" t => hex_unsigned t
  | t => hex_unsigned t
  end.

Definition hex_to_rgb (color : string) : result RawColor :=
  if negb (String.prefix "#" color && (String.length color =? 7)%nat)
  then Raise AssertionError
  else
    r <- int16 (substring 1 2 color) ;;
    g <- int16 (substring 3 2 color) ;;
    b <- int16 (substring 5 2 color) ;;
    Ok (r, g, b).

#[local] Close Scope string_scope.

(** ** Dictionaries and counters *)

Definition dict (V : Type) : Type := list (RawColor * V).

Fixpoint lookup {V : Type} (k : RawColor) (d : dict V) : option V :=
  match d with
  | [] => None
  | (k', v) :: d' => if RawColor_eqb k k' then Some v else lookup k d'
  end.

(** [k in d] *)
Definition mem {V : Type} (k : RawColor) (d : dict V) : bool :=
  match lookup k d with
  | Some _ => true
  | None => false
  end.

(** [d[k]] on a plain dict. *)
Definition getitem {V : Type} (d : dict V) (k : RawColor) : result V :=
  match lookup k d with
  | Some v => Ok v
  | None => Raise KeyError
  end.

(** [d[k] = v]: an existing key keeps its place, a new one is added. *)
Fixpoint setitem {V : Type} (k : RawColor) (v : V) (d : dict V) : dict V :=
  match d with
  | [] => [(k, v)]
  | (k', v') :: d' =>
      if RawColor_eqb k k' then (k', v) :: d' else (k', v') :: setitem k v d'
  end.

(** [cnt[k]] on a Counter: a missing key counts as zero. *)
Definition count_of (k : RawColor) (cnt : dict Z) : Z :=
  match lookup k cnt with
  | Some n => n
  | None => 0
  end.

(** [cnt[k] += n] *)
Definition add_count (k : RawColor) (n : Z) (cnt : dict Z) : dict Z :=
  setitem k (count_of k cnt + n) cnt.

(** [Counter(iterable)] *)
Definition Counter (xs : list RawColor) : dict Z :=
  fold_left (fun cnt x => add_count x 1 cnt) xs [].

Definition keys {V : Type} (d : dict V) : list RawColor := map fst d.

(** ** Builtins: [sorted], [min], [max] *)

Section Builtins.
Context {A : Type}.
(** [lt x y] is the comparison [x < y] the builtin performs. *)
Variable lt : A -> A -> bool.

Fixpoint insert_desc (x : A) (l : list A) : list A :=
  match l with
  | [] => [x]
  | y :: ys => if lt x y then y :: insert_desc x ys else x :: y :: ys
  end.

(** [sorted(l, reverse=True)]: the sort is stable, so of two items neither
    of which is below the other the earlier one stays first.  Written as an
    insertion sort; it is the list that [list.sort] returns whenever [lt] is a
    strict weak order, as [<] is on integers and on floats other than NaN. *)
Definition sorted_reverse (l : list A) : list A :=
  fold_right insert_desc [] l.

(** [min(l)]: the first item, replaced by each later one below it. *)
Definition py_min (l : list A) : result A :=
  match l with
  | [] => Raise ValueError
  | x :: xs => Ok (fold_left (fun best y => if lt y best then y else best) xs x)
  end.

(** [max(l)]: the first item, replaced by each later one above it. *)
Definition py_max (l : list A) : result A :=
  match l with
  | [] => Raise ValueError
  | x :: xs => Ok (fold_left (fun best y => if lt best y then y else best) xs x)
  end.
End Builtins.

(** [(d1, c1) < (d2, c2)] on (float, colour) tuples. *)
Definition pair_ltb (p q : float * RawColor) : bool :=
  let '(d1, c1) := p in
  let '(d2, c2) := q in
  if negb (PrimFloat.eqb d1 d2) then PrimFloat.ltb d1 d2
  else RawColor_ltb c1 c2.

Definition count_ltb (p q : RawColor * Z) : bool := snd p <? snd q.

Definition prominence_ltb (a b : Color) : bool :=
  PrimFloat.ltb (prominence a) (prominence b).

(** ** The preprocessed image *)

Record Image : Type := mkImage {
  width : Z;
  height : Z;
  getdata : list RawColor   (* row by row *)
}.

Definition well_formed (im : Image) : Prop :=
  0 < width im /\ 0 < height im /\
  Z.of_nat (List.length (getdata im)) = width im * height im.

Definition getpixel (im : Image) (p : Z * Z) : result RawColor :=
  let '(x, y) := p in
  if (0 <=? x) && (x <? width im) && (0 <=? y) && (y <? height im) then
    match nth_error (getdata im) (Z.to_nat (y * width im + x)) with
    | Some c => Ok c
    | None => Raise IndexError
    end
  else Raise IndexError.

(** ** Saturation (lines 60-62, 89-90) *)

Definition norm_color (c : RawColor) : result (float * float * float) :=
  let '(r, g, b) := c in
  r' <- py_float r ;;
  g' <- py_float g ;;
  b' <- py_float b ;;
  Ok (r' / 255.0, g' / 255.0, b' / 255.0)%float.

Definition fmax (a b : float) : float := if PrimFloat.ltb a b then b else a.
Definition fmin (a b : float) : float := if PrimFloat.ltb b a then b else a.

(** The [s] component of [colorsys.rgb_to_hsv(r, g, b)] (Python standard
    library): [0.0] when [min == max], else [(max - min) / max]. *)
Definition hsv_saturation (rgb : float * float * float) : result float :=
  let '(r, g, b) := rgb in
  let maxc := fmax (fmax r g) b in
  let minc := fmin (fmin r g) b in
  if PrimFloat.eqb minc maxc then Ok 0.0%float
  else float_div (maxc - minc)%float maxc.

Definition meets_min_saturation (c : Color) (threshold : float) : result bool :=
  rgb <- norm_color (value c) ;;
  s <- hsv_saturation rgb ;;
  Ok (PrimFloat.ltb threshold s).

(** ** The pipeline *)

Section Pipeline.
(** [distance(c1, c2)] (line 46): colormath's CMC colour difference. *)
Variable distance : RawColor -> RawColor -> float.
(** The order in which a dict with the given insertion history is iterated. *)
Variable items : dict Z -> dict Z.

(** *** Background detection (lines 65-86) *)

Definition border_points (im : Image) : list (Z * Z) :=
  let w := width im in
  let h := height im in
  [(0, 0); (0, h / 2); (0, h - 1); (w / 2, h - 1); (w - 1, h - 1);
   (w - 1, h / 2); (w - 1, 0); (w / 2, 0)].

(** [cnt.most_common(1)]: the first item of largest count, in a list. *)
Definition most_common_1 (cnt : dict Z) : list (RawColor * Z) :=
  match py_max count_ltb (items cnt) with
  | Ok m => [m]
  | Raise _ => []
  end.

(** [x, = l] *)
Definition unpack_1 {A : Type} (l : list A) : result A :=
  match l with
  | [x] => Ok x
  | _ => Raise ValueError
  end.

Definition detect_background (im : Image) (colors : list Color)
    (to_canonical : dict RawColor) : result (list Color * option Color) :=
  match colors with
  | [] => Raise IndexError
  | c0 :: rest =>
      if PrimFloat.leb BACKGROUND_PROMINENCE (prominence c0) then
        Ok (rest, Some c0)
      else
        samples <- mapM (getpixel im) (border_points im) ;;
        let edge_dist := Counter samples in
        '(majority_col, majority_count) <- unpack_1 (most_common_1 edge_dist) ;;
        if 3 <=? majority_count then
          canonical_bg <- getitem to_canonical majority_col ;;
          bg_color <- unpack_1
            (filter (fun c => RawColor_eqb (value c) canonical_bg) colors) ;;
          Ok (filter (fun c => negb (RawColor_eqb (value c) canonical_bg)) colors,
              Some bg_color)
        else Ok (colors, None)
  end.

(** *** Aggregation (lines 122-138) *)

(** [min((distance(c, alt), alt) for alt in aggregated)] *)
Definition nearest_canonical (c : RawColor) (canonical : list RawColor)
    : result (float * RawColor) :=
  py_min pair_ltb (map (fun alt => (distance c alt, alt)) canonical).

Definition aggregate_step (min_distance : float)
    (st : dict Z * dict RawColor) (entry : RawColor * Z)
    : result (dict Z * dict RawColor) :=
  let '(aggregated, to_canonical) := st in
  let '(c, n) := entry in
  if mem c aggregated then
    Ok (add_count c n aggregated, to_canonical)
  else
    '(d, nearest) <- nearest_canonical c (keys (items aggregated)) ;;
    if PrimFloat.ltb d min_distance then
      Ok (add_count nearest n aggregated, setitem c nearest to_canonical)
    else
      Ok (setitem c n aggregated, setitem c c to_canonical).

Fixpoint aggregate_loop (min_distance : float) (cols : list (RawColor * Z))
    (st : dict Z * dict RawColor) : result (dict Z * dict RawColor) :=
  match cols with
  | [] => Ok st
  | entry :: rest =>
      st' <- aggregate_step min_distance st entry ;;
      aggregate_loop min_distance rest st'
  end.

Definition aggregate (dist : dict Z) (min_distance : float)
    : result (dict Z * dict RawColor) :=
  let to_canonical := [(WHITE, WHITE); (BLACK, BLACK)] in
  let aggregated := [(WHITE, 0); (BLACK, 0)] in
  let sorted_cols := sorted_reverse count_ltb (items dist) in
  aggregate_loop min_distance sorted_cols (aggregated, to_canonical).

(** *** Ranking (lines 141-144) *)

Definition rank (aggregated : dict Z) (n_pixels : Z) : result (list Color) :=
  cs <- mapM (fun '(c, n) =>
                total <- py_float n_pixels ;;
                n' <- py_float n ;;
                p <- float_div n' total ;;
                Ok (mkColor c p))
             (items aggregated) ;;
  Ok (sorted_reverse prominence_ltb cs).

(** *** Filters (lines 149-160) *)

(** Lines 149 and 152-156.  Line 150 comes in between in the source; as it
    touches [bg_color] only, it is [background_filter] below and runs next. *)

Definition saturation_filter (colors : list Color) (min_saturation : float)
    : result (list Color) :=
  sat_colors <- filterM (fun c => meets_min_saturation c min_saturation) colors ;;
  match sat_colors with
  | [] => Ok (firstn 1 colors)
  | _ => Ok sat_colors
  end.

Definition background_filter (bg_color : option Color) (min_saturation : float)
    : result (option Color) :=
  match bg_color with
  | Some bg =>
      ok <- meets_min_saturation bg min_saturation ;;
      Ok (if ok then Some bg else None)
  | None => Ok None
  end.

Definition prominence_filter (colors : list Color) (min_prominence : float)
    (max_colors : Z) : list Color :=
  match colors with
  | [] => []
  | c0 :: _ =>
      slice_to max_colors
        (filter (fun c => PrimFloat.leb (prominence c0 * min_prominence)
                                        (prominence c)) colors)
  end.

(** *** Output (lines 162-164) *)

Definition palette_output (palette : Palette) : list string :=
  let k := if (List.length (colors palette) <? 5)%nat then 3%nat else 5%nat in
  map (fun c => rgb_to_hex (value c)) (firstn k (colors palette)).

(** [extract_colors] from line 117 on, up to the construction of [palette].
    [im] is the image after lines 113-116 (conversion to RGB, [autocrop],
    quantisation to [n_quantized] colours), which are calls into PIL. *)
Definition extract_palette (im : Image) (min_saturation min_distance : float)
    (max_colors : Z) (min_prominence : float) : result Palette :=
  let data := getdata im in
  let dist := Counter data in
  let n_pixels := width im * height im in
  '(aggregated, to_canonical) <- aggregate dist min_distance ;;
  colors <- rank aggregated n_pixels ;;
  '(colors, bg_color) <- detect_background im colors to_canonical ;;
  colors <- saturation_filter colors min_saturation ;;
  bg_color <- background_filter bg_color min_saturation ;;
  let colors := prominence_filter colors min_prominence max_colors in
  Ok (mkPalette colors bg_color).

Definition extract_colors (im : Image) (min_saturation min_distance : float)
    (max_colors : Z) (min_prominence : float) : result (list string) :=
  palette <- extract_palette im min_saturation min_distance max_colors
                             min_prominence ;;
  Ok (palette_output palette).
End Pipeline.

(** ** Example inputs and auxiliary definitions *)

(** What one channel needs: two digits out, the same number back in. *)
Definition channel_round_trip (n : Z) : bool :=
  match fmt_02x n with
  | String a (String b EmptyString) =>
      match int16 (String a (String b EmptyString)) with
      | Ok m => m =? n
      | Raise _ => false
      end
  | _ => false
  end.

(** A channel as [norm_color] scales it. *)
Definition unit_channel (n : Z) : float := (float_of_Z n / 255.0)%float.

(** On channels, [unit_channel] is finite and keeps the order. *)
Definition unit_channel_ok (x : Z) : bool :=
  negb (PrimFloat.is_infinity (float_of_Z x)) &&
  forallb (fun y =>
             Bool.eqb (PrimFloat.ltb (unit_channel x) (unit_channel y)) (x <? y) &&
             Bool.eqb (PrimFloat.eqb (unit_channel x) (unit_channel y)) (x =? y))
          (map Z.of_nat (seq 0 256)).

(** What the loop maintains: keys are unique, the sentinels are canonical, every
    canonical colour is mapped, and every mapped colour goes to a canonical one. *)
Definition agg_inv (st : dict Z * dict RawColor) : Prop :=
  NoDup (keys (fst st)) /\
  In WHITE (keys (fst st)) /\ In BLACK (keys (fst st)) /\
  (forall k, In k (keys (fst st)) -> mem k (snd st) = true) /\
  (forall k v, lookup k (snd st) = Some v -> In v (keys (fst st))).

(** The place of a float that is not a NaN in the order of [<]: sign class,
    then exponent, then mantissa. *)
Definition sf_rank (f : spec_float) : Z * Z * Z :=
  match f with
  | S754_zero _ => (0, 0, 0)
  | S754_infinity false => (2, 0, 0)
  | S754_infinity true => (-2, 0, 0)
  | S754_finite false m e => (1, e, Zpos m)
  | S754_finite true m e => (-1, - e, Zneg m)
  | S754_nan => (3, 0, 0)
  end.

Definition float_rank (x : float) : Z * Z * Z := sf_rank (Prim2SF x).

Definition lex_lt (a b : Z * Z * Z) : Prop :=
  let '(a1, a2, a3) := a in
  let '(b1, b2, b3) := b in
  a1 < b1 \/ (a1 = b1 /\ (a2 < b2 \/ (a2 = b2 /\ a3 < b3))).

(** [(d1, c1) < (d2, c2)] read on ranks. *)
Definition pair_lt (p q : float * RawColor) : Prop :=
  lex_lt (float_rank (fst p)) (float_rank (fst q)) \/
  (float_rank (fst p) = float_rank (fst q) /\ lex_lt (snd p) (snd q)).

(** A stand-in for the colormath call, to run the model on concrete inputs:
    the sum of the channel differences. *)
Definition manhattan_distance (a b : RawColor) : float :=
  let '(r1, g1, b1) := a in
  let '(r2, g2, b2) := b in
  float_of_Z (Z.abs (r1 - r2) + Z.abs (g1 - g2) + Z.abs (b1 - b2)).

(** Iteration orders to run the model with: insertion order and its reverse. *)
Definition insertion_order (d : dict Z) : dict Z := d.
Definition reverse_order (d : dict Z) : dict Z := rev d.

(** The search as the specification words it, to compare with
    [nearest_canonical]: a stable minimum of the distance alone, so that of
    two equidistant canonical colours the one met first is kept. *)
Definition first_encountered_nearest (distance : RawColor -> RawColor -> float)
    (c : RawColor) (canonical : list RawColor) : result (float * RawColor) :=
  py_min (fun p q => PrimFloat.ltb (fst p) (fst q))
         (map (fun alt => (distance c alt, alt)) canonical).

(** How many times [x] occurs in [xs]. *)
Definition occurrences (x : RawColor) (xs : list RawColor) : Z :=
  Z.of_nat (List.length (filter (RawColor_eqb x) xs)).

Definition RED : RawColor := (255, 0, 0).


(** A 5 by 5 image whose left border is (200,0,0) and whose other sampled
    border points are (0,0,200); no colour covers 40% of it. *)
Definition two_sided_border : Image :=
  mkImage 5 5
    [(200, 0, 0); (0, 200, 0);   (0, 0, 200);   (0, 200, 0);   (0, 0, 200);
     (0, 200, 0); (200, 200, 0); (200, 200, 0); (200, 200, 0); (0, 200, 0);
     (200, 0, 0); (200, 200, 0); (0, 200, 200); (200, 200, 0); (0, 0, 200);
     (0, 200, 0); (0, 200, 200); (0, 200, 200); (0, 200, 200); (0, 200, 0);
     (200, 0, 0); (200, 200, 0); (0, 0, 200);   (0, 200, 200); (0, 0, 200)].

(** Its ranked colours and canonical map, as the aggregator and the ranker
    produce them under [manhattan_distance] and [insertion_order]. *)
Definition two_sided_ranked : list Color :=
  [mkColor (0, 200, 0) 0.24; mkColor (200, 200, 0) 0.24;
   mkColor (0, 0, 200) 0.2; mkColor (0, 200, 200) 0.2;
   mkColor (200, 0, 0) 0.12; mkColor WHITE 0; mkColor BLACK 0].

Definition two_sided_canonical : dict RawColor :=
  [(WHITE, WHITE); (BLACK, BLACK); ((0, 200, 0), (0, 200, 0));
   ((200, 200, 0), (200, 200, 0)); ((0, 0, 200), (0, 0, 200));
   ((0, 200, 200), (0, 200, 200)); ((200, 0, 0), (200, 0, 0))].

(** [two_sided_border] with the bottom midpoint turned to (200,0,0): each of
    (200,0,0) and (0,0,200) is at 4 of the 8 sampled border points. *)
Definition tied_border : Image :=
  mkImage 5 5
    [(200, 0, 0); (0, 200, 0);   (0, 0, 200);   (0, 200, 0);   (0, 0, 200);
     (0, 200, 0); (200, 200, 0); (200, 200, 0); (200, 200, 0); (0, 200, 0);
     (200, 0, 0); (200, 200, 0); (0, 200, 200); (200, 200, 0); (0, 0, 200);
     (0, 200, 0); (0, 200, 200); (0, 200, 200); (0, 200, 200); (0, 200, 0);
     (200, 0, 0); (200, 200, 0); (200, 0, 0);   (0, 200, 200); (0, 0, 200)].

Definition tied_ranked : list Color :=
  [mkColor (0, 200, 0) 0.24; mkColor (200, 200, 0) 0.24;
   mkColor (0, 200, 200) 0.2; mkColor (200, 0, 0) 0.16;
   mkColor (0, 0, 200) 0.16; mkColor WHITE 0; mkColor BLACK 0].

Definition tied_canonical : dict RawColor :=
  [(WHITE, WHITE); (BLACK, BLACK); ((0, 200, 0), (0, 200, 0));
   ((200, 200, 0), (200, 200, 0)); ((0, 200, 200), (0, 200, 200));
   ((200, 0, 0), (200, 0, 0)); ((0, 0, 200), (0, 0, 200))].

(** A 3 by 3 image of nine saturated colours. *)
Definition nine_colours : Image :=
  mkImage 3 3
    [(200, 0, 0); (0, 200, 0); (0, 0, 200);
     (200, 200, 0); (0, 200, 200); (200, 0, 200);
     (200, 100, 0); (0, 200, 100); (100, 0, 200)].

(** The sum of the counts of a histogram. *)
Definition total (d : dict Z) : Z := fold_right Z.add 0 (map snd d).

Definition nonneg (d : dict Z) : Prop := forall e, In e d -> 0 <= snd e.

Definition string_forall (p : ascii -> bool) (s : string) : bool :=
  forallb p (list_ascii_of_string s).

Definition lower_hex_digits : list ascii := list_ascii_of_string "0123456789abcdef".
Definition hex_digit_chars : list ascii :=
  list_ascii_of_string "0123456789abcdefABCDEF".

Definition is_lower_hex (ch : ascii) : bool := existsb (Ascii.eqb ch) lower_hex_digits.
Definition is_hex (ch : ascii) : bool := existsb (Ascii.eqb ch) hex_digit_chars.

(** [ch.lower()] on one character. *)
Definition to_lower (ch : ascii) : ascii :=
  let n := nat_of_ascii ch in
  if ((65 <=? n) && (n <=? 90))%nat then ascii_of_nat (n + 32) else ch.

Fixpoint lowercase (s : string) : string :=
  match s with
  | EmptyString => EmptyString
  | String ch s' => String (to_lower ch) (lowercase s')
  end.

(** A channel is written as two lowercase hex digits. *)
Definition channel_lower_hex (n : Z) : bool :=
  (String.length (fmt_02x n) =? 2)%nat && string_forall is_lower_hex (fmt_02x n).

(** Two hex digits of either case are read as a channel, which is written
    back as the same digits in lowercase. *)
Definition hex_pair_ok (a b : ascii) : bool :=
  match int16 (String a (String b EmptyString)) with
  | Ok n => (0 <=? n) && (n <=? 255) &&
            String.eqb (fmt_02x n) (String (to_lower a) (String (to_lower b) EmptyString))
  | Raise _ => false
  end.

Definition all_ascii : list ascii := map ascii_of_nat (seq 0 256).

(** What [int16] makes of two arbitrary characters: a number from -15 to 255
    or a [ValueError]. *)
Definition any_pair_ok (a b : ascii) : bool :=
  match int16 (String a (String b EmptyString)) with
  | Ok n => (-15 <=? n) && (n <=? 255)
  | Raise ValueError => true
  | Raise _ => false
  end.

(** [0.0 <= x <= 1.0] *)
Definition in_unit (x : float) : bool := PrimFloat.leb 0 x && PrimFloat.leb x 1.

(** The saturation of a colour whose largest channel is [hi] and whose
    smallest is [lo], as [hsv_saturation] computes it. *)
Definition saturation_of (hi lo : Z) : float :=
  if lo =? hi then 0%float
  else ((unit_channel hi - unit_channel lo) / unit_channel hi)%float.

(** What holds of [saturation_of] on channels [lo <= hi]: it lies in [0,1], is
    [0.0] exactly when [lo = hi] and [1.0] exactly when [lo = 0 < hi]. *)
Definition saturation_of_ok (hi : Z) : bool :=
  in_unit (unit_channel hi) &&
  forallb (fun lo =>
             (hi <? lo) ||
             (in_unit (saturation_of hi lo) &&
              Bool.eqb (PrimFloat.eqb (saturation_of hi lo) 0) (lo =? hi) &&
              Bool.eqb (PrimFloat.eqb (saturation_of hi lo) 1)
                       ((lo =? 0) && (0 <? hi))))
          (map Z.of_nat (seq 0 256)).

Definition is_gray (c : RawColor) : bool :=
  let '(r, g, b) := c in (r =? g) && (g =? b).

(** A 3 by 3 image with a uniform border of (0,0,200) around (200,0,0). *)
Definition framed : Image :=
  mkImage 3 3
    [(0, 0, 200); (0, 0, 200); (0, 0, 200);
     (0, 0, 200); (200, 0, 0); (0, 0, 200);
     (0, 0, 200); (0, 0, 200); (0, 0, 200)].

(** What the loop maintains about the canonical map: canonical colours are
    mapped to themselves, and a colour is mapped to itself or to a colour
    closer than [min_distance]. *)
Definition canon_inv (distance : RawColor -> RawColor -> float)
    (min_distance : float) (st : dict Z * dict RawColor) : Prop :=
  (forall k, In k (keys (fst st)) -> lookup k (snd st) = Some k) /\
  (forall c k, lookup c (snd st) = Some k ->
               c = k \/ PrimFloat.ltb (distance c k) min_distance = true).

(** Every colour of [l] past the first two is at least [min_distance] away
    from each colour before it in [l]. *)
Definition separated (distance : RawColor -> RawColor -> float)
    (min_distance : float) (l : list RawColor) : Prop :=
  forall i j k1 k2,
    nth_error l i = Some k1 -> nth_error l j = Some k2 ->
    (i < j)%nat -> (2 <= j)%nat ->
    PrimFloat.ltb (distance k2 k1) min_distance = false.

(** [a] is not less prominent than [b]. *)
Definition not_below (a b : Color) : Prop :=
  PrimFloat.ltb (prominence a) (prominence b) = false.

(** [l'] is [l] with some entries deleted. *)
Inductive subseq {A : Type} : list A -> list A -> Prop :=
| subseq_nil : subseq [] []
| subseq_skip (x : A) (l' l : list A) : subseq l' l -> subseq l' (x :: l)
| subseq_keep (x : A) (l' l : list A) : subseq l' l -> subseq (x :: l') (x :: l).

(** The palette of [two_sided_border] under the default parameters. *)
Definition two_sided_palette : Palette :=
  mkPalette
    [mkColor (0, 200, 0) 0.24; mkColor (200, 200, 0) 0.24;
     mkColor (0, 200, 200) 0.2; mkColor (200, 0, 0) 0.12]
    (Some (mkColor (0, 0, 200) 0.2)).

(** The pixels of the histogram [d] whose colour the map [tc] sends to [k]. *)
Definition mapped_count (tc : dict RawColor) (k : RawColor) (d : dict Z) : Z :=
  total (filter (fun e => match lookup (fst e) tc with
                          | Some k' => RawColor_eqb k' k
                          | None => false
                          end) d).

(** * Properties *)

(** ** Colours as keys *)

Lemma RawColor_eqb_eq (a b : RawColor) : RawColor_eqb a b = true <-> a = b.
Proof.
  destruct a as [[r1 g1] b1], b as [[r2 g2] b2]; unfold RawColor_eqb.
  rewrite !andb_true_iff, !Z.eqb_eq.
  split; [intros [[-> ->] ->]; reflexivity | intros [= -> -> ->]; auto].
Qed.

Lemma RawColor_eqb_refl (a : RawColor) : RawColor_eqb a a = true.
Proof. apply RawColor_eqb_eq; reflexivity. Qed.

Lemma RawColor_eqb_neq (a b : RawColor) : RawColor_eqb a b = false <-> a <> b.
Proof.
  rewrite <- RawColor_eqb_eq. destruct (RawColor_eqb a b); split; congruence.
Qed.

Lemma RawColor_eqb_sym (a b : RawColor) : RawColor_eqb a b = RawColor_eqb b a.
Proof.
  destruct (RawColor_eqb a b) eqn:E; symmetry.
  - apply RawColor_eqb_eq in E; subst; apply RawColor_eqb_refl.
  - apply RawColor_eqb_neq in E; apply RawColor_eqb_neq; congruence.
Qed.

(** ** Hex strings *)


Lemma forallb_channels (P : Z -> bool) :
  forallb P (map Z.of_nat (seq 0 256)) = true ->
  forall n, channel n -> P n = true.
Proof.
  intros H n [Hlo Hhi].
  rewrite forallb_forall in H. apply H.
  apply in_map_iff. exists (Z.to_nat n). split; [lia |].
  apply in_seq. lia.
Qed.

Lemma channel_round_trip_all (n : Z) : channel n -> channel_round_trip n = true.
Proof. apply forallb_channels. vm_compute. reflexivity. Qed.

Lemma fmt_02x_channel (n : Z) :
  channel n ->
  exists a b, fmt_02x n = String a (String b EmptyString) /\
              int16 (String a (String b EmptyString)) = Ok n.
Proof.
  intros H. apply channel_round_trip_all in H. unfold channel_round_trip in H.
  destruct (fmt_02x n) as [|a [|b [|]]]; try discriminate.
  exists a, b. split; [reflexivity |].
  destruct (int16 _); [| discriminate].
  apply Z.eqb_eq in H. subst. reflexivity.
Qed.

(** C5 as stated fails at orange: the output of [rgb_to_hex] has no leading
    [#], so [hex_to_rgb] rejects it on its assertion. *)
Lemma hex_round_trip_direct_fails :
  rgb_to_hex (255, 165, 0) = "ffa500"%string /\
  hex_to_rgb (rgb_to_hex (255, 165, 0)) = Raise AssertionError.
Proof. split; reflexivity. Qed.

(** C5, amended: for every RawColor [c] with channels in [0,255],
    [hex_to_rgb("#" + rgb_to_hex(c)) == c]; applied to the bare output of
    [rgb_to_hex], [hex_to_rgb] fails its assertion. *)
Theorem hex_round_trip (c : RawColor) :
  valid_color c ->
  hex_to_rgb (String "#" (rgb_to_hex c)) = Ok c /\
  hex_to_rgb (rgb_to_hex c) = Raise AssertionError.
Proof.
  destruct c as [[r g] b]. intros (Hr & Hg & Hb).
  destruct (fmt_02x_channel r Hr) as (r1 & r2 & Er & Ir).
  destruct (fmt_02x_channel g Hg) as (g1 & g2 & Eg & Ig).
  destruct (fmt_02x_channel b Hb) as (b1 & b2 & Eb & Ib).
  unfold rgb_to_hex. rewrite Er, Eg, Eb.
  split.
  - unfold hex_to_rgb. cbn [append String.prefix String.length substring].
    cbn [andb Nat.eqb negb].
    rewrite Ir. cbn [bind]. rewrite Ig. cbn [bind]. rewrite Ib. reflexivity.
  - unfold hex_to_rgb. cbn [append String.length Nat.eqb].
    rewrite andb_false_r. reflexivity.
Qed.

Lemma hex_round_trip_witness :
  valid_color (255, 165, 0) /\
  hex_to_rgb (String "#" (rgb_to_hex (255, 165, 0))) = Ok (255, 165, 0) /\
  hex_to_rgb (rgb_to_hex (255, 165, 0)) = Raise AssertionError.
Proof.
  assert (V : valid_color (255, 165, 0)) by (unfold valid_color, channel; lia).
  split; [exact V | exact (hex_round_trip (255, 165, 0) V)].
Defined.

(** ** Channels as floats *)


Lemma unit_channel_ok_all (x : Z) : channel x -> unit_channel_ok x = true.
Proof. apply forallb_channels. vm_compute. reflexivity. Qed.

Lemma py_float_channel (x : Z) : channel x -> py_float x = Ok (float_of_Z x).
Proof.
  intros H. apply unit_channel_ok_all in H.
  unfold unit_channel_ok in H. apply andb_true_iff in H as [H _].
  unfold py_float. destruct (PrimFloat.is_infinity _); [discriminate | reflexivity].
Qed.

Lemma unit_channel_cmp (x y : Z) :
  channel x -> channel y ->
  PrimFloat.ltb (unit_channel x) (unit_channel y) = (x <? y) /\
  PrimFloat.eqb (unit_channel x) (unit_channel y) = (x =? y).
Proof.
  intros Hx Hy. apply unit_channel_ok_all in Hx.
  unfold unit_channel_ok in Hx. apply andb_true_iff in Hx as [_ Hx].
  pose proof (forallb_channels _ Hx y Hy) as H. cbv beta in H.
  apply andb_true_iff in H as [H1 H2].
  apply Bool.eqb_prop in H1, H2. auto.
Qed.

Lemma fmax_channel (x y : Z) :
  channel x -> channel y ->
  fmax (unit_channel x) (unit_channel y) = unit_channel (Z.max x y).
Proof.
  intros Hx Hy. unfold fmax.
  destruct (unit_channel_cmp x y Hx Hy) as [-> _].
  destruct (Z.ltb_spec x y); f_equal; lia.
Qed.

Lemma fmin_channel (x y : Z) :
  channel x -> channel y ->
  fmin (unit_channel x) (unit_channel y) = unit_channel (Z.min x y).
Proof.
  intros Hx Hy. unfold fmin.
  destruct (unit_channel_cmp y x Hy Hx) as [-> _].
  destruct (Z.ltb_spec y x); f_equal; lia.
Qed.

(** On the colours of an image the saturation test never raises. *)
Lemma meets_min_saturation_total (c : Color) (threshold : float) :
  valid_color (value c) ->
  exists b, meets_min_saturation c threshold = Ok b.
Proof.
  destruct c as [[[r g] b] p]. cbn [value]. intros (Hr & Hg & Hb).
  unfold meets_min_saturation, norm_color. cbn [value].
  rewrite !py_float_channel by assumption. cbn [bind].
  change (float_of_Z r / 255.0)%float with (unit_channel r).
  change (float_of_Z g / 255.0)%float with (unit_channel g).
  change (float_of_Z b / 255.0)%float with (unit_channel b).
  unfold hsv_saturation.
  assert (Hmax : channel (Z.max r g)) by (unfold channel in *; lia).
  assert (Hmin : channel (Z.min r g)) by (unfold channel in *; lia).
  rewrite !fmax_channel, !fmin_channel by assumption.
  set (hi := Z.max (Z.max r g) b). set (lo := Z.min (Z.min r g) b).
  assert (Hhi : channel hi) by (unfold channel, hi in *; lia).
  assert (Hlo : channel lo) by (unfold channel, lo in *; lia).
  destruct (unit_channel_cmp lo hi Hlo Hhi) as [_ ->].
  destruct (Z.eqb_spec lo hi) as [E | E].
  - cbn [bind]. eauto.
  - unfold float_div.
    assert (H0 : channel 0) by (unfold channel; lia).
    destruct (unit_channel_cmp hi 0 Hhi H0) as [_ Hz].
    change (unit_channel 0) with 0%float in Hz. rewrite Hz.
    destruct (Z.eqb_spec hi 0) as [E0 | E0].
    + exfalso. unfold channel, hi, lo in *. lia.
    + cbn [bind]. eauto.
Qed.

(** ** Dictionaries *)

Lemma mem_keys {V : Type} (k : RawColor) (d : dict V) :
  mem k d = true <-> In k (keys d).
Proof.
  unfold mem. induction d as [| [k' v] d IH]; cbn [lookup keys map fst In].
  - split; [discriminate | tauto].
  - destruct (RawColor_eqb k k') eqn:E.
    + apply RawColor_eqb_eq in E. subst. split; auto.
    + apply RawColor_eqb_neq in E. rewrite IH. unfold keys.
      split; [auto | intros [H | H]; [congruence | exact H]].
Qed.

Lemma mem_false_keys {V : Type} (k : RawColor) (d : dict V) :
  mem k d = false <-> ~ In k (keys d).
Proof.
  rewrite <- mem_keys. destruct (mem k d); split; congruence.
Qed.

Lemma keys_setitem_mem {V : Type} (k : RawColor) (v : V) (d : dict V) :
  mem k d = true -> keys (setitem k v d) = keys d.
Proof.
  unfold mem. induction d as [| [k' v'] d IH]; cbn [lookup setitem]; [discriminate |].
  destruct (RawColor_eqb k k') eqn:E; intros H.
  - reflexivity.
  - cbn [keys map fst]. f_equal. apply IH, H.
Qed.

Lemma keys_setitem_new {V : Type} (k : RawColor) (v : V) (d : dict V) :
  mem k d = false -> keys (setitem k v d) = keys d ++ [k].
Proof.
  unfold mem. induction d as [| [k' v'] d IH]; cbn [lookup setitem]; [reflexivity |].
  destruct (RawColor_eqb k k') eqn:E; intros H; [discriminate |].
  cbn [keys map fst app]. f_equal. apply IH, H.
Qed.

Lemma keys_setitem_incl {V : Type} (k k' : RawColor) (v : V) (d : dict V) :
  In k' (keys d) -> In k' (keys (setitem k v d)).
Proof.
  intros H. destruct (mem k d) eqn:E.
  - rewrite keys_setitem_mem by exact E. exact H.
  - rewrite keys_setitem_new by exact E. apply in_or_app. auto.
Qed.

Lemma keys_setitem_In {V : Type} (k : RawColor) (v : V) (d : dict V) :
  In k (keys (setitem k v d)).
Proof.
  destruct (mem k d) eqn:E.
  - rewrite keys_setitem_mem by exact E. apply mem_keys, E.
  - rewrite keys_setitem_new by exact E. apply in_or_app. right. left. reflexivity.
Qed.

Lemma lookup_setitem_same {V : Type} (k : RawColor) (v : V) (d : dict V) :
  lookup k (setitem k v d) = Some v.
Proof.
  induction d as [| [k' v'] d IH]; cbn [setitem lookup].
  - rewrite RawColor_eqb_refl. reflexivity.
  - destruct (RawColor_eqb k k') eqn:E; cbn [lookup]; rewrite E; auto.
Qed.

Lemma lookup_setitem_other {V : Type} (k k' : RawColor) (v : V) (d : dict V) :
  k' <> k -> lookup k' (setitem k v d) = lookup k' d.
Proof.
  intros N. induction d as [| [k0 v0] d IH]; cbn [setitem lookup].
  - apply RawColor_eqb_neq in N. rewrite N. reflexivity.
  - destruct (RawColor_eqb k k0) eqn:E; cbn [lookup].
    + apply RawColor_eqb_eq in E. subst k0.
      apply RawColor_eqb_neq in N. rewrite N. reflexivity.
    + rewrite IH. reflexivity.
Qed.

Lemma NoDup_keys_setitem {V : Type} (k : RawColor) (v : V) (d : dict V) :
  NoDup (keys d) -> NoDup (keys (setitem k v d)).
Proof.
  intros H. destruct (mem k d) eqn:E.
  - rewrite keys_setitem_mem by exact E. exact H.
  - rewrite keys_setitem_new by exact E.
    apply NoDup_app; [exact H | constructor; [simpl; tauto | constructor] |].
    intros x Hx [<- | []]. apply mem_false_keys in E. tauto.
Qed.

(** ** Background detection: the dominant fill *)

Section Background.
Variable items : dict Z -> dict Z.

(** C1: when the first colour of the ranked list has prominence at least
    [BACKGROUND_PROMINENCE], [detect_background] returns it as the background
    and the rest of the list as the foreground, whatever the image is. *)
Theorem detect_background_dominant (im : Image) (c0 : Color) (rest : list Color)
    (to_canonical : dict RawColor) :
  PrimFloat.leb BACKGROUND_PROMINENCE (prominence c0) = true ->
  detect_background items im (c0 :: rest) to_canonical = Ok (rest, Some c0) /\
  forall im', detect_background items im' (c0 :: rest) to_canonical =
              detect_background items im (c0 :: rest) to_canonical.
Proof.
  intros H. unfold detect_background. rewrite H. split; reflexivity.
Qed.

End Background.

Lemma detect_background_dominant_witness :
  PrimFloat.leb BACKGROUND_PROMINENCE 0.7 = true /\
  detect_background (fun d => d) (mkImage 0 0 [])
    [mkColor WHITE 0.7; mkColor (0, 0, 255) 0.3] [] =
  Ok ([mkColor (0, 0, 255) 0.3], Some (mkColor WHITE 0.7)) /\
  forall im', detect_background (fun d => d) im'
                [mkColor WHITE 0.7; mkColor (0, 0, 255) 0.3] [] =
              detect_background (fun d => d) (mkImage 0 0 [])
                [mkColor WHITE 0.7; mkColor (0, 0, 255) 0.3] [].
Proof.
  split; [reflexivity |].
  apply (detect_background_dominant (fun d => d) (mkImage 0 0 [])
           (mkColor WHITE 0.7) [mkColor (0, 0, 255) 0.3] []).
  reflexivity.
Defined.

(** ** The saturation filter *)

Lemma filterM_total {A : Type} (p : A -> result bool) (l : list A) :
  (forall x, In x l -> exists b, p x = Ok b) ->
  exists out, filterM p l = Ok out /\
              forall x, In x out -> In x l /\ p x = Ok true.
Proof.
  induction l as [| x xs IH]; intros H; cbn [filterM].
  - exists []. split; [reflexivity | intros ? []].
  - destruct (H x (or_introl eq_refl)) as [b Hb].
    destruct IH as (ys & Hys & Hin); [intros; apply H; right; assumption |].
    rewrite Hb, Hys. cbn [bind].
    destruct b; eexists; (split; [reflexivity |]).
    + intros y [<- | Hy]; [split; [left; reflexivity | exact Hb] |].
      destruct (Hin y Hy). split; [right |]; assumption.
    + intros y Hy. destruct (Hin y Hy). split; [right |]; assumption.
Qed.

Lemma filterM_none {A : Type} (p : A -> result bool) (l : list A) :
  (forall x, In x l -> p x = Ok false) -> filterM p l = Ok [].
Proof.
  induction l as [| x xs IH]; intros H; cbn [filterM]; [reflexivity |].
  rewrite (H x (or_introl eq_refl)), IH by (intros; apply H; right; assumption).
  reflexivity.
Qed.

(** C3: on a non-empty foreground list of image colours the saturation stage
    returns a non-empty list, and when no colour has saturation above
    [min_saturation] it returns exactly the head of the list. *)
Theorem saturation_filter_fallback (c0 : Color) (rest : list Color)
    (min_saturation : float) :
  Forall (fun c => valid_color (value c)) (c0 :: rest) ->
  exists out,
    saturation_filter (c0 :: rest) min_saturation = Ok out /\
    out <> [] /\
    ((forall c, In c (c0 :: rest) ->
                meets_min_saturation c min_saturation = Ok false) ->
     out = [c0]).
Proof.
  intros V. rewrite Forall_forall in V.
  destruct (filterM_total (fun c => meets_min_saturation c min_saturation)
              (c0 :: rest)) as (sat & Hsat & _).
  { intros x Hx. apply meets_min_saturation_total, V, Hx. }
  unfold saturation_filter. rewrite Hsat. cbn [bind].
  destruct sat as [| s sat'].
  - exists [c0]. split; [reflexivity |]. split; [discriminate | reflexivity].
  - exists (s :: sat'). split; [reflexivity |]. split; [discriminate |].
    intros Hnone. rewrite (filterM_none _ _ Hnone) in Hsat. discriminate.
Qed.

Lemma saturation_filter_fallback_witness :
  exists out,
    saturation_filter [mkColor WHITE 0.5; mkColor (128, 128, 128) 0.3;
                       mkColor BLACK 0.2] MIN_SATURATION = Ok out /\
    out <> [] /\
    ((forall c, In c [mkColor WHITE 0.5; mkColor (128, 128, 128) 0.3;
                      mkColor BLACK 0.2] ->
                meets_min_saturation c MIN_SATURATION = Ok false) ->
     out = [mkColor WHITE 0.5]).
Proof.
  apply (saturation_filter_fallback (mkColor WHITE 0.5)
           [mkColor (128, 128, 128) 0.3; mkColor BLACK 0.2] MIN_SATURATION).
  repeat constructor; cbn; unfold channel; lia.
Defined.

(** ** Output size *)

(** C4: the output is the hex strings of the first 3 colours of the palette
    when it holds fewer than 5 colours (of all of them when there are fewer
    than 3), and of the first 5 colours otherwise: at most 3 entries below 5
    colours, at most 5 from 5 colours on.  Four colours give three entries,
    five give five, six give five. *)
Theorem palette_output_size (palette : Palette) :
  let n := List.length (colors palette) in
  let out := palette_output palette in
  (n < 5 -> List.length out <= 3)%nat /\
  (5 <= n -> List.length out <= 5)%nat /\
  (n = 4 -> List.length out = 3)%nat /\
  (n = 6 -> List.length out = 5)%nat /\
  out = firstn (List.length out)
               (map (fun c => rgb_to_hex (value c)) (colors palette)) /\
  (n < 5 ->
   List.length out = Nat.min n 3 /\
   out = firstn 3 (map (fun c => rgb_to_hex (value c)) (colors palette)))%nat /\
  (5 <= n ->
   List.length out = 5 /\
   out = firstn 5 (map (fun c => rgb_to_hex (value c)) (colors palette)))%nat.
Proof.
  cbv zeta. unfold palette_output.
  rewrite !length_map, !length_firstn.
  destruct (Nat.ltb_spec (List.length (colors palette)) 5) as [H | H].
  - repeat split; try lia.
    + rewrite firstn_map, <- firstn_firstn, firstn_all. reflexivity.
    + symmetry. apply firstn_map.
  - repeat split; try lia.
    + rewrite firstn_map, <- firstn_firstn, firstn_all. reflexivity.
    + symmetry. apply firstn_map.
Qed.

(** ** Builtins *)

Lemma py_min_In {A : Type} (lt : A -> A -> bool) (l : list A) (m : A) :
  py_min lt l = Ok m -> In m l.
Proof.
  destruct l as [| x xs]; [discriminate |]. cbn [py_min]. intros [= <-].
  revert x. induction xs as [| y ys IH]; intros x; cbn [fold_left].
  - left. reflexivity.
  - destruct (IH (if lt y x then y else x)) as [H | H].
    + rewrite <- H. destruct (lt y x); [right; left | left]; reflexivity.
    + right. right. exact H.
Qed.

Lemma py_max_In {A : Type} (lt : A -> A -> bool) (l : list A) (m : A) :
  py_max lt l = Ok m -> In m l.
Proof.
  destruct l as [| x xs]; [discriminate |]. cbn [py_max]. intros [= <-].
  revert x. induction xs as [| y ys IH]; intros x; cbn [fold_left].
  - left. reflexivity.
  - destruct (IH (if lt x y then y else x)) as [H | H].
    + rewrite <- H. destruct (lt x y); [right; left | left]; reflexivity.
    + right. right. exact H.
Qed.

Lemma py_min_nonempty {A : Type} (lt : A -> A -> bool) (l : list A) :
  l <> [] -> exists m, py_min lt l = Ok m.
Proof. destruct l; [congruence | intros _; eexists; reflexivity]. Qed.

Lemma insert_desc_perm {A : Type} (lt : A -> A -> bool) (x : A) (l : list A) :
  Permutation (insert_desc lt x l) (x :: l).
Proof.
  induction l as [| y ys IH]; cbn [insert_desc]; [reflexivity |].
  destruct (lt x y); [| reflexivity].
  rewrite IH. apply perm_swap.
Qed.

Lemma sorted_reverse_perm {A : Type} (lt : A -> A -> bool) (l : list A) :
  Permutation (sorted_reverse lt l) l.
Proof.
  induction l as [| x xs IH]; cbn [sorted_reverse fold_right]; [reflexivity |].
  rewrite insert_desc_perm. constructor. exact IH.
Qed.


(** ** Aggregation *)

Section Aggregation.
Variable distance : RawColor -> RawColor -> float.
Variable items : dict Z -> dict Z.
Hypothesis items_perm : forall d, Permutation (items d) d.

Lemma keys_items (d : dict Z) : Permutation (keys (items d)) (keys d).
Proof. unfold keys. apply Permutation_map, items_perm. Qed.

Lemma In_keys_items (k : RawColor) (d : dict Z) :
  In k (keys (items d)) <-> In k (keys d).
Proof.
  split; apply Permutation_in; [| symmetry]; apply keys_items.
Qed.

Lemma nearest_canonical_In (c : RawColor) (canonical : list RawColor) :
  canonical <> [] ->
  exists d k, nearest_canonical distance c canonical = Ok (d, k) /\
              In k canonical /\ d = distance c k.
Proof.
  intros H. unfold nearest_canonical.
  destruct (py_min_nonempty pair_ltb
              (map (fun alt => (distance c alt, alt)) canonical)) as [[d k] E].
  { destruct canonical; [congruence | discriminate]. }
  exists d, k. split; [exact E |].
  apply py_min_In, in_map_iff in E. destruct E as (alt & [= <- <-] & Hin). auto.
Qed.

Lemma keys_add_count (k : RawColor) (n : Z) (cnt : dict Z) :
  mem k cnt = true -> keys (add_count k n cnt) = keys cnt.
Proof. apply keys_setitem_mem. Qed.

Lemma mem_setitem {V : Type} (k k' : RawColor) (v : V) (d : dict V) :
  mem k' d = true -> mem k' (setitem k v d) = true.
Proof. rewrite !mem_keys. apply keys_setitem_incl. Qed.

Lemma mem_setitem_same {V : Type} (k : RawColor) (v : V) (d : dict V) :
  mem k (setitem k v d) = true.
Proof. apply mem_keys, keys_setitem_In. Qed.

Lemma lookup_setitem_inv {V : Type} (k k' : RawColor) (v v' : V) (d : dict V) :
  lookup k' (setitem k v d) = Some v' ->
  (k' = k /\ v' = v) \/ lookup k' d = Some v'.
Proof.
  destruct (RawColor_eqb k' k) eqn:E.
  - apply RawColor_eqb_eq in E. subst. rewrite lookup_setitem_same.
    intros [= <-]. auto.
  - apply RawColor_eqb_neq in E. rewrite lookup_setitem_other by exact E. auto.
Qed.

Lemma aggregate_step_inv (min_distance : float) (st : dict Z * dict RawColor)
    (entry : RawColor * Z) :
  agg_inv st ->
  exists st', aggregate_step distance items min_distance st entry = Ok st' /\
              agg_inv st' /\
              incl (keys (fst st)) (keys (fst st')) /\
              incl (keys (snd st)) (keys (snd st')) /\
              mem (fst entry) (snd st') = true.
Proof.
  destruct st as [agg tc], entry as [c n].
  intros (Hnd & Hw & Hb & Hmap & Hval). cbn [fst snd] in *.
  unfold aggregate_step. destruct (mem c agg) eqn:Ec.
  - eexists. split; [reflexivity |]. unfold agg_inv. cbn [fst snd].
    rewrite keys_add_count by exact Ec.
    repeat split; auto using incl_refl.
    apply Hmap, mem_keys, Ec.
  - destruct (nearest_canonical_In c (keys (items agg))) as (d & k & E & Hk & _).
    { intros E. apply (proj2 (In_keys_items _ _)) in Hw. rewrite E in Hw. destruct Hw. }
    rewrite E. cbn [bind]. apply (proj1 (In_keys_items _ _)) in Hk.
    destruct (PrimFloat.ltb d min_distance).
    + eexists. split; [reflexivity |]. unfold agg_inv. cbn [fst snd].
      rewrite keys_add_count by (apply mem_keys, Hk).
      repeat split; auto using incl_refl, mem_setitem_same.
      * intros k' Hk'. apply mem_setitem, Hmap, Hk'.
      * intros k' v Hl. apply lookup_setitem_inv in Hl as [[_ ->] | Hl]; eauto.
      * intros k' Hk'. apply keys_setitem_incl, Hk'.
    + eexists. split; [reflexivity |]. unfold agg_inv. cbn [fst snd].
      repeat split; auto using NoDup_keys_setitem, keys_setitem_incl, mem_setitem_same.
      * intros k' Hk'. rewrite keys_setitem_new in Hk' by exact Ec.
        apply in_app_or in Hk' as [Hk' | [<- | []]];
          auto using mem_setitem, mem_setitem_same.
      * intros k' v Hl. apply lookup_setitem_inv in Hl as [[_ ->] | Hl];
          [apply keys_setitem_In | apply keys_setitem_incl; eauto].
      * intros k' Hk'. apply keys_setitem_incl, Hk'.
      * intros k' Hk'. apply keys_setitem_incl, Hk'.
Qed.

Lemma aggregate_loop_inv (min_distance : float) (cols : list (RawColor * Z)) :
  forall st, agg_inv st ->
  exists st', aggregate_loop distance items min_distance cols st = Ok st' /\
              agg_inv st' /\
              incl (keys (fst st)) (keys (fst st')) /\
              incl (keys (snd st)) (keys (snd st')) /\
              forall c, In c (map fst cols) -> mem c (snd st') = true.
Proof.
  induction cols as [| entry rest IH]; intros st Hst; cbn [aggregate_loop].
  - exists st. split; [reflexivity |]. split; [exact Hst |].
    split; [apply incl_refl |]. split; [apply incl_refl |]. intros c [].
  - destruct (aggregate_step_inv min_distance st entry Hst)
      as (st1 & E1 & H1 & I1 & J1 & M1).
    rewrite E1. cbn [bind].
    destruct (IH st1 H1) as (st2 & E2 & H2 & I2 & J2 & M2).
    exists st2. split; [exact E2 |]. split; [exact H2 |].
    split; [eapply incl_tran; eassumption |].
    split; [eapply incl_tran; eassumption |].
    intros c [<- | Hc]; [| apply M2, Hc].
    apply mem_keys, J2, mem_keys, M1.
Qed.

Lemma agg_inv_init : agg_inv ([(WHITE, 0); (BLACK, 0)], [(WHITE, WHITE); (BLACK, BLACK)]).
Proof.
  unfold agg_inv. cbn [fst snd keys map].
  split; [| split; [| split; [| split]]].
  - repeat constructor; simpl; intuition discriminate.
  - left; reflexivity.
  - right; left; reflexivity.
  - intros k [<- | [<- | []]]; reflexivity.
  - intros k v. cbn [lookup].
    destruct (RawColor_eqb k WHITE); [intros [= <-]; left; reflexivity |].
    destruct (RawColor_eqb k BLACK); [intros [= <-]; right; left; reflexivity |].
    discriminate.
Qed.

Lemma aggregate_inv (dist : dict Z) (min_distance : float) :
  exists agg tc, aggregate distance items dist min_distance = Ok (agg, tc) /\
                 agg_inv (agg, tc) /\
                 forall c, In c (keys dist) -> mem c tc = true.
Proof.
  unfold aggregate.
  destruct (aggregate_loop_inv min_distance
              (sorted_reverse count_ltb (items dist)) _ agg_inv_init)
    as ([agg tc] & E & H & _ & _ & M).
  exists agg, tc. split; [exact E |]. split; [exact H |].
  intros c Hc. apply M.
  eapply Permutation_in; [| exact Hc].
  symmetry. etransitivity; [apply Permutation_map, sorted_reverse_perm |].
  apply keys_items.
Qed.

(** C6: for every histogram the aggregator returns, and its canonical
    histogram has pure white and pure black among its keys: they are seeded
    before the loop and each step keeps every canonical colour there is. *)
Theorem aggregate_keeps_sentinels (dist : dict Z) (min_distance : float) :
  (exists agg tc,
     aggregate distance items dist min_distance = Ok (agg, tc) /\
     In WHITE (keys agg) /\ In BLACK (keys agg)) /\
  (forall st entry st',
     aggregate_step distance items min_distance st entry = Ok st' ->
     incl (keys (fst st)) (keys (fst st'))).
Proof.
  split.
  - destruct (aggregate_inv dist min_distance) as (agg & tc & E & H & _).
    exists agg, tc. split; [exact E |]. split; apply H.
  - intros [agg tc] [c n] st'. unfold aggregate_step.
    destruct (mem c agg) eqn:Ec.
    + intros [= <-]. cbn [fst]. rewrite keys_add_count by exact Ec. apply incl_refl.
    + destruct (nearest_canonical distance c (keys (items agg)))
        as [[d k] |] eqn:E; [| discriminate].
      cbn [bind]. apply py_min_In, in_map_iff in E.
      destruct E as (alt & [= <- <-] & Hin). apply (proj1 (In_keys_items _ _)) in Hin.
      destruct (PrimFloat.ltb _ _); intros [= <-]; cbn [fst].
      * rewrite keys_add_count by (apply mem_keys, Hin). apply incl_refl.
      * intros k' Hk'. apply keys_setitem_incl, Hk'.
Qed.

End Aggregation.

(** ** The order of floats *)


Lemma SFcompare_rank (a b : spec_float) :
  a <> S754_nan -> b <> S754_nan ->
  (SFcompare a b = Some Lt <-> lex_lt (sf_rank a) (sf_rank b)) /\
  (SFcompare a b = Some Eq <-> sf_rank a = sf_rank b).
Proof.
  intros Ha Hb.
  destruct a as [sa | sa | | sa ma ea], b as [sb | sb | | sb mb eb];
    try congruence; try destruct sa; try destruct sb;
    cbn [SFcompare sf_rank lex_lt];
    try (split; split; intros H; first [discriminate | reflexivity | lia | congruence]).
  - (* both negative *)
    destruct (Z.compare_spec ea eb) as [E | E | E].
    + subst eb.
      change (Pos.compare_cont Eq ma mb) with (Pos.compare ma mb).
      destruct (Pos.compare_spec ma mb) as [E | E | E]; cbn [CompOpp];
        split; split; intros H; first [discriminate | reflexivity | lia | congruence | injection H; lia].
    + split; split; intros H; first [discriminate | reflexivity | lia | congruence | injection H; lia].
    + split; split; intros H; first [discriminate | reflexivity | lia | congruence | injection H; lia].
  - destruct (Z.compare_spec ea eb) as [E | E | E].
    + subst eb.
      change (Pos.compare_cont Eq ma mb) with (Pos.compare ma mb).
      destruct (Pos.compare_spec ma mb) as [E | E | E];
        split; split; intros H; first [discriminate | reflexivity | lia | congruence | injection H; lia].
    + split; split; intros H; first [discriminate | reflexivity | lia | congruence | injection H; lia].
    + split; split; intros H; first [discriminate | reflexivity | lia | congruence | injection H; lia].
Qed.

Lemma not_nan_spec (x : float) : PrimFloat.is_nan x = false -> Prim2SF x <> S754_nan.
Proof.
  unfold PrimFloat.is_nan. rewrite FloatAxioms.eqb_spec. intros H E. rewrite E in H. discriminate.
Qed.

Lemma float_ltb_rank (x y : float) :
  PrimFloat.is_nan x = false -> PrimFloat.is_nan y = false ->
  (PrimFloat.ltb x y = true <-> lex_lt (float_rank x) (float_rank y)).
Proof.
  intros Hx%not_nan_spec Hy%not_nan_spec.
  rewrite FloatAxioms.ltb_spec. unfold SFltb, float_rank.
  destruct (SFcompare_rank _ _ Hx Hy) as [<- _].
  destruct (SFcompare (Prim2SF x) (Prim2SF y)) as [[| |] |];
    split; congruence.
Qed.

Lemma float_eqb_rank (x y : float) :
  PrimFloat.is_nan x = false -> PrimFloat.is_nan y = false ->
  (PrimFloat.eqb x y = true <-> float_rank x = float_rank y).
Proof.
  intros Hx%not_nan_spec Hy%not_nan_spec.
  rewrite FloatAxioms.eqb_spec. unfold SFeqb, float_rank.
  destruct (SFcompare_rank _ _ Hx Hy) as [_ <-].
  destruct (SFcompare (Prim2SF x) (Prim2SF y)) as [[| |] |];
    split; congruence.
Qed.

Lemma RawColor_ltb_lex (a b : RawColor) : RawColor_ltb a b = true <-> lex_lt a b.
Proof.
  destruct a as [[a1 a2] a3], b as [[b1 b2] b3]. unfold RawColor_ltb, lex_lt.
  destruct (Z.eqb_spec a1 b1), (Z.eqb_spec a2 b2); cbn [negb];
    rewrite Z.ltb_lt; lia.
Qed.


Lemma pair_ltb_lt (p q : float * RawColor) :
  PrimFloat.is_nan (fst p) = false -> PrimFloat.is_nan (fst q) = false ->
  (pair_ltb p q = true <-> pair_lt p q).
Proof.
  destruct p as [d1 c1], q as [d2 c2]. cbn [fst snd]. intros H1 H2.
  unfold pair_ltb, pair_lt. cbn [fst snd].
  pose proof (float_eqb_rank d1 d2 H1 H2) as He.
  pose proof (float_ltb_rank d1 d2 H1 H2) as Hl.
  pose proof (RawColor_ltb_lex c1 c2) as Hc.
  destruct (float_rank d1) as [[x1 x2] x3], (float_rank d2) as [[y1 y2] y3].
  unfold lex_lt in Hl |- * at 1.
  destruct (PrimFloat.eqb d1 d2); cbn [negb].
  - assert (E : (x1, x2, x3) = (y1, y2, y3)) by (apply He; reflexivity).
    injection E as -> -> ->. rewrite Hc. split; [auto |].
    intros [H | [_ H]]; [lia | exact H].
  - rewrite Hl. split; [auto |].
    intros [H | [E _]]; [exact H |].
    apply He in E. discriminate.
Qed.

Lemma lex_lt_irrefl (a : Z * Z * Z) : ~ lex_lt a a.
Proof. destruct a as [[a1 a2] a3]. unfold lex_lt. lia. Qed.

Lemma lex_lt_trans (a b c : Z * Z * Z) : lex_lt a b -> lex_lt b c -> lex_lt a c.
Proof.
  destruct a as [[a1 a2] a3], b as [[b1 b2] b3], c as [[c1 c2] c3].
  unfold lex_lt. lia.
Qed.

Lemma lex_lt_total (a b : Z * Z * Z) : lex_lt a b \/ a = b \/ lex_lt b a.
Proof.
  destruct a as [[a1 a2] a3], b as [[b1 b2] b3]. unfold lex_lt.
  destruct (Z.lt_total a1 b1) as [H | [H | H]]; [lia | | lia].
  destruct (Z.lt_total a2 b2) as [H' | [H' | H']]; [lia | | lia].
  destruct (Z.lt_total a3 b3) as [H'' | [H'' | H'']]; [lia | | lia].
  right. left. congruence.
Qed.

Lemma pair_lt_irrefl (p : float * RawColor) : ~ pair_lt p p.
Proof.
  unfold pair_lt. intros [H | [_ H]]; eapply lex_lt_irrefl; eassumption.
Qed.

Lemma pair_lt_trans (p q r : float * RawColor) :
  pair_lt p q -> pair_lt q r -> pair_lt p r.
Proof.
  unfold pair_lt. intros [H1 | [E1 H1]] [H2 | [E2 H2]].
  - left. eapply lex_lt_trans; eassumption.
  - left. rewrite <- E2. exact H1.
  - left. rewrite E1. exact H2.
  - right. split; [congruence | eapply lex_lt_trans; eassumption].
Qed.

(** Two pairs neither of which is below the other have the same colour. *)
Lemma pair_lt_antisym (p q : float * RawColor) :
  ~ pair_lt p q -> ~ pair_lt q p -> snd p = snd q.
Proof.
  unfold pair_lt. intros H1 H2.
  destruct (lex_lt_total (float_rank (fst p)) (float_rank (fst q)))
    as [H | [H | H]]; [tauto | | tauto].
  destruct (lex_lt_total (snd p) (snd q)) as [H' | [H' | H']];
    [tauto | exact H' | ].
  exfalso. apply H2. right. split; [congruence | exact H'].
Qed.

(** ** The nearest canonical colour *)


Lemma fold_min_least (xs : list (float * RawColor)) :
  forall best,
    PrimFloat.is_nan (fst best) = false ->
    (forall y, In y xs -> PrimFloat.is_nan (fst y) = false) ->
    let m := fold_left (fun b y => if pair_ltb y b then y else b) xs best in
    PrimFloat.is_nan (fst m) = false /\
    (m = best \/ pair_lt m best) /\
    forall y, In y xs -> ~ pair_lt y m.
Proof.
  induction xs as [| y ys IH]; intros best Hb Hxs; cbn [fold_left].
  - split; [exact Hb |]. split; [left; reflexivity | intros y []].
  - assert (Hy : PrimFloat.is_nan (fst y) = false) by (apply Hxs; left; reflexivity).
    assert (Hys : forall z, In z ys -> PrimFloat.is_nan (fst z) = false)
      by (intros; apply Hxs; right; assumption).
    pose proof (pair_ltb_lt y best Hy Hb) as Hlt.
    destruct (pair_ltb y best).
    + destruct (IH y Hy Hys) as (Hm & Hle & Hleast).
      assert (Hyb : pair_lt y best) by (apply Hlt; reflexivity).
      split; [exact Hm |]. split.
      * right. destruct Hle as [-> | Hle]; [exact Hyb |].
        eapply pair_lt_trans; eassumption.
      * intros z [<- | Hz]; [| apply Hleast, Hz].
        destruct Hle as [-> | Hle]; [apply pair_lt_irrefl |].
        intros H. eapply pair_lt_irrefl, pair_lt_trans; eassumption.
    + destruct (IH best Hb Hys) as (Hm & Hle & Hleast).
      assert (Hyb : ~ pair_lt y best) by (intros H; apply Hlt in H; discriminate).
      split; [exact Hm |]. split; [exact Hle |].
      intros z [<- | Hz]; [| apply Hleast, Hz].
      destruct Hle as [-> | Hle]; [exact Hyb |].
      intros H. apply Hyb. eapply pair_lt_trans; eassumption.
Qed.

Lemma py_min_pair_least (l : list (float * RawColor)) (m : float * RawColor) :
  (forall y, In y l -> PrimFloat.is_nan (fst y) = false) ->
  py_min pair_ltb l = Ok m ->
  In m l /\ forall y, In y l -> ~ pair_lt y m.
Proof.
  intros Hl E. split; [eapply py_min_In, E |].
  destruct l as [| x xs]; [discriminate |]. cbn [py_min] in E. injection E as E.
  destruct (fold_min_least xs x) as (_ & Hle & Hleast).
  { apply Hl. left. reflexivity. }
  { intros. apply Hl. right. assumption. }
  cbv zeta in Hle, Hleast. rewrite E in Hle, Hleast.
  intros y [<- | Hy]; [| apply Hleast, Hy].
  destruct Hle as [-> | Hle]; [apply pair_lt_irrefl |].
  intros H. eapply pair_lt_irrefl, pair_lt_trans; eassumption.
Qed.

Section Nearest.
Variable distance : RawColor -> RawColor -> float.

(** C7, amended: among the canonical colours at the least distance from [c]
    the search keeps the one with the smallest (r, g, b) tuple, since it takes
    the minimum of (distance, colour) pairs; the order in which the canonical
    colours are met has no part in it. *)
Theorem nearest_canonical_smallest_tuple (c : RawColor) (canonical : list RawColor) :
  canonical <> [] ->
  (forall alt, In alt canonical -> PrimFloat.is_nan (distance c alt) = false) ->
  exists d nearest,
    nearest_canonical distance c canonical = Ok (d, nearest) /\
    In nearest canonical /\ d = distance c nearest /\
    (forall alt, In alt canonical ->
       PrimFloat.ltb (distance c alt) d = false /\
       (PrimFloat.eqb (distance c alt) d = true ->
        RawColor_ltb alt nearest = false)) /\
    (forall canonical', Permutation canonical canonical' ->
       nearest_canonical distance c canonical' = Ok (d, nearest)).
Proof.
  intros Hne Hnan.
  set (pairs := fun l : list RawColor => map (fun alt => (distance c alt, alt)) l).
  assert (Hpairs : forall l, (forall alt, In alt l -> In alt canonical) ->
            forall y, In y (pairs l) -> PrimFloat.is_nan (fst y) = false).
  { intros l Hl y Hy. apply in_map_iff in Hy as (alt & <- & Hin).
    apply Hnan, Hl, Hin. }
  assert (Hchar : forall l m, (forall alt, In alt l <-> In alt canonical) ->
            nearest_canonical distance c l = Ok m ->
            In (snd m) canonical /\ fst m = distance c (snd m) /\
            forall alt, In alt canonical -> ~ pair_lt (distance c alt, alt) m).
  { intros l m Hl E.
    apply py_min_pair_least in E as [Hin Hleast];
      [| apply Hpairs; intros; apply Hl; assumption].
    apply in_map_iff in Hin as (k & <- & Hk). cbn [fst snd].
    split; [apply Hl, Hk |]. split; [reflexivity |].
    intros alt Halt. apply Hleast, in_map_iff. exists alt.
    split; [reflexivity | apply Hl, Halt]. }
  destruct (nearest_canonical_In distance c canonical Hne) as (d & k & E & Hk & Hd).
  destruct (Hchar canonical (d, k) (fun _ => iff_refl _) E) as (_ & _ & Hleast).
  exists d, k. split; [exact E |]. split; [exact Hk |]. split; [exact Hd |]. split.
  - intros alt Halt. specialize (Hleast alt Halt).
    assert (Hn1 : PrimFloat.is_nan (distance c alt) = false) by (apply Hnan, Halt).
    assert (Hn2 : PrimFloat.is_nan d = false) by (subst d; apply Hnan, Hk).
    assert (Hb : pair_ltb (distance c alt, alt) (d, k) = false).
    { destruct (pair_ltb _ _) eqn:Eb; [| reflexivity].
      exfalso. apply Hleast. apply pair_ltb_lt; assumption. }
    unfold pair_ltb in Hb.
    pose proof (float_eqb_rank _ _ Hn1 Hn2) as He.
    pose proof (float_ltb_rank _ _ Hn1 Hn2) as Hl.
    destruct (PrimFloat.eqb (distance c alt) d); cbn [negb] in Hb.
    + split; [| intros _; exact Hb].
      destruct (PrimFloat.ltb (distance c alt) d); [| reflexivity].
      exfalso. apply (lex_lt_irrefl (float_rank d)).
      rewrite <- (proj1 He eq_refl) at 1. apply Hl. reflexivity.
    + split; [exact Hb | discriminate].
  - intros l' Hperm.
    destruct (nearest_canonical_In distance c l') as (d' & k' & E' & Hk' & Hd').
    { intros ->. apply Permutation_sym, Permutation_nil in Hperm. congruence. }
    destruct (Hchar l' (d', k')) as (Hin' & _ & Hleast'); [| exact E' |].
    { intros alt. split; apply Permutation_in; [symmetry |]; exact Hperm. }
    cbn [fst snd] in *.
    assert (Ek : k' = k).
    { apply (pair_lt_antisym (d', k') (d, k)).
      - subst d'. apply Hleast. exact Hin'.
      - subst d. apply Hleast'. exact Hk. }
    subst k'. rewrite E'. congruence.
Qed.

End Nearest.

(** C7 as stated fails under the stand-in distance: (100,0,5) is at distance 5
    from both (100,0,10), met first, and (100,0,0); the code keeps (100,0,0),
    the first-encountered rule keeps (100,0,10).  In the aggregator the count
    of (100,0,5) goes to (100,0,0) accordingly. *)
Lemma nearest_canonical_not_first_encountered :
  nearest_canonical manhattan_distance (100, 0, 5)
    [WHITE; BLACK; (100, 0, 10); (100, 0, 0)] = Ok (5%float, (100, 0, 0)) /\
  first_encountered_nearest manhattan_distance (100, 0, 5)
    [WHITE; BLACK; (100, 0, 10); (100, 0, 0)] = Ok (5%float, (100, 0, 10)) /\
  aggregate manhattan_distance insertion_order
    [((100, 0, 5), 1); ((100, 0, 10), 3); ((100, 0, 0), 2)] MIN_DISTANCE =
  Ok ([(WHITE, 0); (BLACK, 0); ((100, 0, 10), 3); ((100, 0, 0), 3)],
      [(WHITE, WHITE); (BLACK, BLACK); ((100, 0, 10), (100, 0, 10));
       ((100, 0, 0), (100, 0, 0)); ((100, 0, 5), (100, 0, 0))]).
Proof. repeat split; vm_compute; reflexivity. Qed.

Lemma nearest_canonical_smallest_tuple_witness :
  exists d nearest,
    nearest_canonical manhattan_distance (100, 0, 5)
      [WHITE; BLACK; (100, 0, 10); (100, 0, 0)] = Ok (d, nearest) /\
    In nearest [WHITE; BLACK; (100, 0, 10); (100, 0, 0)] /\
    d = manhattan_distance (100, 0, 5) nearest /\
    (forall alt, In alt [WHITE; BLACK; (100, 0, 10); (100, 0, 0)] ->
       PrimFloat.ltb (manhattan_distance (100, 0, 5) alt) d = false /\
       (PrimFloat.eqb (manhattan_distance (100, 0, 5) alt) d = true ->
        RawColor_ltb alt nearest = false)) /\
    (forall canonical',
       Permutation [WHITE; BLACK; (100, 0, 10); (100, 0, 0)] canonical' ->
       nearest_canonical manhattan_distance (100, 0, 5) canonical' = Ok (d, nearest)).
Proof.
  apply (nearest_canonical_smallest_tuple manhattan_distance (100, 0, 5)
           [WHITE; BLACK; (100, 0, 10); (100, 0, 0)]).
  - discriminate.
  - intros alt [<- | [<- | [<- | [<- | []]]]]; vm_compute; reflexivity.
Defined.

(** ** Counters *)


Lemma count_of_add_count (x k : RawColor) (n : Z) (cnt : dict Z) :
  count_of x (add_count k n cnt) =
  count_of x cnt + (if RawColor_eqb x k then n else 0).
Proof.
  unfold add_count, count_of at 1.
  destruct (RawColor_eqb x k) eqn:E.
  - apply RawColor_eqb_eq in E. subst. rewrite lookup_setitem_same. reflexivity.
  - apply RawColor_eqb_neq in E. rewrite lookup_setitem_other by exact E.
    unfold count_of. lia.
Qed.

Lemma Counter_fold (xs : list RawColor) :
  forall cnt,
    NoDup (keys cnt) ->
    let cnt' := fold_left (fun cnt x => add_count x 1 cnt) xs cnt in
    NoDup (keys cnt') /\
    (forall x, count_of x cnt' = count_of x cnt + occurrences x xs) /\
    (forall x, In x (keys cnt') <-> In x (keys cnt) \/ In x xs).
Proof.
  unfold occurrences.
  induction xs as [| y ys IH]; intros cnt Hnd; cbn [fold_left].
  - split; [exact Hnd |]. split; [intros; cbn; lia | intros; cbn; tauto].
  - destruct (IH (add_count y 1 cnt)) as (H1 & H2 & H3).
    { apply NoDup_keys_setitem, Hnd. }
    split; [exact H1 |]. split.
    + intros x. rewrite H2, count_of_add_count. cbn [filter].
      destruct (RawColor_eqb x y); cbn [List.length]; lia.
    + intros x. rewrite H3. unfold add_count. cbn [In].
      split.
      * intros [H | H]; [| tauto].
        destruct (mem y cnt) eqn:E.
        -- rewrite keys_setitem_mem in H by exact E. tauto.
        -- rewrite keys_setitem_new in H by exact E.
           apply in_app_or in H as [H | [H | []]]; tauto.
      * intros [H | [<- | H]]; [left | left | right; exact H].
        -- apply keys_setitem_incl, H.
        -- apply keys_setitem_In.
Qed.

Lemma Counter_spec (xs : list RawColor) :
  NoDup (keys (Counter xs)) /\
  (forall x, count_of x (Counter xs) = occurrences x xs) /\
  (forall x, In x (keys (Counter xs)) <-> In x xs).
Proof.
  destruct (Counter_fold xs [] (NoDup_nil _)) as (H1 & H2 & H3).
  unfold Counter. split; [exact H1 |]. split.
  - intros x. rewrite (H2 x). reflexivity.
  - intros x. rewrite (H3 x). cbn. tauto.
Qed.

Lemma lookup_In {V : Type} (k : RawColor) (v : V) (d : dict V) :
  NoDup (keys d) -> In (k, v) d -> lookup k d = Some v.
Proof.
  induction d as [| [k' v'] d IH]; intros Hnd Hin; [destruct Hin |].
  cbn [keys map fst] in Hnd. inversion Hnd as [| ? ? Hnotin Hnd']; subst.
  cbn [lookup]. destruct Hin as [[= -> ->] | Hin].
  - rewrite RawColor_eqb_refl. reflexivity.
  - destruct (RawColor_eqb k k') eqn:E; [| apply IH; assumption].
    apply RawColor_eqb_eq in E. subst k'. exfalso. apply Hnotin.
    apply in_map_iff. exists (k, v). split; [reflexivity | exact Hin].
Qed.

Lemma occurrences_pos (x : RawColor) (xs : list RawColor) :
  In x xs <-> 0 < occurrences x xs.
Proof.
  unfold occurrences. induction xs as [| y ys IH]; cbn [filter In List.length].
  - cbn. lia.
  - destruct (RawColor_eqb x y) eqn:E.
    + apply RawColor_eqb_eq in E. subst. cbn [List.length]. split; [lia | auto].
    + apply RawColor_eqb_neq in E. rewrite <- IH.
      split; [intros [H | H]; [congruence | exact H] | auto].
Qed.

Lemma fold_max_greatest (xs : list (RawColor * Z)) :
  forall best,
    let m := fold_left (fun b y => if count_ltb b y then y else b) xs best in
    snd best <= snd m /\ forall y, In y xs -> snd y <= snd m.
Proof.
  induction xs as [| y ys IH]; intros best; cbn [fold_left].
  - split; [lia | intros y []].
  - destruct (IH (if count_ltb best y then y else best)) as [H1 H2].
    unfold count_ltb in *. destruct (Z.ltb_spec (snd best) (snd y)).
    + split; [lia |]. intros z [<- | Hz]; [exact H1 | apply H2, Hz].
    + split; [exact H1 |]. intros z [<- | Hz]; [lia | apply H2, Hz].
Qed.

Lemma py_max_count_greatest (l : list (RawColor * Z)) (m : RawColor * Z) :
  py_max count_ltb l = Ok m ->
  In m l /\ forall y, In y l -> snd y <= snd m.
Proof.
  intros E. split; [eapply py_max_In, E |].
  destruct l as [| x xs]; [discriminate |]. cbn [py_max] in E. injection E as E.
  destruct (fold_max_greatest xs x) as [H1 H2]. cbv zeta in H1, H2.
  rewrite E in H1, H2. intros y [<- | Hy]; [exact H1 | apply H2, Hy].
Qed.

(** [max] keeps the first of the items of largest count: every item before
    it has a smaller count, every item after it a count that is not larger. *)
Lemma fold_max_first (xs : list (RawColor * Z)) :
  forall best,
    let m := fold_left (fun b y => if count_ltb b y then y else b) xs best in
    (m = best /\ forall y, In y xs -> snd y <= snd best) \/
    (exists l1 l2,
       xs = l1 ++ m :: l2 /\ snd best < snd m /\
       (forall y, In y l1 -> snd y < snd m) /\
       (forall y, In y l2 -> snd y <= snd m)).
Proof.
  induction xs as [| y ys IH]; intros best; cbn [fold_left].
  - left. split; [reflexivity | intros y []].
  - specialize (IH (if count_ltb best y then y else best)). cbv zeta in IH.
    set (m := fold_left (fun b y => if count_ltb b y then y else b) ys
                (if count_ltb best y then y else best)) in *.
    clearbody m. unfold count_ltb in IH |- *.
    destruct (Z.ltb_spec (snd best) (snd y)) as [Hlt | Hge].
    + right. destruct IH as [[Em Hys] | (l1 & l2 & E & Hb & H1 & H2)].
      * exists [], ys. rewrite Em. split; [reflexivity |].
        split; [exact Hlt |]. split; [intros ? [] | exact Hys].
      * exists (y :: l1), l2. rewrite E. split; [reflexivity |].
        split; [lia |]. split; [| exact H2].
        intros z [<- | Hz]; [exact Hb | apply H1, Hz].
    + destruct IH as [[Em Hys] | (l1 & l2 & E & Hb & H1 & H2)].
      * left. split; [exact Em |].
        intros z [<- | Hz]; [exact Hge | apply Hys, Hz].
      * right. exists (y :: l1), l2. rewrite E. split; [reflexivity |].
        split; [exact Hb |]. split; [| exact H2].
        intros z [<- | Hz]; [lia | apply H1, Hz].
Qed.

Lemma py_max_count_first (l : list (RawColor * Z)) (m : RawColor * Z) :
  py_max count_ltb l = Ok m ->
  exists l1 l2,
    l = l1 ++ m :: l2 /\
    (forall y, In y l1 -> snd y < snd m) /\
    (forall y, In y l2 -> snd y <= snd m).
Proof.
  destruct l as [| x xs]; [discriminate |]. cbn [py_max]. intros [= E].
  pose proof (fold_max_first xs x) as H. cbv zeta in H. rewrite E in H.
  destruct H as [[Em Hxs] | (l1 & l2 & Exs & Hb & H1 & H2)].
  - exists [], xs. rewrite Em. split; [reflexivity |].
    split; [intros ? [] | exact Hxs].
  - exists (x :: l1), l2. rewrite Exs. split; [reflexivity |].
    split; [| exact H2].
    intros z [<- | Hz]; [exact Hb | apply H1, Hz].
Qed.

Section Border.
Variable items : dict Z -> dict Z.
Hypothesis items_perm : forall d, Permutation (items d) d.

(** [most_common(1)] of the counter of a non-empty sample: a value that no
    other value outnumbers, with its number of occurrences. *)
Lemma most_common_1_spec (samples : list RawColor) :
  samples <> [] ->
  exists majority,
    most_common_1 items (Counter samples) =
      [(majority, occurrences majority samples)] /\
    In majority samples /\
    forall v, occurrences v samples <= occurrences majority samples.
Proof.
  intros Hne. destruct (Counter_spec samples) as (Hnd & Hcount & Hkeys).
  unfold most_common_1.
  destruct (py_max count_ltb (items (Counter samples))) as [[m n] | e] eqn:E.
  - apply py_max_count_greatest in E as [Hin Hmax].
    apply (Permutation_in _ (items_perm _)) in Hin.
    assert (Hn : n = occurrences m samples).
    { rewrite <- Hcount. unfold count_of. rewrite (lookup_In m n); auto. }
    exists m. subst n. split; [reflexivity |]. split.
    + apply Hkeys. apply in_map_iff. exists (m, occurrences m samples). auto.
    + intros v. destruct (occurrences_pos v samples) as [_ Hpos].
      destruct (Z.le_gt_cases (occurrences v samples) 0) as [H0 | H0].
      * assert (0 < occurrences m samples); [| lia].
        apply occurrences_pos, Hkeys, in_map_iff.
        exists (m, occurrences m samples). auto.
      * apply Hpos, Hkeys, in_map_iff in H0 as ([v' n'] & Ev & Hv).
        cbn [fst] in Ev. subst v'.
        assert (n' = occurrences v samples).
        { rewrite <- Hcount. unfold count_of. rewrite (lookup_In v n'); auto. }
        subst n'. apply (Hmax (v, occurrences v samples)).
        apply (Permutation_in _ (Permutation_sym (items_perm _))), Hv.
  - exfalso. destruct samples as [| s ss]; [congruence |].
    assert (Hs : In s (keys (Counter (s :: ss)))) by (apply Hkeys; left; reflexivity).
    apply in_map_iff in Hs as (entry & _ & Hentry).
    apply (Permutation_in _ (Permutation_sym (items_perm _))) in Hentry.
    destruct (items (Counter (s :: ss))); [destruct Hentry | discriminate].
Qed.

(** Which of several equally frequent values it is: the first one in the
    order in which the counter is iterated. *)
Lemma most_common_1_first (samples : list RawColor) :
  samples <> [] ->
  exists majority before after,
    most_common_1 items (Counter samples) =
      [(majority, occurrences majority samples)] /\
    In majority samples /\
    (forall v, occurrences v samples <= occurrences majority samples) /\
    keys (items (Counter samples)) = before ++ majority :: after /\
    (forall v, In v before ->
               occurrences v samples < occurrences majority samples).
Proof.
  intros Hne.
  destruct (most_common_1_spec samples Hne) as (majority & Em & Hin & Hmax).
  destruct (Counter_spec samples) as (Hnd & Hcount & _).
  unfold most_common_1 in Em.
  destruct (py_max count_ltb (items (Counter samples))) as [m | e] eqn:E;
    [| discriminate].
  injection Em as ->.
  destruct (py_max_count_first _ _ E) as (l1 & l2 & El & H1 & _).
  exists majority, (keys l1), (keys l2).
  split; [unfold most_common_1; rewrite E; reflexivity |].
  split; [exact Hin |]. split; [exact Hmax |]. split.
  - rewrite El. unfold keys. rewrite map_app. reflexivity.
  - intros v Hv. apply in_map_iff in Hv as ([v' n] & Ev & Hvin).
    cbn [fst] in Ev. subst v'.
    assert (Hn : n = occurrences v samples).
    { rewrite <- Hcount. unfold count_of. rewrite (lookup_In v n); [reflexivity | exact Hnd |].
      apply (Permutation_in _ (items_perm _)). rewrite El.
      apply in_or_app. left. exact Hvin. }
    specialize (H1 _ Hvin). cbn [snd] in H1. lia.
Qed.

Lemma getpixel_in_range (im : Image) (x y : Z) :
  well_formed im -> 0 <= x < width im -> 0 <= y < height im ->
  exists c, getpixel im (x, y) = Ok c /\ In c (getdata im).
Proof.
  intros (Hw & Hh & Hlen) Hx Hy. unfold getpixel.
  replace ((0 <=? x) && (x <? width im) && (0 <=? y) && (y <? height im))
    with true by (symmetry; rewrite !andb_true_iff, !Z.leb_le, !Z.ltb_lt; lia).
  destruct (nth_error (getdata im) (Z.to_nat (y * width im + x))) as [c |] eqn:E.
  - exists c. split; [reflexivity | eapply nth_error_In, E].
  - exfalso. apply nth_error_None in E. nia.
Qed.

Lemma half_in_range (n : Z) : 0 < n -> 0 <= n / 2 < n.
Proof.
  intros H. split; [apply Z.div_pos; lia | apply Z.div_lt; lia].
Qed.

(** On a well-formed image the eight border points are read without error. *)
Lemma border_samples (im : Image) :
  well_formed im ->
  exists samples,
    mapM (getpixel im) (border_points im) = Ok samples /\
    List.length samples = 8%nat /\
    forall c, In c samples -> In c (getdata im).
Proof.
  intros Hwf. pose proof Hwf as (Hw & Hh & _).
  pose proof (half_in_range _ Hw) as Hw2. pose proof (half_in_range _ Hh) as Hh2.
  unfold border_points. cbn [mapM].
  repeat match goal with
  | |- context [getpixel im (?x, ?y)] =>
      let c := fresh "c" in let E := fresh "E" in let I := fresh "I" in
      destruct (getpixel_in_range im x y Hwf) as (c & E & I); [lia | lia |];
      rewrite E; cbn [bind]
  end.
  eexists. split; [reflexivity |]. split; [reflexivity |].
  intros col Hc. cbn [In] in Hc.
  repeat (destruct Hc as [<- | Hc]; [assumption |]). destruct Hc.
Qed.

(** C2, amended: when the dominant-fill branch does not trigger,
    [detect_background] reads the eight border points (corners and edge
    midpoints) and takes the most frequent value among them; if several are
    equally frequent it takes the one that comes first when the counter is
    iterated.  If it occurs at least 3 times, the colour of the foreground
    list whose value is its canonical colour is returned as the background and
    removed from the list; if no value occurs 3 times, the background is None
    and the list is returned as it is. *)
Theorem detect_background_border (im : Image) (c0 : Color) (rest : list Color)
    (to_canonical : dict RawColor) :
  well_formed im ->
  PrimFloat.leb BACKGROUND_PROMINENCE (prominence c0) = false ->
  exists samples majority before after,
    mapM (getpixel im)
         [(0, 0); (0, height im / 2); (0, height im - 1);
          (width im / 2, height im - 1); (width im - 1, height im - 1);
          (width im - 1, height im / 2); (width im - 1, 0); (width im / 2, 0)]
      = Ok samples /\
    List.length samples = 8%nat /\
    In majority samples /\
    (forall v, occurrences v samples <= occurrences majority samples) /\
    keys (items (Counter samples)) = before ++ majority :: after /\
    (forall v, In v before ->
               occurrences v samples < occurrences majority samples) /\
    (3 <= occurrences majority samples ->
     forall canonical_bg bg_color,
       lookup majority to_canonical = Some canonical_bg ->
       filter (fun c => RawColor_eqb (value c) canonical_bg) (c0 :: rest)
         = [bg_color] ->
       detect_background items im (c0 :: rest) to_canonical =
       Ok (filter (fun c => negb (RawColor_eqb (value c) canonical_bg))
                  (c0 :: rest),
           Some bg_color)) /\
    ((forall v, occurrences v samples < 3) ->
     detect_background items im (c0 :: rest) to_canonical =
     Ok (c0 :: rest, None)).
Proof.
  intros Hwf Hdom.
  destruct (border_samples im Hwf) as (samples & Es & Hlen & _).
  destruct (most_common_1_first samples)
    as (majority & before & after & Em & Hin & Hmax & Hkeys & Hfirst).
  { intros ->. discriminate. }
  exists samples, majority, before, after.
  split; [exact Es |]. split; [exact Hlen |]. split; [exact Hin |].
  split; [exact Hmax |]. split; [exact Hkeys |]. split; [exact Hfirst |].
  unfold detect_background. rewrite Hdom.
  unfold border_points in Es |- *. rewrite Es. cbn [bind].
  rewrite Em. cbn [unpack_1 bind]. split.
  - intros H3 cb bg Hcb Hbg.
    replace (3 <=? occurrences majority samples) with true
      by (symmetry; apply Z.leb_le; exact H3).
    unfold getitem. rewrite Hcb. cbn [bind]. rewrite Hbg. reflexivity.
  - intros Hlt. specialize (Hlt majority).
    replace (3 <=? occurrences majority samples) with false
      by (symmetry; apply Z.leb_gt; exact Hlt).
    reflexivity.
Qed.

End Border.

(** ** Pixel counts as floats *)

Lemma digits2_pos_iter_xO (m : positive) (d : positive) :
  Zpos (digits2_pos (Pos.iter xO m d)) = Zpos (digits2_pos m) + Zpos d.
Proof.
  induction d as [| d IH] using Pos.peano_ind.
  - cbn [Pos.iter digits2_pos]. lia.
  - rewrite Pos.iter_succ. cbn [digits2_pos]. lia.
Qed.

Lemma digits2_pos_bound (m : positive) (k : Z) :
  0 <= k -> Zpos m < 2 ^ k -> Zpos (digits2_pos m) <= k.
Proof.
  revert k. induction m as [m IH | m IH |]; intros k Hk Hlt; cbn [digits2_pos].
  - assert (k <> 0) by (intros ->; cbn in Hlt; lia).
    replace k with (Z.succ (k - 1)) in Hlt by lia.
    rewrite Z.pow_succ_r in Hlt by lia.
    specialize (IH (k - 1)). lia.
  - assert (k <> 0) by (intros ->; cbn in Hlt; lia).
    replace k with (Z.succ (k - 1)) in Hlt by lia.
    rewrite Z.pow_succ_r in Hlt by lia.
    specialize (IH (k - 1)). lia.
  - assert (k <> 0) by (intros ->; cbn in Hlt; lia). lia.
Qed.

(** A mantissa that already has its canonical exponent is not rounded. *)
Lemma binary_round_aux_canonical (s : bool) (m : positive) (e : Z) :
  fexp prec emax (Zpos (digits2_pos m) + e) = e ->
  e <= emax - prec ->
  binary_round_aux prec emax s (Zpos m) e loc_Exact = S754_finite s m e.
Proof.
  intros Hc He. unfold binary_round_aux, shr_fexp.
  cbn [Zdigits2 shr_record_of_loc]. rewrite Hc, Z.sub_diag.
  cbn [shr shr_m loc_of_shr_record round_nearest_even Zdigits2 shr_record_of_loc].
  rewrite Hc, Z.sub_diag. cbn [shr shr_m].
  replace (e <=? emax - prec) with true by (symmetry; apply Z.leb_le; exact He).
  reflexivity.
Qed.

Lemma float_of_Z_finite (n : Z) :
  0 < n < 2 ^ 53 ->
  exists m e, Prim2SF (float_of_Z n) = S754_finite false m e.
Proof.
  intros [Hpos Hlt]. destruct n as [| p |]; try lia.
  unfold float_of_Z. cbn [binary_normalize]. unfold binary_round.
  pose proof (digits2_pos_bound p 53 ltac:(lia) Hlt) as Hd.
  assert (Hfexp : fexp prec emax (Zpos (digits2_pos p) + 0) = Zpos (digits2_pos p) - 53).
  { unfold fexp, emin, prec, emax. lia. }
  rewrite Hfexp. unfold shl_align.
  assert (Hvalid : forall m e,
            fexp prec emax (Zpos (digits2_pos m) + e) = e -> e <= 0 ->
            exists m' e', Prim2SF (SF2Prim (binary_round_aux prec emax false
                                              (Zpos m) e loc_Exact))
                          = S754_finite false m' e').
  { intros m e Hc He. rewrite binary_round_aux_canonical;
      [| exact Hc | unfold emax, prec; lia].
    exists m, e. apply Prim2SF_SF2Prim. cbn [valid_binary]. unfold bounded.
    apply andb_true_iff. split.
    - unfold canonical_mantissa. apply Z.eqb_eq. exact Hc.
    - apply Z.leb_le. unfold emax, prec. lia. }
  destruct (Zpos (digits2_pos p) - 53 - 0) as [| d | d] eqn:Ed; try lia.
  - apply Hvalid; [| lia]. unfold fexp, emin, prec, emax. lia.
  - apply Hvalid; [| lia]. rewrite digits2_pos_iter_xO.
    unfold fexp, emin, prec, emax. lia.
Qed.



Lemma float_finite_nonzero (x : float) (s : bool) (m : positive) (e : Z) :
  Prim2SF x = S754_finite s m e ->
  PrimFloat.eqb x 0 = false /\ PrimFloat.is_infinity x = false.
Proof.
  intros Hx. split.
  - rewrite FloatAxioms.eqb_spec, Hx. destruct s; reflexivity.
  - unfold PrimFloat.is_infinity. rewrite FloatAxioms.eqb_spec, abs_spec, Hx.
    reflexivity.
Qed.


(** ** A solid red image *)





Section SolidRed.
Variable distance : RawColor -> RawColor -> float.
Variable items : dict Z -> dict Z.
Hypothesis items_perm : forall d, Permutation (items d) d.




End SolidRed.


(** ** Closed instances *)

Lemma insertion_order_perm (d : dict Z) : Permutation (insertion_order d) d.
Proof. apply Permutation_refl. Qed.

(** C2 as stated fails on [two_sided_border]: (200,0,0) occurs at 3 of the 8
    sampled points, it is its own canonical colour and is in the foreground
    list, yet the background returned is (0,0,200), which occurs 5 times, and
    (200,0,0) stays in the foreground. *)
Lemma detect_background_not_every_value :
  (agg <- aggregate manhattan_distance insertion_order
            (Counter (getdata two_sided_border)) MIN_DISTANCE ;;
   ranked <- rank insertion_order (fst agg) 25 ;;
   Ok (ranked, snd agg)) = Ok (two_sided_ranked, two_sided_canonical) /\
  mapM (getpixel two_sided_border) (border_points two_sided_border) =
    Ok [(200, 0, 0); (200, 0, 0); (200, 0, 0); (0, 0, 200); (0, 0, 200);
        (0, 0, 200); (0, 0, 200); (0, 0, 200)] /\
  lookup (200, 0, 0) two_sided_canonical = Some (200, 0, 0) /\
  filter (fun c => RawColor_eqb (value c) (200, 0, 0)) two_sided_ranked =
    [mkColor (200, 0, 0) 0.12] /\
  detect_background insertion_order two_sided_border two_sided_ranked
    two_sided_canonical =
  Ok ([mkColor (0, 200, 0) 0.24; mkColor (200, 200, 0) 0.24;
       mkColor (0, 200, 200) 0.2; mkColor (200, 0, 0) 0.12;
       mkColor WHITE 0; mkColor BLACK 0],
      Some (mkColor (0, 0, 200) 0.2)).
Proof. repeat split; vm_compute; reflexivity. Qed.

Lemma detect_background_border_witness :
  exists samples majority before after,
    mapM (getpixel two_sided_border)
         [(0, 0); (0, height two_sided_border / 2);
          (0, height two_sided_border - 1);
          (width two_sided_border / 2, height two_sided_border - 1);
          (width two_sided_border - 1, height two_sided_border - 1);
          (width two_sided_border - 1, height two_sided_border / 2);
          (width two_sided_border - 1, 0); (width two_sided_border / 2, 0)]
      = Ok samples /\
    List.length samples = 8%nat /\
    In majority samples /\
    (forall v, occurrences v samples <= occurrences majority samples) /\
    keys (insertion_order (Counter samples)) = before ++ majority :: after /\
    (forall v, In v before ->
               occurrences v samples < occurrences majority samples) /\
    (3 <= occurrences majority samples ->
     forall canonical_bg bg_color,
       lookup majority two_sided_canonical = Some canonical_bg ->
       filter (fun c => RawColor_eqb (value c) canonical_bg) two_sided_ranked
         = [bg_color] ->
       detect_background insertion_order two_sided_border two_sided_ranked
         two_sided_canonical =
       Ok (filter (fun c => negb (RawColor_eqb (value c) canonical_bg))
                  two_sided_ranked,
           Some bg_color)) /\
    ((forall v, occurrences v samples < 3) ->
     detect_background insertion_order two_sided_border two_sided_ranked
       two_sided_canonical =
     Ok (two_sided_ranked, None)).
Proof.
  apply (detect_background_border insertion_order insertion_order_perm
           two_sided_border (mkColor (0, 200, 0) 0.24)
           (tl two_sided_ranked) two_sided_canonical).
  - unfold well_formed. cbn. lia.
  - reflexivity.
Defined.

(** On [tied_border] two values are at 4 of the 8 sampled points each; the
    background is the one the counter yields first: (200,0,0) when it is
    iterated in insertion order, (0,0,200) in the reverse order. *)
Lemma detect_background_tie_order :
  (agg <- aggregate manhattan_distance insertion_order
            (Counter (getdata tied_border)) MIN_DISTANCE ;;
   ranked <- rank insertion_order (fst agg) 25 ;;
   Ok (ranked, snd agg)) = Ok (tied_ranked, tied_canonical) /\
  mapM (getpixel tied_border) (border_points tied_border) =
    Ok [(200, 0, 0); (200, 0, 0); (200, 0, 0); (200, 0, 0); (0, 0, 200);
        (0, 0, 200); (0, 0, 200); (0, 0, 200)] /\
  keys (insertion_order
          (Counter [(200, 0, 0); (200, 0, 0); (200, 0, 0); (200, 0, 0);
                    (0, 0, 200); (0, 0, 200); (0, 0, 200); (0, 0, 200)])) =
    [(200, 0, 0); (0, 0, 200)] /\
  detect_background insertion_order tied_border tied_ranked tied_canonical =
  Ok ([mkColor (0, 200, 0) 0.24; mkColor (200, 200, 0) 0.24;
       mkColor (0, 200, 200) 0.2; mkColor (0, 0, 200) 0.16;
       mkColor WHITE 0; mkColor BLACK 0],
      Some (mkColor (200, 0, 0) 0.16)) /\
  keys (reverse_order
          (Counter [(200, 0, 0); (200, 0, 0); (200, 0, 0); (200, 0, 0);
                    (0, 0, 200); (0, 0, 200); (0, 0, 200); (0, 0, 200)])) =
    [(0, 0, 200); (200, 0, 0)] /\
  detect_background reverse_order tied_border tied_ranked tied_canonical =
  Ok ([mkColor (0, 200, 0) 0.24; mkColor (200, 200, 0) 0.24;
       mkColor (0, 200, 200) 0.2; mkColor (200, 0, 0) 0.16;
       mkColor WHITE 0; mkColor BLACK 0],
      Some (mkColor (0, 0, 200) 0.16)).
Proof. repeat split; vm_compute; reflexivity. Qed.

Lemma aggregate_keeps_sentinels_witness :
  (exists agg tc,
     aggregate manhattan_distance insertion_order [(RED, 4)] MIN_DISTANCE
       = Ok (agg, tc) /\
     In WHITE (keys agg) /\ In BLACK (keys agg)) /\
  (forall st entry st',
     aggregate_step manhattan_distance insertion_order MIN_DISTANCE st entry
       = Ok st' ->
     incl (keys (fst st)) (keys (fst st'))).
Proof.
  exact (aggregate_keeps_sentinels manhattan_distance insertion_order
           insertion_order_perm [(RED, 4)] MIN_DISTANCE).
Defined.


(** ** The size of the result *)

Lemma palette_output_at_most_5 (palette : Palette) :
  (List.length (palette_output palette) <= 5)%nat.
Proof.
  unfold palette_output. rewrite length_map, length_firstn.
  destruct (List.length (colors palette) <? 5)%nat; lia.
Qed.

(** C10: whatever the image and the parameters, [max_colors] included, a
    result of [extract_colors] has at most 5 hex strings. *)
Theorem extract_colors_at_most_5 (distance : RawColor -> RawColor -> float)
    (items : dict Z -> dict Z) (im : Image) (min_saturation min_distance : float)
    (max_colors : Z) (min_prominence : float) (out : list string) :
  extract_colors distance items im min_saturation min_distance max_colors
    min_prominence = Ok out ->
  (List.length out <= 5)%nat.
Proof.
  unfold extract_colors.
  destruct (extract_palette _ _ _ _ _ _ _) as [palette | e]; cbn [bind];
    [| discriminate].
  intros [= <-]. apply palette_output_at_most_5.
Qed.

Lemma extract_colors_at_most_5_witness :
  extract_colors manhattan_distance insertion_order nine_colours
    MIN_SATURATION MIN_DISTANCE 10 MIN_PROMINENCE =
  Ok ["c80000"; "00c800"; "0000c8"; "c8c800"; "00c8c8"]%string /\
  (List.length ["c80000"; "00c800"; "0000c8"; "c8c800"; "00c8c8"]%string <= 5)%nat.
Proof.
  assert (E : extract_colors manhattan_distance insertion_order nine_colours
                MIN_SATURATION MIN_DISTANCE 10 MIN_PROMINENCE =
              Ok ["c80000"; "00c800"; "0000c8"; "c8c800"; "00c8c8"]%string)
    by (vm_compute; reflexivity).
  split; [exact E |].
  exact (extract_colors_at_most_5 manhattan_distance insertion_order nine_colours
           MIN_SATURATION MIN_DISTANCE 10 MIN_PROMINENCE _ E).
Defined.

(** ** The pipeline returns *)


Lemma total_perm (d d' : dict Z) : Permutation d d' -> total d = total d'.
Proof.
  unfold total. induction 1; cbn [map fold_right]; lia.
Qed.

Lemma total_setitem (k : RawColor) (v : Z) (d : dict Z) :
  total (setitem k v d) = total d - count_of k d + v.
Proof.
  unfold total, count_of.
  induction d as [| [k' v'] d IH]; cbn [setitem lookup map fold_right snd].
  - lia.
  - destruct (RawColor_eqb k k'); cbn [map fold_right snd]; lia.
Qed.

Lemma total_add_count (k : RawColor) (n : Z) (d : dict Z) :
  total (add_count k n d) = total d + n.
Proof. unfold add_count. rewrite total_setitem. lia. Qed.

Lemma count_of_new (k : RawColor) (d : dict Z) : mem k d = false -> count_of k d = 0.
Proof. unfold mem, count_of. destruct (lookup k d); [discriminate | reflexivity]. Qed.

Lemma In_setitem {V : Type} (k : RawColor) (v : V) (d : dict V) (e : RawColor * V) :
  In e (setitem k v d) -> In e d \/ snd e = v.
Proof.
  induction d as [| [k' v'] d IH]; cbn [setitem In].
  - intros [<- | []]. right. reflexivity.
  - destruct (RawColor_eqb k k'); cbn [In].
    + intros [<- | H]; [right; reflexivity | left; right; exact H].
    + intros [<- | H]; [left; left; reflexivity |].
      destruct (IH H); [left; right; assumption | right; assumption].
Qed.

Lemma count_of_nonneg (k : RawColor) (d : dict Z) : nonneg d -> 0 <= count_of k d.
Proof.
  unfold nonneg, count_of. induction d as [| [k' v'] d IH]; intros H; cbn [lookup].
  - lia.
  - destruct (RawColor_eqb k k').
    + apply (H (k', v')). left. reflexivity.
    + apply IH. intros e He. apply H. right. exact He.
Qed.

Lemma nonneg_add_count (k : RawColor) (n : Z) (d : dict Z) :
  0 <= n -> nonneg d -> nonneg (add_count k n d).
Proof.
  intros Hn Hd e He. apply In_setitem in He as [He | ->]; [apply Hd, He |].
  pose proof (count_of_nonneg k d Hd). lia.
Qed.

Lemma nonneg_setitem (k : RawColor) (n : Z) (d : dict Z) :
  0 <= n -> nonneg d -> nonneg (setitem k n d).
Proof.
  intros Hn Hd e He. apply In_setitem in He as [He | ->]; [apply Hd, He | exact Hn].
Qed.

Lemma nonneg_le_total (d : dict Z) (e : RawColor * Z) :
  nonneg d -> In e d -> snd e <= total d.
Proof.
  unfold nonneg, total. induction d as [| e' d IH]; intros H Hin;
    [destruct Hin |]. destruct Hin as [<- | He]; cbn [map fold_right].
  - assert (0 <= fold_right Z.add 0 (map snd d)); [| lia].
    clear IH. induction d as [| e'' d IH]; cbn [map fold_right]; [lia |].
    pose proof (H e'' (or_intror (or_introl eq_refl))).
    assert (0 <= fold_right Z.add 0 (map snd d)); [| lia].
    apply IH. intros x [<- | Hx]; apply H; [left | right; right]; auto.
  - pose proof (H e' (or_introl eq_refl)).
    assert (snd e <= fold_right Z.add 0 (map snd d)); [| lia].
    apply IH; [| exact He]. intros x Hx. apply H. right. exact Hx.
Qed.

Lemma Counter_fold_total (xs : list RawColor) :
  forall cnt,
    nonneg cnt ->
    let cnt' := fold_left (fun cnt x => add_count x 1 cnt) xs cnt in
    nonneg cnt' /\ total cnt' = total cnt + Z.of_nat (List.length xs).
Proof.
  induction xs as [| x xs IH]; intros cnt Hc; cbn [fold_left List.length].
  - split; [exact Hc | lia].
  - destruct (IH (add_count x 1 cnt)) as [H1 H2].
    { apply nonneg_add_count; [lia | exact Hc]. }
    split; [exact H1 |]. rewrite H2, total_add_count. lia.
Qed.

Lemma Counter_total (xs : list RawColor) :
  nonneg (Counter xs) /\ total (Counter xs) = Z.of_nat (List.length xs).
Proof.
  destruct (Counter_fold_total xs []) as [H1 H2]; [intros e [] |].
  split; [exact H1 | exact H2].
Qed.

Section Totality.
Variable distance : RawColor -> RawColor -> float.
Variable items : dict Z -> dict Z.
Hypothesis items_perm : forall d, Permutation (items d) d.

Lemma aggregate_step_counts (min_distance : float) (st st' : dict Z * dict RawColor)
    (entry : RawColor * Z) :
  aggregate_step distance items min_distance st entry = Ok st' ->
  0 <= snd entry -> nonneg (fst st) ->
  nonneg (fst st') /\
  total (fst st') = total (fst st) + snd entry /\
  forall k, In k (keys (fst st')) -> In k (keys (fst st)) \/ k = fst entry.
Proof.
  destruct st as [agg tc], entry as [c n]. cbn [fst snd]. unfold aggregate_step.
  destruct (mem c agg) eqn:Ec.
  - intros [= <-] Hn Hagg. cbn [fst].
    split; [apply nonneg_add_count; assumption |].
    split; [apply total_add_count |].
    intros k. rewrite keys_add_count by exact Ec. auto.
  - destruct (nearest_canonical distance c (keys (items agg)))
      as [[d k] |] eqn:E; [| discriminate].
    cbn [bind]. apply py_min_In, in_map_iff in E.
    destruct E as (alt & [= <- <-] & Hin).
    apply (proj1 (In_keys_items items items_perm _ _)) in Hin.
    destruct (PrimFloat.ltb _ _); intros [= <-] Hn Hagg; cbn [fst].
    + split; [apply nonneg_add_count; assumption |].
      split; [apply total_add_count |].
      intros k. rewrite keys_add_count by (apply mem_keys, Hin). auto.
    + split; [apply nonneg_setitem; assumption |].
      split; [rewrite total_setitem, count_of_new by exact Ec; lia |].
      intros k. rewrite keys_setitem_new by exact Ec.
      intros H. apply in_app_or in H as [H | [<- | []]]; auto.
Qed.

Lemma aggregate_loop_counts (min_distance : float) (cols : list (RawColor * Z)) :
  forall st st',
    aggregate_loop distance items min_distance cols st = Ok st' ->
    nonneg cols -> nonneg (fst st) ->
    nonneg (fst st') /\
    total (fst st') = total (fst st) + total cols /\
    forall k, In k (keys (fst st')) -> In k (keys (fst st)) \/ In k (keys cols).
Proof.
  induction cols as [| entry rest IH]; intros st st'; cbn [aggregate_loop].
  - intros [= <-] _ Hst. split; [exact Hst |]. split; [cbn; lia | auto].
  - destruct (aggregate_step distance items min_distance st entry)
      as [st1 |] eqn:E1; [| discriminate].
    cbn [bind]. intros E2 Hcols Hst.
    destruct (aggregate_step_counts _ _ _ _ E1) as (N1 & T1 & K1);
      [apply Hcols; left; reflexivity | exact Hst |].
    destruct (IH _ _ E2) as (N2 & T2 & K2);
      [intros e He; apply Hcols; right; exact He | exact N1 |].
    split; [exact N2 |]. split.
    + rewrite T2, T1. unfold total. cbn [map fold_right]. lia.
    + intros k Hk. cbn [keys map].
      destruct (K2 k Hk) as [H | H]; [| right; right; exact H].
      destruct (K1 k H) as [H' | ->]; [left; exact H' | right; left; reflexivity].
Qed.

Lemma mapM_total {A B : Type} (f : A -> result B) (g : A -> B) (l : list A) :
  (forall x, In x l -> f x = Ok (g x)) -> mapM f l = Ok (map g l).
Proof.
  induction l as [| x xs IH]; intros H; cbn [mapM map]; [reflexivity |].
  rewrite (H x (or_introl eq_refl)), IH by (intros; apply H; right; assumption).
  reflexivity.
Qed.

Lemma py_float_small (n : Z) :
  0 <= n < 2 ^ 53 -> py_float n = Ok (float_of_Z n).
Proof.
  intros [H0 H1]. destruct (Z.eq_dec n 0) as [-> | Hne]; [reflexivity |].
  destruct (float_of_Z_finite n ltac:(lia)) as (m & e & Hf).
  destruct (float_finite_nonzero _ _ _ _ Hf) as [_ Hi].
  unfold py_float. rewrite Hi. reflexivity.
Qed.

(** Ranking returns the canonical colours, each once. *)
Lemma rank_total (aggregated : dict Z) (n_pixels : Z) :
  0 < n_pixels < 2 ^ 53 ->
  (forall e, In e aggregated -> 0 <= snd e <= n_pixels) ->
  exists ranked,
    rank items aggregated n_pixels = Ok ranked /\
    Permutation (map value ranked) (keys aggregated).
Proof.
  intros Hn Hagg. unfold rank.
  destruct (float_of_Z_finite n_pixels Hn) as (m & e & Hf).
  destruct (float_finite_nonzero _ _ _ _ Hf) as [Hz _].
  rewrite (mapM_total _ (fun e => mkColor (fst e)
                           (float_of_Z (snd e) / float_of_Z n_pixels)%float)).
  - cbn [bind]. eexists. split; [reflexivity |].
    rewrite sorted_reverse_perm, map_map. cbn [value].
    apply keys_items, items_perm.
  - intros [c n] Hin. apply (Permutation_in _ (items_perm _)) in Hin.
    specialize (Hagg _ Hin). cbn [fst snd] in *.
    rewrite !py_float_small by lia. cbn [bind].
    unfold float_div. rewrite Hz. reflexivity.
Qed.

Lemma filter_unique (cs : list Color) (k : RawColor) :
  NoDup (map value cs) -> In k (map value cs) ->
  exists c, filter (fun c => RawColor_eqb (value c) k) cs = [c].
Proof.
  induction cs as [| c cs IH]; intros Hnd Hin; [destruct Hin |].
  cbn [map] in Hnd. inversion Hnd as [| ? ? Hnotin Hnd']; subst.
  cbn [filter]. destruct (RawColor_eqb (value c) k) eqn:E.
  - apply RawColor_eqb_eq in E. exists c. f_equal.
    clear IH Hin Hnd. induction cs as [| c' cs IH]; [reflexivity |].
    cbn [filter]. destruct (RawColor_eqb (value c') k) eqn:E'.
    + apply RawColor_eqb_eq in E'. exfalso. apply Hnotin. left. congruence.
    + apply IH.
      * intros H. apply Hnotin. right. exact H.
      * inversion Hnd'. assumption.
  - apply RawColor_eqb_neq in E. destruct Hin as [Hin | Hin]; [congruence |].
    apply IH; assumption.
Qed.

Lemma detect_background_total (im : Image) (ranked : list Color)
    (to_canonical : dict RawColor) :
  well_formed im -> ranked <> [] -> NoDup (map value ranked) ->
  (forall c, In c (getdata im) ->
     exists k, lookup c to_canonical = Some k /\ In k (map value ranked)) ->
  exists fg bg,
    detect_background items im ranked to_canonical = Ok (fg, bg) /\
    (forall c, In c fg -> In c ranked) /\
    (forall c, bg = Some c -> In c ranked) /\
    (List.length ranked <= S (List.length fg))%nat.
Proof.
  intros Hwf Hne Hnd Hmap. destruct ranked as [| c0 rest]; [congruence |].
  unfold detect_background.
  destruct (PrimFloat.leb BACKGROUND_PROMINENCE (prominence c0)).
  - exists rest, (Some c0). split; [reflexivity |]. split; [intros; right; assumption |].
    split; [intros c [= <-]; left; reflexivity | cbn; lia].
  - destruct (border_samples im Hwf) as (samples & Es & Hlen & Hdata).
    rewrite Es. cbn [bind].
    destruct (most_common_1_spec items items_perm samples)
      as (majority & Em & Hin & _).
    { intros ->. discriminate. }
    rewrite Em. cbn [unpack_1 bind].
    destruct (3 <=? occurrences majority samples).
    + destruct (Hmap majority (Hdata _ Hin)) as (k & Hk & Hkin).
      unfold getitem. rewrite Hk. cbn [bind].
      destruct (filter_unique (c0 :: rest) k Hnd Hkin) as (bg & Hbg).
      rewrite Hbg. cbn [unpack_1 bind]. eexists _, _. split; [reflexivity |].
      split; [intros c Hc; apply filter_In in Hc; tauto |].
      split.
      * intros c [= <-].
        assert (H : In bg (filter (fun c => RawColor_eqb (value c) k) (c0 :: rest)))
          by (rewrite Hbg; left; reflexivity).
        apply filter_In in H. tauto.
      * pose proof (filter_length (fun c => RawColor_eqb (value c) k) (c0 :: rest)) as L.
        rewrite Hbg in L. cbn [List.length] in L |- *.
        set (f := fun c => negb (RawColor_eqb (value c) k)) in *.
        cbv beta in L. lia.
    + exists (c0 :: rest), None. split; [reflexivity |].
      split; [auto |]. split; [discriminate | lia].
Qed.

Lemma saturation_filter_total (fg : list Color) (min_saturation : float) :
  (forall c, In c fg -> valid_color (value c)) ->
  exists out, saturation_filter fg min_saturation = Ok out.
Proof.
  intros V. unfold saturation_filter.
  destruct (filterM_total (fun c => meets_min_saturation c min_saturation) fg)
    as (sat & -> & _).
  { intros c Hc. apply meets_min_saturation_total, V, Hc. }
  cbn [bind]. destruct sat; eauto.
Qed.

(** On a well-formed image of byte channels with fewer than 2^53 pixels
    [extract_colors] raises nothing, whatever the parameters. *)
Lemma extract_colors_total (im : Image) (min_saturation min_distance : float)
    (max_colors : Z) (min_prominence : float) :
  well_formed im -> width im * height im < 2 ^ 53 ->
  Forall valid_color (getdata im) ->
  exists out,
    extract_colors distance items im min_saturation min_distance max_colors
      min_prominence = Ok out.
Proof.
  intros Hwf Hsmall Hvalid. pose proof Hwf as (Hw & Hh & Hlen).
  rewrite Forall_forall in Hvalid.
  set (dist := Counter (getdata im)).
  destruct (Counter_spec (getdata im)) as (_ & _ & Hkeys).
  destruct (Counter_total (getdata im)) as (Hnn & Htot). fold dist in Hkeys, Hnn, Htot.
  destruct (aggregate_inv distance items items_perm dist min_distance)
    as (agg & tc & Eagg & (Hnd & HW & _ & _ & Hval) & Hmem).
  cbn [fst snd] in *.
  pose proof Eagg as Eloop. unfold aggregate in Eloop.
  apply aggregate_loop_counts in Eloop as (Hnn' & Htot' & Hkeys').
  2: { intros e He. apply Hnn.
       eapply Permutation_in; [| exact He].
       etransitivity; [apply sorted_reverse_perm | apply items_perm]. }
  2: { intros e [<- | [<- | []]]; cbn; lia. }
  cbn [fst] in *.
  rewrite (total_perm (sorted_reverse count_ltb (items dist)) dist) in Htot'
    by (etransitivity; [apply sorted_reverse_perm | apply items_perm]).
  change (total [(WHITE, 0); (BLACK, 0)]) with 0 in Htot'.
  assert (Hcols : forall k, In k (keys agg) -> valid_color k).
  { intros k Hk. destruct (Hkeys' k Hk) as [H | H].
    - destruct H as [<- | [<- | []]]; cbn; unfold channel; lia.
    - apply Hvalid, Hkeys.
      eapply Permutation_in; [| exact H]. apply Permutation_map.
      etransitivity; [apply sorted_reverse_perm | apply items_perm]. }
  destruct (rank_total agg (width im * height im)) as (ranked & Erank & Hperm);
    [lia | |].
  { intros e He. split; [apply Hnn', He |].
    pose proof (nonneg_le_total agg e Hnn' He). lia. }
  destruct (detect_background_total im ranked tc Hwf)
    as (fg & bg & Ebg & Hfg & Hbg & _).
  { intros ->. apply Permutation_nil in Hperm. rewrite Hperm in HW. destruct HW. }
  { eapply Permutation_NoDup; [symmetry; exact Hperm | exact Hnd]. }
  { intros c Hc. apply Hkeys, Hmem in Hc. unfold mem in Hc.
    destruct (lookup c tc) as [k |] eqn:Ek; [| discriminate].
    exists k. split; [reflexivity |].
    eapply Permutation_in; [symmetry; exact Hperm | eapply Hval, Ek]. }
  assert (Hranked : forall c, In c ranked -> valid_color (value c)).
  { intros c Hc. apply Hcols. eapply Permutation_in; [exact Hperm |].
    apply in_map, Hc. }
  destruct (saturation_filter_total fg min_saturation) as (sat & Esat).
  { intros c Hc. apply Hranked, Hfg, Hc. }
  assert (Ebf : exists bg', background_filter bg min_saturation = Ok bg').
  { unfold background_filter. destruct bg as [b |]; [| eauto].
    destruct (meets_min_saturation_total b min_saturation) as (ok & ->);
      [apply Hranked, Hbg; reflexivity |].
    cbn [bind]. eauto. }
  destruct Ebf as (bg' & Ebf).
  unfold extract_colors, extract_palette. fold dist.
  rewrite Eagg. cbn [bind]. rewrite Erank. cbn [bind]. rewrite Ebg. cbn [bind].
  rewrite Esat. cbn [bind]. rewrite Ebf. cbn [bind]. eauto.
Qed.

End Totality.

(** * Further properties of the code *)

(** ** Hex strings, both directions *)


Lemma channel_lower_hex_all (n : Z) : channel n -> channel_lower_hex n = true.
Proof. apply forallb_channels. vm_compute. reflexivity. Qed.

Lemma string_forall_app (p : ascii -> bool) (s t : string) :
  string_forall p (s ++ t) = string_forall p s && string_forall p t.
Proof.
  unfold string_forall. induction s as [| ch s IH]; cbn; [reflexivity |].
  rewrite IH. apply andb_assoc.
Qed.

Lemma string_length_app (s t : string) :
  String.length (s ++ t) = (String.length s + String.length t)%nat.
Proof. induction s as [| ch s IH]; cbn; [reflexivity | rewrite IH; reflexivity]. Qed.

(** X1: the hex string of a colour with channels in [0,255] has exactly six
    characters, each a digit or a lowercase letter [a]-[f]; there is no [#]. *)
Theorem rgb_to_hex_format (c : RawColor) :
  valid_color c ->
  String.length (rgb_to_hex c) = 6%nat /\
  string_forall is_lower_hex (rgb_to_hex c) = true.
Proof.
  destruct c as [[r g] b]. intros (Hr & Hg & Hb).
  apply channel_lower_hex_all in Hr, Hg, Hb. unfold channel_lower_hex in *.
  apply andb_true_iff in Hr as [Lr Fr], Hg as [Lg Fg], Hb as [Lb Fb].
  apply Nat.eqb_eq in Lr, Lg, Lb.
  unfold rgb_to_hex. rewrite !string_length_app, !string_forall_app.
  rewrite Lr, Lg, Lb, Fr, Fg, Fb. split; reflexivity.
Qed.

Lemma rgb_to_hex_format_witness :
  valid_color (255, 165, 0) /\
  String.length (rgb_to_hex (255, 165, 0)) = 6%nat /\
  string_forall is_lower_hex (rgb_to_hex (255, 165, 0)) = true.
Proof.
  assert (V : valid_color (255, 165, 0)) by (unfold valid_color, channel; lia).
  split; [exact V | exact (rgb_to_hex_format (255, 165, 0) V)].
Defined.

Lemma existsb_eqb_In (ch : ascii) (l : list ascii) :
  existsb (Ascii.eqb ch) l = true -> In ch l.
Proof.
  intros H. apply existsb_exists in H as (x & Hx & E).
  apply Ascii.eqb_eq in E. subst. exact Hx.
Qed.

Lemma hex_pair_ok_all (a b : ascii) :
  is_hex a = true -> is_hex b = true -> hex_pair_ok a b = true.
Proof.
  intros Ha%existsb_eqb_In Hb%existsb_eqb_In.
  assert (H : forallb (fun a => forallb (hex_pair_ok a) hex_digit_chars)
                      hex_digit_chars = true) by (vm_compute; reflexivity).
  rewrite forallb_forall in H. specialize (H a Ha).
  rewrite forallb_forall in H. exact (H b Hb).
Qed.

Lemma hex_pair_decode (a b : ascii) :
  is_hex a = true -> is_hex b = true ->
  exists n, int16 (String a (String b EmptyString)) = Ok n /\ channel n /\
            fmt_02x n = String (to_lower a) (String (to_lower b) EmptyString).
Proof.
  intros Ha Hb. pose proof (hex_pair_ok_all a b Ha Hb) as H.
  unfold hex_pair_ok in H.
  destruct (int16 _) as [n |]; [| discriminate].
  apply andb_true_iff in H as [H Hs]. apply andb_true_iff in H as [H0 H1].
  exists n. split; [reflexivity |]. split.
  - unfold channel. lia.
  - apply String.eqb_eq, Hs.
Qed.

(** X2: decoding then encoding normalises the case.  For six hex digits [s] of
    either case, [hex_to_rgb('#' + s)] is a colour with channels in [0,255]
    and [rgb_to_hex] of it is [s] in lowercase. *)
Theorem hex_to_rgb_then_rgb_to_hex (s : string) :
  String.length s = 6%nat -> string_forall is_hex s = true ->
  exists c, hex_to_rgb (String "#" s) = Ok c /\ valid_color c /\
            rgb_to_hex c = lowercase s.
Proof.
  intros Hlen Hhex.
  destruct s as [| a1 [| a2 [| a3 [| a4 [| a5 [| a6 [| ? ?]]]]]]]; try discriminate.
  unfold string_forall in Hhex. cbn [list_ascii_of_string forallb] in Hhex.
  repeat (apply andb_true_iff in Hhex as [? Hhex]).
  destruct (hex_pair_decode a1 a2) as (r & Er & Hr & Fr); [assumption .. |].
  destruct (hex_pair_decode a3 a4) as (g & Eg & Hg & Fg); [assumption .. |].
  destruct (hex_pair_decode a5 a6) as (b & Eb & Hb & Fb); [assumption .. |].
  exists (r, g, b). split; [| split].
  - unfold hex_to_rgb. cbn [String.prefix String.length Nat.eqb substring].
    cbn [andb negb]. rewrite Er. cbn [bind]. rewrite Eg. cbn [bind]. rewrite Eb.
    reflexivity.
  - cbn. auto.
  - unfold rgb_to_hex. rewrite Fr, Fg, Fb. reflexivity.
Qed.

Lemma hex_to_rgb_then_rgb_to_hex_witness :
  exists c, hex_to_rgb "#FFa500" = Ok c /\ valid_color c /\
            rgb_to_hex c = lowercase "FFa500".
Proof.
  apply (hex_to_rgb_then_rgb_to_hex "FFa500"); reflexivity.
Defined.

Lemma In_all_ascii (a : ascii) : In a all_ascii.
Proof.
  unfold all_ascii. apply in_map_iff. exists (nat_of_ascii a).
  split; [apply ascii_nat_embedding |].
  apply in_seq. pose proof (nat_ascii_bounded a). lia.
Qed.

Lemma any_pair_ok_all (a b : ascii) : any_pair_ok a b = true.
Proof.
  assert (H : forallb (fun a => forallb (any_pair_ok a) all_ascii) all_ascii = true)
    by (vm_compute; reflexivity).
  rewrite forallb_forall in H. specialize (H a (In_all_ascii a)).
  rewrite forallb_forall in H. exact (H b (In_all_ascii b)).
Qed.

Lemma int16_pair (a b : ascii) :
  match int16 (String a (String b EmptyString)) with
  | Ok n => -15 <= n <= 255
  | Raise e => e = ValueError
  end.
Proof.
  pose proof (any_pair_ok_all a b) as H. unfold any_pair_ok in H.
  destruct (int16 _) as [n | e].
  - apply andb_true_iff in H as [H0 H1]. lia.
  - destruct e; try discriminate. reflexivity.
Qed.

(** X3: [hex_to_rgb] returns only for a string of seven characters that
    starts with [#]; the channels it returns are never above 255 and never
    below -15 (a slot such as [-f] is read as a negative number); the only
    exceptions it raises are [AssertionError] and [ValueError]. *)
Theorem hex_to_rgb_outcomes (s : string) :
  match hex_to_rgb s with
  | Ok (r, g, b) =>
      String.length s = 7%nat /\ String.prefix "#" s = true /\
      -15 <= r <= 255 /\ -15 <= g <= 255 /\ -15 <= b <= 255
  | Raise e => e = AssertionError \/ e = ValueError
  end.
Proof.
  unfold hex_to_rgb.
  destruct (String.prefix "#" s) eqn:Hp; cbn [andb negb]; [| left; reflexivity].
  destruct (String.length s =? 7)%nat eqn:Hl; cbn [negb]; [| left; reflexivity].
  apply Nat.eqb_eq in Hl.
  destruct s as [| a0 [| a1 [| a2 [| a3 [| a4 [| a5 [| a6 [| ? ?]]]]]]]];
    try discriminate.
  cbn [substring].
  pose proof (int16_pair a1 a2) as H1. pose proof (int16_pair a3 a4) as H2.
  pose proof (int16_pair a5 a6) as H3.
  destruct (int16 (String a1 _)) as [r | e1]; cbn [bind]; [| right; exact H1].
  destruct (int16 (String a3 _)) as [g | e2]; cbn [bind]; [| right; exact H2].
  destruct (int16 (String a5 _)) as [b | e3]; cbn [bind]; [| right; exact H3].
  repeat split; solve [reflexivity | lia].
Qed.

(** ** Normalised channels and saturation *)


Lemma saturation_of_ok_all (hi : Z) : channel hi -> saturation_of_ok hi = true.
Proof. apply forallb_channels. vm_compute. reflexivity. Qed.

Lemma saturation_of_facts (hi lo : Z) :
  channel hi -> channel lo -> lo <= hi ->
  in_unit (saturation_of hi lo) = true /\
  PrimFloat.eqb (saturation_of hi lo) 0 = (lo =? hi) /\
  PrimFloat.eqb (saturation_of hi lo) 1 = ((lo =? 0) && (0 <? hi)).
Proof.
  intros Hhi Hlo Hle. apply saturation_of_ok_all in Hhi.
  unfold saturation_of_ok in Hhi. apply andb_true_iff in Hhi as [_ H].
  pose proof (forallb_channels _ H lo Hlo) as H'. cbv beta in H'.
  replace (hi <? lo) with false in H' by (symmetry; apply Z.ltb_ge; lia).
  cbn [orb] in H'. apply andb_true_iff in H' as [H' H1].
  apply andb_true_iff in H' as [Hu H0].
  apply Bool.eqb_prop in H0, H1. auto.
Qed.

(** X4: [norm_color] of a colour with channels in [0,255] raises nothing and
    gives three floats between [0.0] and [1.0]. *)
Theorem norm_color_unit_range (c : RawColor) :
  valid_color c ->
  exists r g b, norm_color c = Ok (r, g, b) /\
                in_unit r = true /\ in_unit g = true /\ in_unit b = true.
Proof.
  destruct c as [[r g] b]. intros (Hr & Hg & Hb).
  unfold norm_color. rewrite !py_float_channel by assumption. cbn [bind].
  eexists _, _, _. split; [reflexivity |].
  pose proof (saturation_of_ok_all r Hr) as Ur.
  pose proof (saturation_of_ok_all g Hg) as Ug.
  pose proof (saturation_of_ok_all b Hb) as Ub.
  unfold saturation_of_ok in Ur, Ug, Ub.
  apply andb_true_iff in Ur as [Ur _], Ug as [Ug _], Ub as [Ub _].
  auto.
Qed.

Lemma norm_color_unit_range_witness :
  valid_color (255, 165, 0) /\
  exists r g b, norm_color (255, 165, 0) = Ok (r, g, b) /\
                in_unit r = true /\ in_unit g = true /\ in_unit b = true.
Proof.
  assert (V : valid_color (255, 165, 0)) by (unfold valid_color, channel; lia).
  split; [exact V | exact (norm_color_unit_range (255, 165, 0) V)].
Defined.

(** On the colours of an image the saturation test compares the threshold
    with [saturation_of] of the largest and the smallest channel. *)
Lemma meets_min_saturation_channels (r g b : Z) (p threshold : float) :
  channel r -> channel g -> channel b ->
  meets_min_saturation (mkColor (r, g, b) p) threshold =
  Ok (PrimFloat.ltb threshold
        (saturation_of (Z.max (Z.max r g) b) (Z.min (Z.min r g) b))).
Proof.
  intros Hr Hg Hb. unfold meets_min_saturation, norm_color. cbn [value].
  rewrite !py_float_channel by assumption. cbn [bind].
  change (float_of_Z r / 255.0)%float with (unit_channel r).
  change (float_of_Z g / 255.0)%float with (unit_channel g).
  change (float_of_Z b / 255.0)%float with (unit_channel b).
  unfold hsv_saturation.
  assert (Hmax : channel (Z.max r g)) by (unfold channel in *; lia).
  assert (Hmin : channel (Z.min r g)) by (unfold channel in *; lia).
  rewrite !fmax_channel, !fmin_channel by assumption.
  set (hi := Z.max (Z.max r g) b). set (lo := Z.min (Z.min r g) b).
  assert (Hhi : channel hi) by (unfold channel, hi in *; lia).
  assert (Hlo : channel lo) by (unfold channel, lo in *; lia).
  destruct (unit_channel_cmp lo hi Hlo Hhi) as [_ ->].
  unfold saturation_of. destruct (Z.eqb_spec lo hi) as [E | E]; [reflexivity |].
  unfold float_div.
  assert (H0 : channel 0) by (unfold channel; lia).
  destruct (unit_channel_cmp hi 0 Hhi H0) as [_ Hz].
  change (unit_channel 0) with 0%float in Hz. rewrite Hz.
  destruct (Z.eqb_spec hi 0) as [E0 | E0]; [| reflexivity].
  exfalso. unfold channel, hi, lo in *. lia.
Qed.

(** X5: a gray (all three channels equal, white and black included) has
    saturation [0.0]: it meets the minimum saturation only for a negative
    threshold, and never for the default [MIN_SATURATION]. *)
Theorem gray_never_saturated (n : Z) (p threshold : float) :
  channel n ->
  meets_min_saturation (mkColor (n, n, n) p) threshold =
    Ok (PrimFloat.ltb threshold 0) /\
  meets_min_saturation (mkColor (n, n, n) p) MIN_SATURATION = Ok false.
Proof.
  intros Hn. rewrite !meets_min_saturation_channels by assumption.
  rewrite !Z.max_id, !Z.min_id. unfold saturation_of. rewrite Z.eqb_refl.
  split; reflexivity.
Qed.

Lemma gray_never_saturated_witness :
  channel 128 /\
  meets_min_saturation (mkColor (128, 128, 128) 0.5) 0.2 =
    Ok (PrimFloat.ltb 0.2 0) /\
  meets_min_saturation (mkColor (128, 128, 128) 0.5) MIN_SATURATION = Ok false.
Proof.
  assert (C : channel 128) by (unfold channel; lia).
  split; [exact C | exact (gray_never_saturated 128 0.5 0.2 C)].
Defined.

Lemma float_leb_rank (x y : float) :
  PrimFloat.is_nan x = false -> PrimFloat.is_nan y = false ->
  (PrimFloat.leb x y = true <->
   lex_lt (float_rank x) (float_rank y) \/ float_rank x = float_rank y).
Proof.
  intros Hx%not_nan_spec Hy%not_nan_spec.
  rewrite FloatAxioms.leb_spec. unfold SFleb, float_rank.
  destruct (SFcompare_rank _ _ Hx Hy) as [<- <-].
  destruct (SFcompare (Prim2SF x) (Prim2SF y)) as [[| |] |];
    split; try tauto; try congruence; intros [H | H]; congruence.
Qed.

Lemma leb_not_nan (x y : float) :
  PrimFloat.leb x y = true ->
  PrimFloat.is_nan x = false /\ PrimFloat.is_nan y = false.
Proof.
  rewrite FloatAxioms.leb_spec. unfold SFleb, PrimFloat.is_nan.
  rewrite !FloatAxioms.eqb_spec. unfold SFeqb.
  destruct (Prim2SF x) as [? | ? | | ? ? ?], (Prim2SF y) as [? | ? | | ? ? ?];
    cbn [SFcompare]; try discriminate; intros _; split;
    try reflexivity;
    repeat match goal with
    | b : bool |- _ => destruct b
    end; cbn; rewrite ?Z.compare_refl, ?Pos.compare_cont_refl; reflexivity.
Qed.

Lemma ltb_not_nan (x y : float) :
  PrimFloat.ltb x y = true ->
  PrimFloat.is_nan x = false /\ PrimFloat.is_nan y = false.
Proof.
  rewrite FloatAxioms.ltb_spec. unfold SFltb, PrimFloat.is_nan.
  rewrite !FloatAxioms.eqb_spec. unfold SFeqb.
  destruct (Prim2SF x) as [? | ? | | ? ? ?], (Prim2SF y) as [? | ? | | ? ? ?];
    cbn [SFcompare]; try discriminate; intros _; split;
    try reflexivity;
    repeat match goal with
    | b : bool |- _ => destruct b
    end; cbn; rewrite ?Z.compare_refl, ?Pos.compare_cont_refl; reflexivity.
Qed.

(** [y <= z] and [x < y] give [x < z]; [x <= y] and [y < z] likewise. *)
Lemma float_lt_le_trans (x y z : float) :
  PrimFloat.ltb x y = true -> PrimFloat.leb y z = true -> PrimFloat.ltb x z = true.
Proof.
  intros Hxy Hyz.
  destruct (ltb_not_nan _ _ Hxy) as [Nx Ny]. destruct (leb_not_nan _ _ Hyz) as [_ Nz].
  apply (float_ltb_rank x y Nx Ny) in Hxy. apply (float_leb_rank y z Ny Nz) in Hyz.
  apply (float_ltb_rank x z Nx Nz).
  destruct Hyz as [H | <-]; [eapply lex_lt_trans; eassumption | exact Hxy].
Qed.

Lemma float_le_lt_trans (x y z : float) :
  PrimFloat.leb x y = true -> PrimFloat.ltb y z = true -> PrimFloat.ltb x z = true.
Proof.
  intros Hxy Hyz.
  destruct (leb_not_nan _ _ Hxy) as [Nx Ny]. destruct (ltb_not_nan _ _ Hyz) as [_ Nz].
  apply (float_leb_rank x y Nx Ny) in Hxy. apply (float_ltb_rank y z Ny Nz) in Hyz.
  apply (float_ltb_rank x z Nx Nz).
  destruct Hxy as [H | ->]; [eapply lex_lt_trans; eassumption | exact Hyz].
Qed.

Lemma float_ltb_irrefl (x : float) : PrimFloat.ltb x x = false.
Proof.
  destruct (PrimFloat.ltb x x) eqn:E; [| reflexivity].
  destruct (ltb_not_nan _ _ E) as [N _].
  apply (float_ltb_rank x x N N) in E. exfalso. eapply lex_lt_irrefl, E.
Qed.

(** X6: the saturation of a colour with channels in [0,255] lies between 0
    and 1, so a threshold of [1.0] or more is met by no colour and a negative
    threshold by every colour. *)
Theorem meets_min_saturation_extremes (c : Color) (threshold : float) :
  valid_color (value c) ->
  (PrimFloat.leb 1 threshold = true ->
   meets_min_saturation c threshold = Ok false) /\
  (PrimFloat.ltb threshold 0 = true ->
   meets_min_saturation c threshold = Ok true).
Proof.
  destruct c as [[[r g] b] p]. cbn [value]. intros (Hr & Hg & Hb).
  rewrite meets_min_saturation_channels by assumption.
  set (hi := Z.max (Z.max r g) b). set (lo := Z.min (Z.min r g) b).
  destruct (saturation_of_facts hi lo) as (Hu & _ & _);
    try (unfold channel, hi, lo in *; lia).
  unfold in_unit in Hu. apply andb_true_iff in Hu as [H0 H1]. split.
  - intros Ht. f_equal.
    destruct (PrimFloat.ltb threshold (saturation_of hi lo)) eqn:E; [| reflexivity].
    pose proof (float_lt_le_trans _ _ _ E H1) as E1.
    pose proof (float_le_lt_trans _ _ _ Ht E1) as E2.
    rewrite float_ltb_irrefl in E2. discriminate.
  - intros Ht. f_equal. eapply float_lt_le_trans; eassumption.
Qed.

Lemma meets_min_saturation_extremes_witness :
  valid_color (255, 0, 0) /\
  (PrimFloat.leb 1 1.5 = true ->
   meets_min_saturation (mkColor (255, 0, 0) 0.5) 1.5 = Ok false) /\
  (PrimFloat.ltb 1.5 0 = true ->
   meets_min_saturation (mkColor (255, 0, 0) 0.5) 1.5 = Ok true).
Proof.
  assert (V : valid_color (255, 0, 0)) by (unfold valid_color, channel; lia).
  split; [exact V | exact (meets_min_saturation_extremes (mkColor (255, 0, 0) 0.5) 1.5 V)].
Defined.

(** ** Background detection: what is removed, and the failures *)

Lemma filter_singleton_split {A : Type} (p : A -> bool) (l : list A) (b : A) :
  filter p l = [b] ->
  exists l1 l2, l = l1 ++ b :: l2 /\ filter (fun x => negb (p x)) l = l1 ++ l2.
Proof.
  induction l as [| x xs IH]; cbn [filter]; [discriminate |].
  destruct (p x) eqn:E; cbn [negb].
  - intros [= -> Hxs]. exists [], xs. split; [reflexivity |]. cbn [app].
    clear IH. induction xs as [| y ys IH]; [reflexivity |].
    cbn [filter] in Hxs |- *. destruct (p y); [discriminate |].
    cbn [negb]. f_equal. apply IH, Hxs.
  - intros H. destruct (IH H) as (l1 & l2 & -> & E2).
    exists (x :: l1), l2. split; [reflexivity |]. cbn [app]. f_equal. exact E2.
Qed.

(** X7: when [detect_background] returns a background, the foreground it
    returns is the given list with exactly that one entry taken out, the
    others in their order; when it returns no background the list is returned
    as it is. *)
Theorem detect_background_partition (items : dict Z -> dict Z) (im : Image)
    (colors fg : list Color) (to_canonical : dict RawColor) (bg : option Color) :
  detect_background items im colors to_canonical = Ok (fg, bg) ->
  match bg with
  | Some b => exists l1 l2, colors = l1 ++ b :: l2 /\ fg = l1 ++ l2
  | None => fg = colors
  end.
Proof.
  unfold detect_background. destruct colors as [| c0 rest]; [discriminate |].
  destruct (PrimFloat.leb BACKGROUND_PROMINENCE (prominence c0)).
  - intros [= <- <-]. exists [], rest. split; reflexivity.
  - destruct (mapM (getpixel im) (border_points im)) as [samples |];
      cbn [bind]; [| discriminate].
    destruct (unpack_1 (most_common_1 items (Counter samples)))
      as [[majority_col majority_count] |]; cbn [bind]; [| discriminate].
    destruct (3 <=? majority_count).
    + destruct (getitem to_canonical majority_col) as [cb |]; cbn [bind];
        [| discriminate].
      destruct (filter (fun c => RawColor_eqb (value c) cb) (c0 :: rest))
        as [| b [| ? ?]] eqn:E; cbn [unpack_1 bind]; try discriminate.
      intros [= <- <-]. destruct (filter_singleton_split _ _ _ E) as (l1 & l2 & E1 & E2).
      exists l1, l2. split; [exact E1 | exact E2].
    + intros [= <- <-]. reflexivity.
Qed.

Lemma detect_background_partition_witness :
  exists l1 l2,
    two_sided_ranked = l1 ++ mkColor (0, 0, 200) 0.2 :: l2 /\
    [mkColor (0, 200, 0) 0.24; mkColor (200, 200, 0) 0.24;
     mkColor (0, 200, 200) 0.2; mkColor (200, 0, 0) 0.12;
     mkColor WHITE 0; mkColor BLACK 0] = l1 ++ l2.
Proof.
  apply (detect_background_partition insertion_order two_sided_border
           two_sided_ranked _ two_sided_canonical (Some (mkColor (0, 0, 200) 0.2))).
  vm_compute. reflexivity.
Defined.

Lemma mapM_length {A B : Type} (f : A -> result B) (l : list A) (ys : list B) :
  mapM f l = Ok ys -> List.length ys = List.length l.
Proof.
  revert ys. induction l as [| x xs IH]; intros ys; cbn [mapM].
  - intros [= <-]. reflexivity.
  - destruct (f x); cbn [bind]; [| discriminate].
    destruct (mapM f xs); cbn [bind]; [| discriminate].
    intros [= <-]. cbn [List.length]. f_equal. apply IH. reflexivity.
Qed.

Lemma occurrences_two (a b : RawColor) (xs : list RawColor) :
  a <> b -> occurrences a xs + occurrences b xs <= Z.of_nat (List.length xs).
Proof.
  intros N. unfold occurrences.
  induction xs as [| x xs IH]; cbn [filter List.length]; [lia |].
  destruct (RawColor_eqb a x) eqn:Ea, (RawColor_eqb b x) eqn:Eb;
    cbn [List.length]; try lia.
  apply RawColor_eqb_eq in Ea, Eb. congruence.
Qed.

Section Majority.
Variable items : dict Z -> dict Z.
Hypothesis items_perm : forall d, Permutation (items d) d.

(** A value on five or more of the eight points is what [most_common(1)]
    yields, in whatever order the counter is iterated. *)
Lemma most_common_1_strict (samples : list RawColor) (c : RawColor) :
  List.length samples = 8%nat -> 5 <= occurrences c samples ->
  most_common_1 items (Counter samples) = [(c, occurrences c samples)].
Proof.
  intros Hlen H5.
  destruct (most_common_1_spec items items_perm samples) as (m & Em & _ & Hmax).
  { intros ->. discriminate. }
  destruct (RawColor_eqb m c) eqn:E.
  - apply RawColor_eqb_eq in E. subst m. exact Em.
  - apply RawColor_eqb_neq in E. exfalso.
    pose proof (occurrences_two m c samples E). specialize (Hmax c). lia.
Qed.

(** X8: a raw colour found at five or more of the eight border points decides
    the background whatever the order in which the counter is iterated: the
    foreground colour whose value is its canonical colour is returned as the
    background and removed.  A uniform border is the case of eight. *)
Theorem detect_background_strict_majority (im : Image) (c0 : Color)
    (rest : list Color) (to_canonical : dict RawColor) (samples : list RawColor)
    (c canonical_bg : RawColor) (bg_color : Color) :
  PrimFloat.leb BACKGROUND_PROMINENCE (prominence c0) = false ->
  mapM (getpixel im) (border_points im) = Ok samples ->
  5 <= occurrences c samples ->
  lookup c to_canonical = Some canonical_bg ->
  filter (fun x => RawColor_eqb (value x) canonical_bg) (c0 :: rest) = [bg_color] ->
  detect_background items im (c0 :: rest) to_canonical =
  Ok (filter (fun x => negb (RawColor_eqb (value x) canonical_bg)) (c0 :: rest),
      Some bg_color).
Proof.
  intros Hdom Es H5 Hcb Hbg.
  unfold detect_background. rewrite Hdom, Es. cbn [bind].
  rewrite (most_common_1_strict samples c) by
    (try exact H5; apply mapM_length in Es; exact Es).
  cbn [unpack_1 bind].
  replace (3 <=? occurrences c samples) with true by (symmetry; apply Z.leb_le; lia).
  unfold getitem. rewrite Hcb. cbn [bind]. rewrite Hbg. reflexivity.
Qed.

(** X9: the failures of the border branch.  With the head not dominant, an
    image of no width or no height makes the first read fail with
    [IndexError]; a colour on five or more border points that is missing from
    the canonical map gives [KeyError]; one whose canonical colour is not the
    value of exactly one foreground colour gives [ValueError]. *)
Theorem detect_background_failures (im : Image) (c0 : Color) (rest : list Color)
    (to_canonical : dict RawColor) :
  PrimFloat.leb BACKGROUND_PROMINENCE (prominence c0) = false ->
  (width im <= 0 \/ height im <= 0 ->
   detect_background items im (c0 :: rest) to_canonical = Raise IndexError) /\
  (forall samples c,
     mapM (getpixel im) (border_points im) = Ok samples ->
     5 <= occurrences c samples ->
     (lookup c to_canonical = None ->
      detect_background items im (c0 :: rest) to_canonical = Raise KeyError) /\
     (forall canonical_bg,
        lookup c to_canonical = Some canonical_bg ->
        List.length (filter (fun x => RawColor_eqb (value x) canonical_bg)
                            (c0 :: rest)) <> 1%nat ->
        detect_background items im (c0 :: rest) to_canonical = Raise ValueError)).
Proof.
  intros Hdom. unfold detect_background. rewrite Hdom. split.
  - intros Hsize. unfold border_points. cbn [mapM]. unfold getpixel at 1.
    replace ((0 <=? 0) && (0 <? width im) && (0 <=? 0) && (0 <? height im))
      with false; [reflexivity |].
    symmetry. cbn [Z.leb andb].
    destruct Hsize as [H | H];
      [replace (0 <? width im) with false by (symmetry; apply Z.ltb_ge; lia)
      |replace (0 <? height im) with false by (symmetry; apply Z.ltb_ge; lia)];
      cbn; rewrite ?andb_false_r; reflexivity.
  - intros samples c Es H5. rewrite Es. cbn [bind].
    rewrite (most_common_1_strict samples c) by
      (try exact H5; apply mapM_length in Es; exact Es).
    cbn [unpack_1 bind].
    replace (3 <=? occurrences c samples) with true
      by (symmetry; apply Z.leb_le; lia).
    unfold getitem. split.
    + intros ->. reflexivity.
    + intros cb -> Hlen. cbn [bind].
      destruct (filter _ (c0 :: rest)) as [| b [| ? ?]]; cbn [unpack_1 bind];
        try reflexivity.
      cbn in Hlen. congruence.
Qed.

End Majority.


Lemma detect_background_strict_majority_witness :
  detect_background insertion_order framed
    [mkColor (200, 0, 0) 0.3; mkColor (0, 0, 200) 0.2]
    [((0, 0, 200), (0, 0, 200)); ((200, 0, 0), (200, 0, 0))] =
  Ok (filter (fun x => negb (RawColor_eqb (value x) (0, 0, 200)))
             [mkColor (200, 0, 0) 0.3; mkColor (0, 0, 200) 0.2],
      Some (mkColor (0, 0, 200) 0.2)).
Proof.
  apply (detect_background_strict_majority insertion_order insertion_order_perm
           framed (mkColor (200, 0, 0) 0.3) [mkColor (0, 0, 200) 0.2]
           [((0, 0, 200), (0, 0, 200)); ((200, 0, 0), (200, 0, 0))]
           (repeat (0, 0, 200) 8) (0, 0, 200) (0, 0, 200)
           (mkColor (0, 0, 200) 0.2)); try reflexivity.
  vm_compute. discriminate.
Defined.

Lemma detect_background_failures_witness :
  (width framed <= 0 \/ height framed <= 0 ->
   detect_background insertion_order framed
     [mkColor (200, 0, 0) 0.3; mkColor (0, 0, 200) 0.2]
     [((200, 0, 0), (200, 0, 0))] = Raise IndexError) /\
  (forall samples c,
     mapM (getpixel framed) (border_points framed) = Ok samples ->
     5 <= occurrences c samples ->
     (lookup c [((200, 0, 0), (200, 0, 0))] = None ->
      detect_background insertion_order framed
        [mkColor (200, 0, 0) 0.3; mkColor (0, 0, 200) 0.2]
        [((200, 0, 0), (200, 0, 0))] = Raise KeyError) /\
     (forall canonical_bg,
        lookup c [((200, 0, 0), (200, 0, 0))] = Some canonical_bg ->
        List.length (filter (fun x => RawColor_eqb (value x) canonical_bg)
                       [mkColor (200, 0, 0) 0.3; mkColor (0, 0, 200) 0.2])
          <> 1%nat ->
        detect_background insertion_order framed
          [mkColor (200, 0, 0) 0.3; mkColor (0, 0, 200) 0.2]
          [((200, 0, 0), (200, 0, 0))] = Raise ValueError)).
Proof.
  apply (detect_background_failures insertion_order insertion_order_perm
           framed (mkColor (200, 0, 0) 0.3) [mkColor (0, 0, 200) 0.2]
           [((200, 0, 0), (200, 0, 0))]).
  reflexivity.
Defined.

(** ** Aggregation: counts, the canonical map, the distance between clusters *)


Section Clusters.
Variable distance : RawColor -> RawColor -> float.
Variable items : dict Z -> dict Z.
Hypothesis items_perm : forall d, Permutation (items d) d.

Lemma aggregate_step_total (min_distance : float) (st st' : dict Z * dict RawColor)
    (entry : RawColor * Z) :
  aggregate_step distance items min_distance st entry = Ok st' ->
  total (fst st') = total (fst st) + snd entry.
Proof.
  destruct st as [agg tc], entry as [c n]. cbn [fst snd]. unfold aggregate_step.
  destruct (mem c agg) eqn:Ec.
  - intros [= <-]. apply total_add_count.
  - destruct (nearest_canonical distance c (keys (items agg)))
      as [[d k] |]; [| discriminate].
    cbn [bind]. destruct (PrimFloat.ltb _ _); intros [= <-]; cbn [fst].
    + apply total_add_count.
    + rewrite total_setitem, count_of_new by exact Ec. lia.
Qed.

Lemma aggregate_loop_total (min_distance : float) (cols : list (RawColor * Z)) :
  forall st st',
    aggregate_loop distance items min_distance cols st = Ok st' ->
    total (fst st') = total (fst st) + total cols.
Proof.
  induction cols as [| entry rest IH]; intros st st'; cbn [aggregate_loop].
  - intros [= <-]. cbn. lia.
  - destruct (aggregate_step distance items min_distance st entry)
      as [st1 |] eqn:E1; [| discriminate].
    cbn [bind]. intros E2. rewrite (IH _ _ E2), (aggregate_step_total _ _ _ _ E1).
    unfold total. cbn [map fold_right]. lia.
Qed.

(** X10: aggregation loses no pixel and invents none.  For every histogram
    the aggregator returns, and the counts of its canonical histogram add up
    to the counts of the histogram it was given. *)
Theorem aggregate_conserves_counts (dist : dict Z) (min_distance : float) :
  exists agg tc,
    aggregate distance items dist min_distance = Ok (agg, tc) /\
    total agg = total dist.
Proof.
  destruct (aggregate_inv distance items items_perm dist min_distance)
    as (agg & tc & E & _).
  exists agg, tc. split; [exact E |].
  unfold aggregate in E. apply aggregate_loop_total in E. cbn [fst] in E.
  rewrite E. change (total [(WHITE, 0); (BLACK, 0)]) with 0.
  rewrite (total_perm (sorted_reverse count_ltb (items dist)) dist); [lia |].
  etransitivity; [apply sorted_reverse_perm | apply items_perm].
Qed.

Lemma aggregate_step_canon (min_distance : float) (st st' : dict Z * dict RawColor)
    (entry : RawColor * Z) :
  aggregate_step distance items min_distance st entry = Ok st' ->
  canon_inv distance min_distance st -> canon_inv distance min_distance st'.
Proof.
  destruct st as [agg tc], entry as [c n]. unfold canon_inv. cbn [fst snd].
  unfold aggregate_step. destruct (mem c agg) eqn:Ec.
  - intros [= <-] [Hself Hnear]. cbn [fst snd].
    rewrite keys_add_count by exact Ec. auto.
  - destruct (nearest_canonical distance c (keys (items agg)))
      as [[d k] |] eqn:E; [| discriminate].
    cbn [bind]. apply py_min_In, in_map_iff in E.
    destruct E as (alt & [= <- <-] & Hin).
    apply (proj1 (In_keys_items items items_perm _ _)) in Hin.
    apply mem_false_keys in Ec.
    destruct (PrimFloat.ltb (distance c alt) min_distance) eqn:Ed;
      intros [= <-] [Hself Hnear]; cbn [fst snd].
    + rewrite keys_add_count by (apply mem_keys, Hin). split.
      * intros k Hk. rewrite lookup_setitem_other; [apply Hself, Hk |].
        intros ->. contradiction.
      * intros x k Hl. apply lookup_setitem_inv in Hl as [[-> ->] | Hl]; auto.
    + split.
      * intros k Hk. rewrite keys_setitem_new in Hk by (apply mem_false_keys, Ec).
        apply in_app_or in Hk as [Hk | [<- | []]].
        -- rewrite lookup_setitem_other; [apply Hself, Hk |].
           intros ->. contradiction.
        -- apply lookup_setitem_same.
      * intros x k Hl. apply lookup_setitem_inv in Hl as [[-> ->] | Hl]; auto.
Qed.

Lemma aggregate_loop_canon (min_distance : float) (cols : list (RawColor * Z)) :
  forall st st',
    aggregate_loop distance items min_distance cols st = Ok st' ->
    canon_inv distance min_distance st -> canon_inv distance min_distance st'.
Proof.
  induction cols as [| entry rest IH]; intros st st'; cbn [aggregate_loop].
  - intros [= <-] H. exact H.
  - destruct (aggregate_step distance items min_distance st entry)
      as [st1 |] eqn:E1; [| discriminate].
    cbn [bind]. intros E2 H. eapply IH; [exact E2 |].
    eapply aggregate_step_canon; eassumption.
Qed.

(** X11: the canonical map the aggregator returns.  Every colour of the
    histogram is mapped, to a canonical colour; a canonical colour is mapped
    to itself; and a colour mapped to another one is closer to it than
    [min_distance]. *)
Theorem aggregate_canonical_map (dist : dict Z) (min_distance : float) :
  exists agg tc,
    aggregate distance items dist min_distance = Ok (agg, tc) /\
    (forall c, In c (keys dist) ->
       exists k, lookup c tc = Some k /\ In k (keys agg)) /\
    (forall k, In k (keys agg) -> lookup k tc = Some k) /\
    (forall c k, lookup c tc = Some k -> c <> k ->
       PrimFloat.ltb (distance c k) min_distance = true).
Proof.
  destruct (aggregate_inv distance items items_perm dist min_distance)
    as (agg & tc & E & (_ & _ & _ & _ & Hval) & Hmem).
  exists agg, tc. split; [exact E |].
  unfold aggregate in E. apply aggregate_loop_canon in E as [Hself Hnear].
  - cbn [fst snd] in *. split; [| split].
    + intros c Hc. apply Hmem in Hc. unfold mem in Hc.
      destruct (lookup c tc) as [k |] eqn:Ek; [| discriminate].
      exists k. split; [reflexivity | eapply Hval, Ek].
    + exact Hself.
    + intros c k Hl N. destruct (Hnear c k Hl); [contradiction | assumption].
  - split; cbn [fst snd keys map lookup].
    + intros k [<- | [<- | []]]; reflexivity.
    + intros c k.
      destruct (RawColor_eqb c WHITE) eqn:Ew.
      { apply RawColor_eqb_eq in Ew. intros [= <-]. auto. }
      destruct (RawColor_eqb c BLACK) eqn:Eb.
      { apply RawColor_eqb_eq in Eb. intros [= <-]. auto. }
      discriminate.
Qed.

Lemma aggregate_step_keys (min_distance : float) (st st' : dict Z * dict RawColor)
    (entry : RawColor * Z) :
  aggregate_step distance items min_distance st entry = Ok st' ->
  keys (fst st') = keys (fst st) \/
  (keys (fst st') = keys (fst st) ++ [fst entry] /\
   exists d k, nearest_canonical distance (fst entry) (keys (items (fst st)))
                 = Ok (d, k) /\
               PrimFloat.ltb d min_distance = false).
Proof.
  destruct st as [agg tc], entry as [c n]. cbn [fst snd]. unfold aggregate_step.
  destruct (mem c agg) eqn:Ec.
  - intros [= <-]. left. apply keys_add_count, Ec.
  - destruct (nearest_canonical distance c (keys (items agg)))
      as [[d k] |] eqn:E; [| discriminate].
    cbn [bind]. pose proof E as E'. apply py_min_In, in_map_iff in E'.
    destruct E' as (alt & [= <- <-] & Hin).
    apply (proj1 (In_keys_items items items_perm _ _)) in Hin.
    destruct (PrimFloat.ltb (distance c alt) min_distance) eqn:Ed;
      intros [= <-]; cbn [fst].
    + left. apply keys_add_count, mem_keys, Hin.
    + right. split; [apply keys_setitem_new, Ec |].
      exists (distance c alt), alt. auto.
Qed.

Lemma separated_snoc (min_distance : float) (l : list RawColor) (c : RawColor) :
  separated distance min_distance l ->
  (forall k, In k l -> PrimFloat.ltb (distance c k) min_distance = false) ->
  separated distance min_distance (l ++ [c]).
Proof.
  intros Hl Hc i j k1 k2 Hi Hj Hij H2.
  destruct (Nat.lt_ge_cases j (List.length l)) as [Hjl | Hjl].
  - rewrite nth_error_app1 in Hi, Hj by lia. eapply Hl; eassumption.
  - rewrite nth_error_app2 in Hj by lia.
    destruct (j - List.length l)%nat as [| m] eqn:Ej;
      [| destruct m; discriminate].
    cbn in Hj. injection Hj as <-.
    rewrite nth_error_app1 in Hi by lia.
    apply Hc. eapply nth_error_In, Hi.
Qed.

(** A colour that is not folded is at least [min_distance] from every
    canonical colour there is. *)
Lemma promoted_is_far (min_distance : float) (c : RawColor)
    (canonical : list RawColor) (d : float) (k : RawColor) :
  (forall alt, In alt canonical -> PrimFloat.is_nan (distance c alt) = false) ->
  nearest_canonical distance c canonical = Ok (d, k) ->
  PrimFloat.ltb d min_distance = false ->
  forall alt, In alt canonical ->
    PrimFloat.ltb (distance c alt) min_distance = false.
Proof.
  intros Hnan E Hd alt Halt.
  destruct (PrimFloat.ltb (distance c alt) min_distance) eqn:Ealt; [| reflexivity].
  exfalso. destruct (ltb_not_nan _ _ Ealt) as [Na Nm].
  unfold nearest_canonical in E.
  apply py_min_pair_least in E as [Hin Hleast].
  2: { intros y Hy. apply in_map_iff in Hy as (x & <- & Hx). apply Hnan, Hx. }
  apply in_map_iff in Hin as (k' & [= <- <-] & Hk').
  apply (Hleast (distance c alt, alt)); [apply in_map_iff; eauto |].
  left. cbn [fst].
  apply (float_ltb_rank _ _ Na Nm) in Ealt.
  assert (Nd : PrimFloat.is_nan (distance c k') = false) by (apply Hnan, Hk').
  destruct (lex_lt_total (float_rank (distance c k')) (float_rank min_distance))
    as [H | [H | H]].
  - apply (float_ltb_rank _ _ Nd Nm) in H. congruence.
  - rewrite H. exact Ealt.
  - eapply lex_lt_trans; eassumption.
Qed.

Lemma aggregate_loop_separated (min_distance : float) (cols : list (RawColor * Z)) :
  forall st st',
    aggregate_loop distance items min_distance cols st = Ok st' ->
    (forall a b, In a (keys cols) -> In b (keys (fst st)) \/ In b (keys cols) ->
                 PrimFloat.is_nan (distance a b) = false) ->
    separated distance min_distance (keys (fst st)) ->
    separated distance min_distance (keys (fst st')) /\
    exists promoted, keys (fst st') = keys (fst st) ++ promoted.
Proof.
  induction cols as [| entry rest IH]; intros st st'; cbn [aggregate_loop].
  - intros [= <-] _ H. split; [exact H |]. exists []. symmetry. apply app_nil_r.
  - destruct (aggregate_step distance items min_distance st entry)
      as [st1 |] eqn:E1; [| discriminate].
    cbn [bind]. intros E2 Hnan H. cbn [keys map] in Hnan.
    destruct (aggregate_step_keys _ _ _ _ E1) as [K | (K & d & k & En & Hd)].
    + rewrite <- K. apply IH; [exact E2 | | rewrite K; exact H].
      intros a b Ha Hb. apply Hnan; [right; exact Ha |].
      rewrite K in Hb. destruct Hb; [left | right; right]; assumption.
    + destruct (IH _ _ E2) as (S2 & promoted & K2).
      * intros a b Ha Hb. apply Hnan; [right; exact Ha |].
        rewrite K in Hb. destruct Hb as [Hb | Hb]; [| right; right; exact Hb].
        apply in_app_or in Hb as [Hb | [<- | []]];
          [left; exact Hb | right; left; reflexivity].
      * rewrite K. apply separated_snoc; [exact H |].
        intros alt Halt. eapply promoted_is_far; [| exact En | exact Hd |].
        -- intros b Hb. apply Hnan; [left; reflexivity |].
           left. apply (In_keys_items items items_perm), Hb.
        -- apply (In_keys_items items items_perm), Halt.
      * split; [exact S2 |]. exists (fst entry :: promoted).
        rewrite K2, K, <- app_assoc. reflexivity.
Qed.

(** X12: the canonical colours are white, black and then the promoted
    colours in the order of their promotion, and each promoted colour is at
    least [min_distance] away from every canonical colour before it (measured
    from the later colour, as the code calls [distance]), provided no distance
    between the colours at hand is a NaN. *)
Theorem aggregate_clusters_apart (dist : dict Z) (min_distance : float) :
  (forall a b, In a (keys dist) ->
               b = WHITE \/ b = BLACK \/ In b (keys dist) ->
               PrimFloat.is_nan (distance a b) = false) ->
  exists agg tc promoted,
    aggregate distance items dist min_distance = Ok (agg, tc) /\
    keys agg = WHITE :: BLACK :: promoted /\
    separated distance min_distance (keys agg).
Proof.
  intros Hnan.
  destruct (aggregate_inv distance items items_perm dist min_distance)
    as (agg & tc & E & _).
  pose proof E as E'. unfold aggregate in E'.
  assert (Hkeys : forall c, In c (keys (sorted_reverse count_ltb (items dist))) ->
                            In c (keys dist)).
  { intros c Hc. eapply Permutation_in; [| exact Hc]. apply Permutation_map.
    etransitivity; [apply sorted_reverse_perm | apply items_perm]. }
  apply aggregate_loop_separated in E' as (S & promoted & K).
  - exists agg, tc, promoted. split; [exact E |]. split; [exact K | exact S].
  - intros a b Ha Hb. apply Hnan; [apply Hkeys, Ha |].
    cbn [fst keys map In] in Hb.
    destruct Hb as [[<- | [<- | []]] | Hb]; auto.
  - intros i j k1 k2 Hi Hj Hij H2. cbn [fst keys map] in Hj.
    destruct j as [| [| j]]; try lia. destruct j; discriminate.
Qed.

End Clusters.

Lemma manhattan_distance_not_nan (a b : RawColor) :
  valid_color a -> valid_color b ->
  PrimFloat.is_nan (manhattan_distance a b) = false.
Proof.
  destruct a as [[r1 g1] b1], b as [[r2 g2] b2].
  unfold valid_color, channel. intros H1 H2. unfold manhattan_distance.
  set (n := Z.abs (r1 - r2) + Z.abs (g1 - g2) + Z.abs (b1 - b2)).
  destruct (Z.eq_dec n 0) as [-> | Hn]; [reflexivity |].
  destruct (float_of_Z_finite n) as (m & e & Hf); [unfold n in *; lia |].
  unfold PrimFloat.is_nan. rewrite FloatAxioms.eqb_spec, Hf.
  unfold SFeqb. cbn [SFcompare]. rewrite Z.compare_refl, Pos.compare_cont_refl.
  reflexivity.
Qed.

Lemma aggregate_conserves_counts_witness :
  exists agg tc,
    aggregate manhattan_distance insertion_order
      [((100, 0, 5), 1); ((100, 0, 10), 3); ((100, 0, 0), 2)] MIN_DISTANCE
      = Ok (agg, tc) /\
    total agg = total [((100, 0, 5), 1); ((100, 0, 10), 3); ((100, 0, 0), 2)].
Proof.
  exact (aggregate_conserves_counts manhattan_distance insertion_order
           insertion_order_perm
           [((100, 0, 5), 1); ((100, 0, 10), 3); ((100, 0, 0), 2)] MIN_DISTANCE).
Defined.

Lemma aggregate_canonical_map_witness :
  exists agg tc,
    aggregate manhattan_distance insertion_order
      [((100, 0, 5), 1); ((100, 0, 10), 3); ((100, 0, 0), 2)] MIN_DISTANCE
      = Ok (agg, tc) /\
    (forall c, In c (keys [((100, 0, 5), 1); ((100, 0, 10), 3); ((100, 0, 0), 2)]) ->
       exists k, lookup c tc = Some k /\ In k (keys agg)) /\
    (forall k, In k (keys agg) -> lookup k tc = Some k) /\
    (forall c k, lookup c tc = Some k -> c <> k ->
       PrimFloat.ltb (manhattan_distance c k) MIN_DISTANCE = true).
Proof.
  exact (aggregate_canonical_map manhattan_distance insertion_order
           insertion_order_perm
           [((100, 0, 5), 1); ((100, 0, 10), 3); ((100, 0, 0), 2)] MIN_DISTANCE).
Defined.

Lemma aggregate_clusters_apart_witness :
  exists agg tc promoted,
    aggregate manhattan_distance insertion_order
      [((100, 0, 5), 1); ((100, 0, 10), 3); ((100, 0, 0), 2)] MIN_DISTANCE
      = Ok (agg, tc) /\
    keys agg = WHITE :: BLACK :: promoted /\
    separated manhattan_distance MIN_DISTANCE (keys agg).
Proof.
  apply (aggregate_clusters_apart manhattan_distance insertion_order
           insertion_order_perm
           [((100, 0, 5), 1); ((100, 0, 10), 3); ((100, 0, 0), 2)] MIN_DISTANCE).
  intros a b Ha Hb. apply manhattan_distance_not_nan.
  - cbn in Ha. destruct Ha as [<- | [<- | [<- | []]]];
      unfold valid_color, channel; lia.
  - cbn in Hb. destruct Hb as [-> | [-> | [<- | [<- | [<- | []]]]]];
      unfold valid_color, channel, WHITE, BLACK; lia.
Defined.

(** ** Ranking *)


Lemma shr_1_nonneg (mrs : shr_record) : 0 <= shr_m mrs -> 0 <= shr_m (shr_1 mrs).
Proof.
  destruct mrs as [m r s]. cbn [shr_m]. intros H. unfold shr_1.
  destruct m as [| [p | p |] | p]; cbn [shr_m]; lia.
Qed.

Lemma iter_pos_shr_1_nonneg (p : positive) :
  forall mrs, 0 <= shr_m mrs -> 0 <= shr_m (iter_pos shr_1 p mrs).
Proof.
  induction p as [p IH | p IH |]; intros mrs H; cbn [iter_pos].
  - apply IH, IH, shr_1_nonneg, H.
  - apply IH, IH, H.
  - apply shr_1_nonneg, H.
Qed.

Lemma shr_fexp_nonneg (m e : Z) (l : location) :
  0 <= m -> 0 <= shr_m (fst (shr_fexp prec emax m e l)).
Proof.
  intros H. unfold shr_fexp, shr.
  assert (H0 : 0 <= shr_m (shr_record_of_loc m l))
    by (destruct l as [| []]; exact H).
  destruct (fexp prec emax (Zdigits2 m + e) - e); cbn [fst];
    [exact H0 | apply iter_pos_shr_1_nonneg, H0 | exact H0].
Qed.

Lemma binary_round_aux_not_nan (s : bool) (m e : Z) (l : location) :
  0 <= m -> binary_round_aux prec emax s m e l <> S754_nan.
Proof.
  intros H. unfold binary_round_aux.
  pose proof (shr_fexp_nonneg m e l H) as H1.
  destruct (shr_fexp prec emax m e l) as [mrs' e']. cbn [fst] in H1.
  set (m1 := round_nearest_even (shr_m mrs') (loc_of_shr_record mrs')).
  assert (H2 : 0 <= m1).
  { unfold m1, round_nearest_even.
    destruct (loc_of_shr_record mrs') as [| []]; try lia.
    destruct (Z.even (shr_m mrs')); lia. }
  pose proof (shr_fexp_nonneg m1 e' loc_Exact H2) as H3.
  destruct (shr_fexp prec emax m1 e' loc_Exact) as [mrs'' e'']. cbn [fst] in H3.
  destruct (shr_m mrs'') as [| p | p]; [discriminate | | lia].
  destruct (e'' <=? emax - prec); discriminate.
Qed.

Lemma is_nan_spec (x : float) : Prim2SF x <> S754_nan -> PrimFloat.is_nan x = false.
Proof.
  intros H. unfold PrimFloat.is_nan. rewrite FloatAxioms.eqb_spec. unfold SFeqb.
  destruct (SFcompare_rank _ _ H H) as [_ Heq].
  rewrite (proj2 Heq eq_refl). reflexivity.
Qed.

(** Dividing a count by a positive pixel count never gives a NaN. *)
Lemma prominence_not_nan (n total_pixels : Z) :
  0 <= n < 2 ^ 53 -> 0 < total_pixels < 2 ^ 53 ->
  PrimFloat.is_nan (float_of_Z n / float_of_Z total_pixels) = false.
Proof.
  intros Hn Ht. apply is_nan_spec. rewrite div_spec.
  destruct (float_of_Z_finite total_pixels Ht) as (mt & et & Eft). rewrite Eft.
  destruct (Z.eq_dec n 0) as [-> | Hne].
  - change (Prim2SF (float_of_Z 0)) with (S754_zero false). discriminate.
  - destruct (float_of_Z_finite n ltac:(lia)) as (mn & en & Efn). rewrite Efn.
    unfold SF64div, SFdiv, SFdiv_core_binary.
    set (m' := match _ - _ - _ with Z0 => _ | Zpos _ => _ | Zneg _ => _ end).
    assert (Hm' : 0 <= m').
    { unfold m'. destruct (_ - _ - _); [lia | | lia].
      rewrite Z.shiftl_mul_pow2 by lia. apply Z.mul_nonneg_nonneg; [lia |].
      apply Z.pow_nonneg. lia. }
    pose proof (Z.div_pos m' (Zpos mt) Hm' ltac:(lia)) as Hq.
    unfold Z.div in Hq. destruct (Z.div_eucl m' (Zpos mt)) as [q r].
    apply binary_round_aux_not_nan, Hq.
Qed.

Lemma not_below_trans (a b c : Color) :
  PrimFloat.is_nan (prominence a) = false ->
  PrimFloat.is_nan (prominence b) = false ->
  PrimFloat.is_nan (prominence c) = false ->
  not_below a b -> not_below b c -> not_below a c.
Proof.
  unfold not_below. intros Na Nb Nc Hab Hbc.
  destruct (PrimFloat.ltb (prominence a) (prominence c)) eqn:E; [| reflexivity].
  apply (float_ltb_rank _ _ Na Nc) in E.
  destruct (lex_lt_total (float_rank (prominence a)) (float_rank (prominence b)))
    as [H | [H | H]].
  - apply (float_ltb_rank _ _ Na Nb) in H. congruence.
  - rewrite H in E. apply (float_ltb_rank _ _ Nb Nc) in E. congruence.
  - assert (H' : lex_lt (float_rank (prominence b)) (float_rank (prominence c)))
      by (eapply lex_lt_trans; eassumption).
    apply (float_ltb_rank _ _ Nb Nc) in H'. congruence.
Qed.

Lemma ltb_not_below (a b : Color) :
  prominence_ltb a b = true -> not_below b a.
Proof.
  unfold prominence_ltb, not_below. intros H.
  destruct (PrimFloat.ltb (prominence b) (prominence a)) eqn:E; [| reflexivity].
  destruct (ltb_not_nan _ _ H) as [Na Nb].
  apply (float_ltb_rank _ _ Na Nb) in H. apply (float_ltb_rank _ _ Nb Na) in E.
  exfalso. eapply lex_lt_irrefl, lex_lt_trans; eassumption.
Qed.

Lemma insert_desc_sorted (x : Color) (l : list Color) :
  (forall c, In c (x :: l) -> PrimFloat.is_nan (prominence c) = false) ->
  StronglySorted not_below l ->
  StronglySorted not_below (insert_desc prominence_ltb x l).
Proof.
  intros Hnan Hs. induction Hs as [| y ys Hs IH Hy]; cbn [insert_desc].
  - constructor; [constructor | constructor].
  - destruct (prominence_ltb x y) eqn:E.
    + constructor.
      * apply IH. intros c [<- | Hc]; apply Hnan; [left | right; right]; auto.
      * apply Forall_forall. intros c Hc.
        apply (Permutation_in _ (insert_desc_perm prominence_ltb x ys)) in Hc.
        destruct Hc as [<- | Hc]; [apply ltb_not_below, E |].
        rewrite Forall_forall in Hy. apply Hy, Hc.
    + constructor; [constructor; assumption |].
      constructor; [exact E |].
      apply Forall_forall. intros c Hc. rewrite Forall_forall in Hy.
      apply (not_below_trans x y c); try (apply Hnan; cbn; auto);
        [exact E | apply Hy, Hc].
Qed.

Lemma sorted_reverse_sorted (l : list Color) :
  (forall c, In c l -> PrimFloat.is_nan (prominence c) = false) ->
  StronglySorted not_below (sorted_reverse prominence_ltb l).
Proof.
  induction l as [| x xs IH]; intros Hnan; cbn [sorted_reverse fold_right].
  - constructor.
  - apply insert_desc_sorted.
    + intros c [<- | Hc]; [apply Hnan; left; reflexivity |].
      apply Hnan. right.
      eapply Permutation_in; [apply sorted_reverse_perm | exact Hc].
    + apply IH. intros c Hc. apply Hnan. right. exact Hc.
Qed.

Section Ranking.
Variable items : dict Z -> dict Z.
Hypothesis items_perm : forall d, Permutation (items d) d.

Lemma rank_sorted (aggregated : dict Z) (n_pixels : Z) :
  0 < n_pixels < 2 ^ 53 ->
  (forall e, In e aggregated -> 0 <= snd e < 2 ^ 53) ->
  exists ranked,
    rank items aggregated n_pixels = Ok ranked /\
    Permutation (map value ranked) (keys aggregated) /\
    StronglySorted not_below ranked.
Proof.
  intros Hn Hagg. unfold rank.
  destruct (float_of_Z_finite n_pixels Hn) as (m & e & Hf).
  destruct (float_finite_nonzero _ _ _ _ Hf) as [Hz _].
  rewrite (mapM_total _ (fun e => mkColor (fst e)
                           (float_of_Z (snd e) / float_of_Z n_pixels)%float)).
  - cbn [bind]. eexists. split; [reflexivity |]. split.
    + rewrite sorted_reverse_perm, map_map. cbn [value].
      apply keys_items, items_perm.
    + apply sorted_reverse_sorted. intros c Hc.
      apply in_map_iff in Hc as ([k n] & <- & Hin). cbn [prominence fst snd].
      apply (Permutation_in _ (items_perm _)) in Hin.
      apply prominence_not_nan; [apply (Hagg _ Hin) | exact Hn].
  - intros [c n] Hin. apply (Permutation_in _ (items_perm _)) in Hin.
    specialize (Hagg _ Hin). cbn [fst snd] in *.
    rewrite !py_float_small by lia. cbn [bind].
    unfold float_div. rewrite Hz. reflexivity.
Qed.

(** X13: ranking a canonical histogram whose counts and pixel total are
    below 2^53 raises nothing and returns each canonical colour once, in
    order of non-increasing prominence: no colour is followed by a more
    prominent one. *)
Theorem rank_descending (aggregated : dict Z) (n_pixels : Z) :
  0 < n_pixels < 2 ^ 53 ->
  (forall e, In e aggregated -> 0 <= snd e < 2 ^ 53) ->
  exists ranked,
    rank items aggregated n_pixels = Ok ranked /\
    Permutation (map value ranked) (keys aggregated) /\
    forall i j a b,
      nth_error ranked i = Some a -> nth_error ranked j = Some b ->
      (i < j)%nat -> PrimFloat.ltb (prominence a) (prominence b) = false.
Proof.
  intros Hn Hagg.
  destruct (rank_sorted aggregated n_pixels Hn Hagg) as (ranked & E & P & S).
  exists ranked. split; [exact E |]. split; [exact P |].
  clear E P. induction S as [| x xs S IH Hx]; intros i j a b Hi Hj Hij.
  - destruct i; discriminate.
  - destruct j as [| j]; [lia |]. cbn [nth_error] in Hj.
    destruct i as [| i].
    + cbn [nth_error] in Hi. injection Hi as <-.
      rewrite Forall_forall in Hx. apply Hx. eapply nth_error_In, Hj.
    + cbn [nth_error] in Hi. apply (IH i j); [assumption .. | lia].
Qed.

End Ranking.

Lemma rank_descending_witness :
  exists ranked,
    rank insertion_order [(WHITE, 0); (BLACK, 0); ((0, 0, 200), 7); (RED, 18)] 25
      = Ok ranked /\
    Permutation (map value ranked)
      (keys [(WHITE, 0); (BLACK, 0); ((0, 0, 200), 7); (RED, 18)]) /\
    forall i j a b,
      nth_error ranked i = Some a -> nth_error ranked j = Some b ->
      (i < j)%nat -> PrimFloat.ltb (prominence a) (prominence b) = false.
Proof.
  apply (rank_descending insertion_order insertion_order_perm
           [(WHITE, 0); (BLACK, 0); ((0, 0, 200), 7); (RED, 18)] 25); [lia |].
  intros e [<- | [<- | [<- | [<- | []]]]]; cbn; lia.
Defined.

(** ** From the ranking to the palette *)


Lemma subseq_refl {A : Type} (l : list A) : subseq l l.
Proof. induction l; [apply subseq_nil | apply subseq_keep; assumption]. Qed.

Lemma subseq_nil_l {A : Type} (l : list A) : subseq [] l.
Proof. induction l; constructor; assumption. Qed.

Lemma subseq_trans {A : Type} (l1 l2 l3 : list A) :
  subseq l1 l2 -> subseq l2 l3 -> subseq l1 l3.
Proof.
  intros H12 H23. revert l1 H12.
  induction H23 as [| x l2 l3 H IH | x l2 l3 H IH]; intros l1 H12.
  - exact H12.
  - apply subseq_skip. apply IH, H12.
  - inversion H12; subst; [apply subseq_skip | apply subseq_keep];
      apply IH; assumption.
Qed.

Lemma subseq_In {A : Type} (l' l : list A) (x : A) :
  subseq l' l -> In x l' -> In x l.
Proof.
  induction 1 as [| y l' l H IH | y l' l H IH]; cbn [In]; intuition.
Qed.

Lemma subseq_filter {A : Type} (p : A -> bool) (l : list A) :
  subseq (filter p l) l.
Proof.
  induction l as [| x xs IH]; cbn [filter]; [apply subseq_nil |].
  destruct (p x); [apply subseq_keep | apply subseq_skip]; exact IH.
Qed.

Lemma subseq_firstn {A : Type} (n : nat) (l : list A) : subseq (firstn n l) l.
Proof.
  revert n. induction l as [| x xs IH]; intros [| n]; cbn [firstn].
  - apply subseq_nil.
  - apply subseq_nil.
  - apply subseq_nil_l.
  - apply subseq_keep. apply IH.
Qed.

Lemma subseq_slice_to {A : Type} (k : Z) (l : list A) : subseq (slice_to k l) l.
Proof. unfold slice_to. destruct (k <? 0); apply subseq_firstn. Qed.

Lemma subseq_app_middle {A : Type} (l1 l2 : list A) (b : A) :
  subseq (l1 ++ l2) (l1 ++ b :: l2).
Proof.
  induction l1 as [| x xs IH]; cbn [app].
  - apply subseq_skip. apply subseq_refl.
  - apply subseq_keep. exact IH.
Qed.

Lemma subseq_map {A B : Type} (f : A -> B) (l' l : list A) :
  subseq l' l -> subseq (map f l') (map f l).
Proof.
  induction 1; cbn [map];
    [apply subseq_nil | apply subseq_skip | apply subseq_keep]; assumption.
Qed.

Lemma subseq_NoDup {A : Type} (l' l : list A) :
  subseq l' l -> NoDup l -> NoDup l'.
Proof.
  induction 1 as [| x l' l H IH | x l' l H IH]; intros Hnd.
  - constructor.
  - inversion Hnd; auto.
  - inversion Hnd as [| ? ? Hnotin Hnd']; subst. constructor; [| auto].
    intros Hin. apply Hnotin. eapply subseq_In; eassumption.
Qed.

Lemma subseq_sorted {A : Type} (R : A -> A -> Prop) (l' l : list A) :
  subseq l' l -> StronglySorted R l -> StronglySorted R l'.
Proof.
  induction 1 as [| x l' l H IH | x l' l H IH]; intros Hs.
  - constructor.
  - inversion Hs; auto.
  - inversion Hs as [| ? ? Hs' Hx]; subst. constructor; [auto |].
    rewrite Forall_forall in *. intros y Hy. apply Hx.
    eapply subseq_In; eassumption.
Qed.

Lemma subseq_length {A : Type} (l' l : list A) :
  subseq l' l -> (List.length l' <= List.length l)%nat.
Proof. induction 1; cbn [List.length]; lia. Qed.

Lemma filterM_subseq {A : Type} (p : A -> result bool) (l out : list A) :
  filterM p l = Ok out ->
  subseq out l /\ forall x, In x out -> p x = Ok true.
Proof.
  revert out. induction l as [| x xs IH]; intros out; cbn [filterM].
  - intros [= <-]. split; [apply subseq_nil | intros ? []].
  - destruct (p x) as [b |] eqn:E; cbn [bind]; [| discriminate].
    destruct (filterM p xs) as [ys |]; cbn [bind]; [| discriminate].
    destruct (IH ys eq_refl) as [Hs Hp].
    intros [= <-]. destruct b.
    + split; [apply subseq_keep; exact Hs |]. intros y [<- | Hy]; auto.
    + split; [apply subseq_skip; exact Hs | exact Hp].
Qed.

Lemma saturation_filter_subseq (colors out : list Color) (min_saturation : float) :
  saturation_filter colors min_saturation = Ok out ->
  subseq out colors /\
  ((forall c, In c out -> meets_min_saturation c min_saturation = Ok true) \/
   out = firstn 1 colors).
Proof.
  unfold saturation_filter.
  destruct (filterM _ colors) as [sat |] eqn:E; cbn [bind]; [| discriminate].
  apply filterM_subseq in E as [Hs Hp].
  destruct sat as [| s sat'].
  - intros [= <-]. split; [exact (subseq_firstn 1 colors) | right; reflexivity].
  - intros [= <-]. split; [exact Hs | left; exact Hp].
Qed.

Lemma prominence_filter_subseq (colors : list Color) (min_prominence : float)
    (max_colors : Z) :
  subseq (prominence_filter colors min_prominence max_colors) colors.
Proof.
  unfold prominence_filter. destruct colors as [| c0 rest]; [apply subseq_nil |].
  eapply subseq_trans; [apply subseq_slice_to | apply subseq_filter].
Qed.

(** X14: the prominence filter deletes entries and keeps the order of the
    rest; every colour it keeps has a prominence of at least the head's
    prominence times [min_prominence]; and for [max_colors >= 0] it keeps at
    most [max_colors] colours (none for 0). *)
Theorem prominence_filter_keeps (c0 : Color) (rest : list Color)
    (min_prominence : float) (max_colors : Z) :
  let out := prominence_filter (c0 :: rest) min_prominence max_colors in
  subseq out (c0 :: rest) /\
  (forall c, In c out ->
     PrimFloat.leb (prominence c0 * min_prominence) (prominence c) = true) /\
  (0 <= max_colors -> Z.of_nat (List.length out) <= max_colors).
Proof.
  cbv zeta. split; [apply prominence_filter_subseq |]. split.
  - intros c Hc. unfold prominence_filter in Hc.
    apply (subseq_In _ _ _ (subseq_slice_to _ _)) in Hc.
    apply filter_In in Hc. tauto.
  - intros Hk. unfold prominence_filter, slice_to.
    replace (max_colors <? 0) with false by (symmetry; apply Z.ltb_ge; exact Hk).
    rewrite length_firstn. lia.
Qed.

Section Stages.
Variable distance : RawColor -> RawColor -> float.
Variable items : dict Z -> dict Z.
Hypothesis items_perm : forall d, Permutation (items d) d.

(** The stages a returned palette went through. *)
Lemma extract_palette_stages (im : Image) (min_saturation min_distance : float)
    (max_colors : Z) (min_prominence : float) (palette : Palette) :
  extract_palette distance items im min_saturation min_distance max_colors
    min_prominence = Ok palette ->
  exists agg tc ranked fg bg sat,
    aggregate distance items (Counter (getdata im)) min_distance = Ok (agg, tc) /\
    rank items agg (width im * height im) = Ok ranked /\
    detect_background items im ranked tc = Ok (fg, bg) /\
    saturation_filter fg min_saturation = Ok sat /\
    background_filter bg min_saturation = Ok (bgcolor palette) /\
    colors palette = prominence_filter sat min_prominence max_colors.
Proof.
  unfold extract_palette.
  destruct (aggregate _ _ _ _) as [[agg tc] |] eqn:Ea; cbn [bind]; [| discriminate].
  destruct (rank _ _ _) as [ranked |] eqn:Er; cbn [bind]; [| discriminate].
  destruct (detect_background _ _ _ _) as [[fg bg] |] eqn:Ed; cbn [bind];
    [| discriminate].
  destruct (saturation_filter _ _) as [sat |] eqn:Es; cbn [bind]; [| discriminate].
  destruct (background_filter _ _) as [bg' |] eqn:Eb; cbn [bind]; [| discriminate].
  intros [= <-]. exists agg, tc, ranked, fg, bg, sat. cbn [colors bgcolor].
  repeat split; assumption || reflexivity.
Qed.

Lemma mapM_values (f : RawColor * Z -> result Color) (l : dict Z) (ys : list Color) :
  (forall e y, f e = Ok y -> value y = fst e) ->
  mapM f l = Ok ys -> map value ys = keys l.
Proof.
  intros Hf. revert ys. induction l as [| e l IH]; intros ys; cbn [mapM].
  - intros [= <-]. reflexivity.
  - destruct (f e) as [y |] eqn:E; cbn [bind]; [| discriminate].
    destruct (mapM f l) as [ys' |]; cbn [bind]; [| discriminate].
    intros [= <-]. cbn [map keys]. f_equal; [apply Hf, E | apply IH; reflexivity].
Qed.

Lemma rank_values (aggregated : dict Z) (n_pixels : Z) (ranked : list Color) :
  rank items aggregated n_pixels = Ok ranked ->
  Permutation (map value ranked) (keys aggregated).
Proof.
  unfold rank.
  destruct (mapM _ (items aggregated)) as [cs |] eqn:E; cbn [bind]; [| discriminate].
  intros [= <-]. rewrite sorted_reverse_perm.
  erewrite mapM_values; [apply keys_items, items_perm | | exact E].
  intros [c n] y. cbn [fst]. clear E.
  destruct (py_float n_pixels); cbn [bind]; [| discriminate].
  destruct (py_float n); cbn [bind]; [| discriminate].
  destruct (float_div _ _); cbn [bind]; [| discriminate].
  intros [= <-]. reflexivity.
Qed.

Lemma aggregate_loop_origin (min_distance : float) (cols : list (RawColor * Z)) :
  forall st st',
    aggregate_loop distance items min_distance cols st = Ok st' ->
    forall k, In k (keys (fst st')) -> In k (keys (fst st)) \/ In k (keys cols).
Proof.
  induction cols as [| entry rest IH]; intros st st'; cbn [aggregate_loop].
  - intros [= <-] k Hk. left. exact Hk.
  - destruct (aggregate_step distance items min_distance st entry)
      as [st1 |] eqn:E1; [| discriminate].
    cbn [bind]. intros E2 k Hk. cbn [keys map].
    destruct (IH _ _ E2 k Hk) as [H | H]; [| right; right; exact H].
    destruct (aggregate_step_keys distance items items_perm _ _ _ _ E1)
      as [K | (K & _)]; rewrite K in H; [left; exact H |].
    apply in_app_or in H as [H | [<- | []]];
      [left; exact H | right; left; reflexivity].
Qed.

Lemma aggregate_origin (dist : dict Z) (min_distance : float)
    (agg : dict Z) (tc : dict RawColor) :
  aggregate distance items dist min_distance = Ok (agg, tc) ->
  forall k, In k (keys agg) -> k = WHITE \/ k = BLACK \/ In k (keys dist).
Proof.
  unfold aggregate. intros E k Hk.
  destruct (aggregate_loop_origin _ _ _ _ E k Hk) as [H | H].
  - cbn in H. destruct H as [<- | [<- | []]]; auto.
  - right. right. eapply Permutation_in; [| exact H]. apply Permutation_map.
    etransitivity; [apply sorted_reverse_perm | apply items_perm].
Qed.

Lemma detect_background_sub (im : Image) (ranked fg : list Color)
    (tc : dict RawColor) (bg : option Color) :
  detect_background items im ranked tc = Ok (fg, bg) ->
  subseq fg ranked /\
  forall b, bg = Some b ->
    In b ranked /\
    (NoDup (map value ranked) -> ~ In (value b) (map value fg)).
Proof.
  unfold detect_background. destruct ranked as [| c0 rest]; [discriminate |].
  destruct (PrimFloat.leb BACKGROUND_PROMINENCE (prominence c0)).
  - intros [= <- <-]. split; [apply subseq_skip; apply subseq_refl |].
    intros b [= <-]. split; [left; reflexivity |].
    intros Hnd. inversion Hnd. assumption.
  - destruct (mapM (getpixel im) (border_points im)) as [samples |];
      cbn [bind]; [| discriminate].
    destruct (unpack_1 (most_common_1 items (Counter samples)))
      as [[majority_col majority_count] |]; cbn [bind]; [| discriminate].
    destruct (3 <=? majority_count).
    + destruct (getitem tc majority_col) as [cb |]; cbn [bind]; [| discriminate].
      destruct (filter (fun c => RawColor_eqb (value c) cb) (c0 :: rest))
        as [| b' [| ? ?]] eqn:E; cbn [unpack_1 bind]; try discriminate.
      set (fg' := filter (fun c => negb (RawColor_eqb (value c) cb)) (c0 :: rest)).
      intros [= <- <-]. split; [apply subseq_filter |].
      intros b [= <-].
      assert (Hb : In b' (filter (fun c => RawColor_eqb (value c) cb) (c0 :: rest)))
        by (rewrite E; left; reflexivity).
      apply filter_In in Hb as [Hin Hv]. apply RawColor_eqb_eq in Hv.
      split; [exact Hin |]. intros _ Hfg.
      apply in_map_iff in Hfg as (x & Ex & Hx). unfold fg' in Hx.
      apply filter_In in Hx as [_ Hx].
      rewrite Ex, Hv, RawColor_eqb_refl in Hx. discriminate.
    + intros [= <- <-]. split; [apply subseq_refl | discriminate].
Qed.

Lemma background_filter_keeps (bg bg' : option Color) (min_saturation : float) :
  background_filter bg min_saturation = Ok bg' ->
  forall b, bg' = Some b ->
    bg = Some b /\ meets_min_saturation b min_saturation = Ok true.
Proof.
  unfold background_filter. destruct bg as [c |]; [| intros [= <-]; discriminate].
  destruct (meets_min_saturation c min_saturation) as [[|] |] eqn:E;
    cbn [bind]; intros [= <-] b; try discriminate.
  intros [= <-]. auto.
Qed.

(** What a returned palette is made of. *)
Lemma extract_palette_facts (im : Image) (min_saturation min_distance : float)
    (max_colors : Z) (min_prominence : float) (palette : Palette) :
  extract_palette distance items im min_saturation min_distance max_colors
    min_prominence = Ok palette ->
  exists agg tc ranked,
    aggregate distance items (Counter (getdata im)) min_distance = Ok (agg, tc) /\
    rank items agg (width im * height im) = Ok ranked /\
    NoDup (map value ranked) /\
    (forall c, In c ranked ->
       value c = WHITE \/ value c = BLACK \/ In (value c) (getdata im)) /\
    subseq (colors palette) ranked /\
    (forall b, bgcolor palette = Some b ->
       In b ranked /\ ~ In (value b) (map value (colors palette)) /\
       meets_min_saturation b min_saturation = Ok true) /\
    ((forall c, In c (colors palette) ->
        meets_min_saturation c min_saturation = Ok true) \/
     (List.length (colors palette) <= 1)%nat).
Proof.
  intros E.
  destruct (extract_palette_stages _ _ _ _ _ _ E)
    as (agg & tc & ranked & fg & bg & sat & Ea & Er & Ed & Es & Eb & Ec).
  exists agg, tc, ranked. split; [exact Ea |]. split; [exact Er |].
  pose proof (rank_values _ _ _ Er) as Hperm.
  destruct (aggregate_inv distance items items_perm (Counter (getdata im))
              min_distance) as (agg' & tc' & Ea' & (Hnd & _) & _).
  rewrite Ea in Ea'. injection Ea' as <- <-. cbn [fst] in Hnd.
  assert (Hndr : NoDup (map value ranked))
    by (eapply Permutation_NoDup; [symmetry; exact Hperm | exact Hnd]).
  destruct (detect_background_sub _ _ _ _ _ Ed) as [Hfg Hbg].
  destruct (saturation_filter_subseq _ _ _ Es) as [Hsat Hmeets].
  pose proof (prominence_filter_subseq sat min_prominence max_colors) as Hpf.
  rewrite <- Ec in Hpf.
  assert (Hsub : subseq (colors palette) fg)
    by (eapply subseq_trans; eassumption).
  split; [exact Hndr |]. split; [| split; [| split]].
  - intros c Hc.
    assert (Hk : In (value c) (keys agg))
      by (eapply Permutation_in; [exact Hperm | apply in_map, Hc]).
    destruct (aggregate_origin _ _ _ _ Ea _ Hk) as [H | [H | H]]; auto.
    right. right. apply (Counter_spec (getdata im)), H.
  - eapply subseq_trans; eassumption.
  - intros b Hb. destruct (background_filter_keeps _ _ _ Eb b Hb) as [-> Hm].
    destruct (Hbg b eq_refl) as [Hin Hnot]. split; [exact Hin |]. split; [| exact Hm].
    intros H. apply (Hnot Hndr).
    eapply subseq_In; [apply subseq_map, Hsub | exact H].
  - destruct Hmeets as [Hm | ->].
    + left. intros c Hc. apply Hm. eapply subseq_In; eassumption.
    + right. apply subseq_length in Hpf. rewrite length_firstn in Hpf. lia.
Qed.

End Stages.

(** ** The result of [extract_colors] *)

Lemma sorted_nth (l : list Color) :
  StronglySorted not_below l ->
  forall i j a b,
    nth_error l i = Some a -> nth_error l j = Some b -> (i < j)%nat ->
    PrimFloat.ltb (prominence a) (prominence b) = false.
Proof.
  induction 1 as [| x xs S IH Hx]; intros i j a b Hi Hj Hij.
  - destruct i; discriminate.
  - destruct j as [| j]; [lia |]. cbn [nth_error] in Hj.
    destruct i as [| i].
    + cbn [nth_error] in Hi. injection Hi as <-.
      rewrite Forall_forall in Hx. apply Hx. eapply nth_error_In, Hj.
    + cbn [nth_error] in Hi. apply (IH i j); [assumption .. | lia].
Qed.

Lemma fmt_02x_inj (n m : Z) :
  channel n -> channel m -> fmt_02x n = fmt_02x m -> n = m.
Proof.
  intros Hn Hm E.
  destruct (fmt_02x_channel n Hn) as (a & b & En & In_).
  destruct (fmt_02x_channel m Hm) as (a' & b' & Em & Im).
  rewrite En, Em in E. rewrite E in In_. congruence.
Qed.

Lemma rgb_to_hex_inj (c c' : RawColor) :
  valid_color c -> valid_color c' -> rgb_to_hex c = rgb_to_hex c' -> c = c'.
Proof.
  destruct c as [[r g] b], c' as [[r' g'] b'].
  intros (Hr & Hg & Hb) (Hr' & Hg' & Hb'). unfold rgb_to_hex.
  destruct (fmt_02x_channel r Hr) as (r1 & r2 & Er & _).
  destruct (fmt_02x_channel g Hg) as (g1 & g2 & Eg & _).
  destruct (fmt_02x_channel b Hb) as (b1 & b2 & Eb & _).
  destruct (fmt_02x_channel r' Hr') as (r1' & r2' & Er' & _).
  destruct (fmt_02x_channel g' Hg') as (g1' & g2' & Eg' & _).
  destruct (fmt_02x_channel b' Hb') as (b1' & b2' & Eb' & _).
  intros E. pose proof E as E0. rewrite Er, Eg, Eb, Er', Eg', Eb' in E0.
  cbn [append] in E0. injection E0 as -> -> -> -> -> ->.
  rewrite <- Er' in Er. rewrite <- Eg' in Eg. rewrite <- Eb' in Eb.
  apply fmt_02x_inj in Er, Eg, Eb; try assumption. congruence.
Qed.

Section Result.
Variable distance : RawColor -> RawColor -> float.
Variable items : dict Z -> dict Z.
Hypothesis items_perm : forall d, Permutation (items d) d.

(** X15: [extract_colors] invents no colour: every string it returns is the
    hex string of white, of black, or of a colour that some pixel of the
    (preprocessed) image has. *)
Theorem extract_colors_from_image (im : Image) (min_saturation min_distance : float)
    (max_colors : Z) (min_prominence : float) (out : list string) :
  extract_colors distance items im min_saturation min_distance max_colors
    min_prominence = Ok out ->
  forall s, In s out ->
    exists c, s = rgb_to_hex c /\
              (c = WHITE \/ c = BLACK \/ In c (getdata im)).
Proof.
  unfold extract_colors.
  destruct (extract_palette _ _ _ _ _ _ _) as [palette |] eqn:E; cbn [bind];
    [| discriminate].
  intros [= <-] s Hs.
  destruct (extract_palette_facts distance items items_perm _ _ _ _ _ _ E)
    as (agg & tc & ranked & _ & _ & _ & Horigin & Hsub & _).
  unfold palette_output in Hs. apply in_map_iff in Hs as (c & <- & Hc).
  exists (value c). split; [reflexivity |].
  apply Horigin. eapply subseq_In; [exact Hsub |].
  eapply subseq_In; [apply subseq_firstn | exact Hc].
Qed.

(** X16: a background that [extract_colors] keeps in its palette is not one
    of the foreground colours and meets the minimum saturation; so on an
    image of byte channels, with a threshold that is not negative, it is
    never a gray (white and black included). *)
Theorem palette_background (im : Image) (min_saturation min_distance : float)
    (max_colors : Z) (min_prominence : float) (palette : Palette) (b : Color) :
  extract_palette distance items im min_saturation min_distance max_colors
    min_prominence = Ok palette ->
  bgcolor palette = Some b ->
  ~ In (value b) (map value (colors palette)) /\
  meets_min_saturation b min_saturation = Ok true /\
  (Forall valid_color (getdata im) ->
   PrimFloat.ltb min_saturation 0 = false ->
   is_gray (value b) = false).
Proof.
  intros E Hb.
  destruct (extract_palette_facts distance items items_perm _ _ _ _ _ _ E)
    as (agg & tc & ranked & _ & _ & _ & Horigin & _ & Hbg & _).
  destruct (Hbg b Hb) as (Hin & Hnot & Hm).
  split; [exact Hnot |]. split; [exact Hm |].
  intros Hvalid Hms. rewrite Forall_forall in Hvalid.
  destruct b as [[[r g] bl] p]. cbn [value] in *.
  destruct (is_gray (r, g, bl)) eqn:Eg; [| reflexivity]. exfalso.
  unfold is_gray in Eg. apply andb_true_iff in Eg as [E1 E2].
  apply Z.eqb_eq in E1, E2. subst g bl.
  assert (Hr : channel r).
  { destruct (Horigin _ Hin) as [H | [H | H]]; cbn [value] in H.
    - injection H as ->. unfold channel. lia.
    - injection H as ->. unfold channel. lia.
    - apply Hvalid in H. apply H. }
  rewrite meets_min_saturation_channels in Hm by assumption.
  rewrite !Z.max_id, !Z.min_id in Hm. unfold saturation_of in Hm.
  rewrite Z.eqb_refl in Hm. congruence.
Qed.

(** X17: the foreground of the palette is the ranked list with entries
    deleted: no colour value occurs twice in it, and on a well-formed image
    of fewer than 2^53 pixels no colour is followed by a more prominent one. *)
Theorem palette_order (im : Image) (min_saturation min_distance : float)
    (max_colors : Z) (min_prominence : float) (palette : Palette) :
  well_formed im -> width im * height im < 2 ^ 53 ->
  extract_palette distance items im min_saturation min_distance max_colors
    min_prominence = Ok palette ->
  NoDup (map value (colors palette)) /\
  forall i j a b,
    nth_error (colors palette) i = Some a ->
    nth_error (colors palette) j = Some b -> (i < j)%nat ->
    PrimFloat.ltb (prominence a) (prominence b) = false.
Proof.
  intros Hwf Hsmall E. pose proof Hwf as (Hw & Hh & Hlen).
  destruct (extract_palette_facts distance items items_perm _ _ _ _ _ _ E)
    as (agg & tc & ranked & Ea & Er & Hnd & _ & Hsub & _).
  split; [eapply subseq_NoDup; [apply subseq_map, Hsub | exact Hnd] |].
  apply sorted_nth. eapply subseq_sorted; [exact Hsub |].
  destruct (Counter_total (getdata im)) as (Hnn & Htot).
  pose proof Ea as Eloop. unfold aggregate in Eloop.
  apply (aggregate_loop_counts distance items items_perm) in Eloop
    as (Hnn' & Htot' & _).
  2: { intros e He. apply Hnn.
       eapply Permutation_in; [| exact He].
       etransitivity; [apply sorted_reverse_perm | apply items_perm]. }
  2: { intros e [<- | [<- | []]]; cbn; lia. }
  cbn [fst] in *.
  rewrite (total_perm (sorted_reverse count_ltb (items (Counter (getdata im))))
             (Counter (getdata im))) in Htot'
    by (etransitivity; [apply sorted_reverse_perm | apply items_perm]).
  change (total [(WHITE, 0); (BLACK, 0)]) with 0 in Htot'.
  destruct (rank_sorted items items_perm agg (width im * height im))
    as (ranked' & Er' & _ & S); [lia | |].
  { intros e He. split; [apply Hnn', He |].
    pose proof (nonneg_le_total agg e Hnn' He). lia. }
  rewrite Er in Er'. injection Er' as <-. exact S.
Qed.

(** X18: every foreground colour of the palette meets the minimum
    saturation, unless the keep-at-least-one fallback applied, and then the
    palette has at most one foreground colour. *)
Theorem palette_saturated (im : Image) (min_saturation min_distance : float)
    (max_colors : Z) (min_prominence : float) (palette : Palette) :
  extract_palette distance items im min_saturation min_distance max_colors
    min_prominence = Ok palette ->
  (forall c, In c (colors palette) ->
     meets_min_saturation c min_saturation = Ok true) \/
  (List.length (colors palette) <= 1)%nat.
Proof.
  intros E.
  destruct (extract_palette_facts distance items items_perm _ _ _ _ _ _ E)
    as (agg & tc & ranked & _ & _ & _ & _ & _ & _ & H).
  exact H.
Qed.

(** X19: an image without pixels is not given an empty palette: the ranking
    divides by the pixel count and [extract_colors] raises
    [ZeroDivisionError], whatever the parameters. *)
Theorem extract_colors_no_pixels (im : Image) (min_saturation min_distance : float)
    (max_colors : Z) (min_prominence : float) :
  width im * height im = 0 -> getdata im = [] ->
  extract_colors distance items im min_saturation min_distance max_colors
    min_prominence = Raise ZeroDivisionError.
Proof.
  intros Hn Hdata. unfold extract_colors, extract_palette.
  rewrite Hdata, Hn. change (Counter []) with (@nil (RawColor * Z)).
  unfold aggregate.
  rewrite (Permutation_nil (Permutation_sym (items_perm []))).
  cbn [sorted_reverse fold_right aggregate_loop bind]. unfold rank.
  destruct (Permutation_length_2_inv
              (Permutation_sym (items_perm [(WHITE, 0); (BLACK, 0)]))) as [-> | ->];
    reflexivity.
Qed.

(** X20: on a well-formed image of byte channels with fewer than 2^53 pixels
    [extract_colors] raises nothing, whatever the parameters, and returns at
    most five strings, no two of them equal. *)
Theorem extract_colors_returns (im : Image) (min_saturation min_distance : float)
    (max_colors : Z) (min_prominence : float) :
  well_formed im -> width im * height im < 2 ^ 53 ->
  Forall valid_color (getdata im) ->
  exists out,
    extract_colors distance items im min_saturation min_distance max_colors
      min_prominence = Ok out /\
    (List.length out <= 5)%nat /\ NoDup out.
Proof.
  intros Hwf Hsmall Hvalid.
  destruct (extract_colors_total distance items items_perm im min_saturation
              min_distance max_colors min_prominence Hwf Hsmall Hvalid)
    as (out & E).
  exists out. split; [exact E |]. unfold extract_colors in E.
  destruct (extract_palette _ _ _ _ _ _ _) as [palette |] eqn:Ep; cbn [bind] in E;
    [| discriminate].
  injection E as <-. split; [apply palette_output_at_most_5 |].
  destruct (extract_palette_facts distance items items_perm _ _ _ _ _ _ Ep)
    as (agg & tc & ranked & _ & _ & Hnd & Horigin & Hsub & _).
  unfold palette_output.
  assert (Hsub' : subseq (firstn (if (List.length (colors palette) <? 5)%nat
                                  then 3 else 5)%nat (colors palette)) ranked)
    by (eapply subseq_trans; [apply subseq_firstn | exact Hsub]).
  set (kept := firstn _ (colors palette)) in *.
  assert (Hndk : NoDup (map value kept))
    by (eapply subseq_NoDup; [apply subseq_map, Hsub' | exact Hnd]).
  assert (Hvk : forall c, In c kept -> valid_color (value c)).
  { intros c Hc. rewrite Forall_forall in Hvalid.
    destruct (Horigin c (subseq_In _ _ _ Hsub' Hc)) as [-> | [-> | H]];
      [cbn; unfold channel; lia | cbn; unfold channel; lia | apply Hvalid, H]. }
  clearbody kept. clear Hsub'.
  induction kept as [| c cs IH]; cbn [map]; [constructor |].
  cbn [map] in Hndk. inversion Hndk as [| ? ? Hnotin Hnd']; subst.
  constructor.
  - intros Hin. apply in_map_iff in Hin as (c' & Ec' & Hc').
    apply Hnotin. apply rgb_to_hex_inj in Ec';
      [| apply Hvk; right; exact Hc' | apply Hvk; left; reflexivity].
    rewrite <- Ec'. apply in_map, Hc'.
  - apply IH; [exact Hnd' |]. intros c' Hc'. apply Hvk. right. exact Hc'.
Qed.

End Result.


Lemma two_sided_palette_eq :
  extract_palette manhattan_distance insertion_order two_sided_border
    MIN_SATURATION MIN_DISTANCE MAX_COLORS MIN_PROMINENCE = Ok two_sided_palette.
Proof. vm_compute. reflexivity. Qed.

Lemma two_sided_border_well_formed : well_formed two_sided_border.
Proof. unfold well_formed. cbn. lia. Qed.

Lemma two_sided_border_valid : Forall valid_color (getdata two_sided_border).
Proof. repeat constructor; unfold channel; lia. Qed.

Lemma extract_colors_from_image_witness :
  extract_colors manhattan_distance insertion_order two_sided_border
    MIN_SATURATION MIN_DISTANCE MAX_COLORS MIN_PROMINENCE =
  Ok ["00c800"; "c8c800"; "00c8c8"]%string /\
  forall s, In s ["00c800"; "c8c800"; "00c8c8"]%string ->
    exists c, s = rgb_to_hex c /\
              (c = WHITE \/ c = BLACK \/ In c (getdata two_sided_border)).
Proof.
  assert (E : extract_colors manhattan_distance insertion_order two_sided_border
                MIN_SATURATION MIN_DISTANCE MAX_COLORS MIN_PROMINENCE =
              Ok ["00c800"; "c8c800"; "00c8c8"]%string)
    by (vm_compute; reflexivity).
  split; [exact E |].
  exact (extract_colors_from_image manhattan_distance insertion_order
           insertion_order_perm two_sided_border MIN_SATURATION MIN_DISTANCE
           MAX_COLORS MIN_PROMINENCE _ E).
Defined.

Lemma palette_background_witness :
  ~ In (value (mkColor (0, 0, 200) 0.2)) (map value (colors two_sided_palette)) /\
  meets_min_saturation (mkColor (0, 0, 200) 0.2) MIN_SATURATION = Ok true /\
  (Forall valid_color (getdata two_sided_border) ->
   PrimFloat.ltb MIN_SATURATION 0 = false ->
   is_gray (value (mkColor (0, 0, 200) 0.2)) = false).
Proof.
  exact (palette_background manhattan_distance insertion_order
           insertion_order_perm two_sided_border MIN_SATURATION MIN_DISTANCE
           MAX_COLORS MIN_PROMINENCE two_sided_palette (mkColor (0, 0, 200) 0.2)
           two_sided_palette_eq eq_refl).
Defined.

Lemma palette_order_witness :
  NoDup (map value (colors two_sided_palette)) /\
  forall i j a b,
    nth_error (colors two_sided_palette) i = Some a ->
    nth_error (colors two_sided_palette) j = Some b -> (i < j)%nat ->
    PrimFloat.ltb (prominence a) (prominence b) = false.
Proof.
  apply (palette_order manhattan_distance insertion_order insertion_order_perm
           two_sided_border MIN_SATURATION MIN_DISTANCE MAX_COLORS MIN_PROMINENCE
           two_sided_palette two_sided_border_well_formed).
  - cbn. lia.
  - exact two_sided_palette_eq.
Defined.

Lemma palette_saturated_witness :
  (forall c, In c (colors two_sided_palette) ->
     meets_min_saturation c MIN_SATURATION = Ok true) \/
  (List.length (colors two_sided_palette) <= 1)%nat.
Proof.
  exact (palette_saturated manhattan_distance insertion_order insertion_order_perm
           two_sided_border MIN_SATURATION MIN_DISTANCE MAX_COLORS MIN_PROMINENCE
           two_sided_palette two_sided_palette_eq).
Defined.

Lemma extract_colors_no_pixels_witness :
  extract_colors manhattan_distance insertion_order (mkImage 0 0 [])
    MIN_SATURATION MIN_DISTANCE MAX_COLORS MIN_PROMINENCE = Raise ZeroDivisionError.
Proof.
  exact (extract_colors_no_pixels manhattan_distance insertion_order
           insertion_order_perm (mkImage 0 0 []) MIN_SATURATION MIN_DISTANCE
           MAX_COLORS MIN_PROMINENCE eq_refl eq_refl).
Defined.

Lemma extract_colors_returns_witness :
  exists out,
    extract_colors manhattan_distance insertion_order two_sided_border
      MIN_SATURATION MIN_DISTANCE MAX_COLORS MIN_PROMINENCE = Ok out /\
    (List.length out <= 5)%nat /\ NoDup out.
Proof.
  apply (extract_colors_returns manhattan_distance insertion_order
           insertion_order_perm two_sided_border MIN_SATURATION MIN_DISTANCE
           MAX_COLORS MIN_PROMINENCE two_sided_border_well_formed).
  - cbn. lia.
  - exact two_sided_border_valid.
Defined.

(** ** The canonical histogram as an image of the histogram *)


Lemma total_filter_perm (p : RawColor * Z -> bool) (d d' : dict Z) :
  Permutation d d' -> total (filter p d) = total (filter p d').
Proof.
  unfold total. induction 1 as [| x l l' H IH | x y l | l l' l'' H1 IH1 H2 IH2];
    cbn [filter].
  - reflexivity.
  - destruct (p x); cbn [map fold_right]; lia.
  - destruct (p x), (p y); cbn [map fold_right]; lia.
  - lia.
Qed.

Lemma mapped_count_ext (tc tc' : dict RawColor) (k : RawColor) (d : dict Z) :
  (forall c, In c (keys d) -> lookup c tc' = lookup c tc) ->
  mapped_count tc' k d = mapped_count tc k d.
Proof.
  unfold mapped_count, total. induction d as [| [c n] d IH]; intros H;
    cbn [filter fst]; [reflexivity |].
  rewrite (H c) by (left; reflexivity).
  assert (IH' : fold_right Z.add 0
                  (map snd (filter (fun e => match lookup (fst e) tc' with
                                             | Some k' => RawColor_eqb k' k
                                             | None => false
                                             end) d)) =
                fold_right Z.add 0
                  (map snd (filter (fun e => match lookup (fst e) tc with
                                             | Some k' => RawColor_eqb k' k
                                             | None => false
                                             end) d)))
    by (apply IH; intros x Hx; apply H; right; exact Hx).
  destruct (lookup c tc) as [k' |]; [| exact IH'].
  destruct (RawColor_eqb k' k); cbn [map fold_right snd]; lia.
Qed.

Section PushForward.
Variable distance : RawColor -> RawColor -> float.
Variable items : dict Z -> dict Z.
Hypothesis items_perm : forall d, Permutation (items d) d.

(** One step: the count of the entry goes to the colour the entry is mapped
    to, and no other colour is remapped. *)
Lemma aggregate_step_push (min_distance : float) (st st' : dict Z * dict RawColor)
    (entry : RawColor * Z) :
  aggregate_step distance items min_distance st entry = Ok st' ->
  (forall k, In k (keys (fst st)) -> lookup k (snd st) = Some k) ->
  exists target,
    lookup (fst entry) (snd st') = Some target /\
    (forall k, count_of k (fst st') =
               count_of k (fst st) + (if RawColor_eqb target k then snd entry else 0)) /\
    (forall c, c <> fst entry -> lookup c (snd st') = lookup c (snd st)).
Proof.
  destruct st as [agg tc], entry as [c n]. cbn [fst snd]. unfold aggregate_step.
  intros E Hself. destruct (mem c agg) eqn:Ec.
  - injection E as <-. cbn [fst snd]. exists c.
    split; [apply Hself, mem_keys, Ec |]. split; [| reflexivity].
    intros k. rewrite count_of_add_count, (RawColor_eqb_sym k c). reflexivity.
  - destruct (nearest_canonical distance c (keys (items agg)))
      as [[d k] |]; [| discriminate].
    cbn [bind] in E. destruct (PrimFloat.ltb d min_distance);
      injection E as <-; cbn [fst snd].
    + exists k. split; [apply lookup_setitem_same |]. split.
      * intros x. rewrite count_of_add_count, (RawColor_eqb_sym x k). reflexivity.
      * intros x Hx. apply lookup_setitem_other, Hx.
    + exists c. split; [apply lookup_setitem_same |]. split.
      * intros x. unfold count_of at 1.
        destruct (RawColor_eqb c x) eqn:Ex.
        -- apply RawColor_eqb_eq in Ex. subst x.
           rewrite lookup_setitem_same, count_of_new by exact Ec. lia.
        -- apply RawColor_eqb_neq in Ex.
           rewrite lookup_setitem_other by congruence. unfold count_of. lia.
      * intros x Hx. apply lookup_setitem_other, Hx.
Qed.

Lemma aggregate_loop_push (min_distance : float) (cols : list (RawColor * Z)) :
  forall st st',
    aggregate_loop distance items min_distance cols st = Ok st' ->
    NoDup (keys cols) ->
    canon_inv distance min_distance st ->
    (forall k, count_of k (fst st') =
               count_of k (fst st) + mapped_count (snd st') k cols) /\
    (forall c, ~ In c (keys cols) -> lookup c (snd st') = lookup c (snd st)).
Proof.
  induction cols as [| [c n] rest IH]; intros st st'; cbn [aggregate_loop].
  - intros [= <-] _ _. split; [intros k; cbn; lia | reflexivity].
  - destruct (aggregate_step distance items min_distance st (c, n))
      as [st1 |] eqn:E1; [| discriminate].
    cbn [bind]. intros E2 Hnd Hinv. cbn [keys map fst] in Hnd.
    inversion Hnd as [| ? ? Hnotin Hnd']; subst.
    pose proof (aggregate_step_canon distance items items_perm _ _ _ _ E1 Hinv)
      as Hinv1.
    destruct (aggregate_step_push _ _ _ _ E1 (proj1 Hinv))
      as (target & Ht & Hcount & Hother).
    destruct (IH _ _ E2 Hnd' Hinv1) as [Hc2 Hl2]. cbn [fst] in *.
    split.
    + intros k. rewrite Hc2, Hcount. unfold mapped_count at 2.
      cbn [filter fst]. rewrite (Hl2 c Hnotin), Ht.
      fold (mapped_count (snd st') k rest).
      destruct (RawColor_eqb target k); unfold total; cbn [map fold_right snd];
        fold (total (filter (fun e => match lookup (fst e) (snd st') with
                                      | Some k' => RawColor_eqb k' k
                                      | None => false
                                      end) rest));
        unfold mapped_count; lia.
    + intros x Hx. cbn [keys map fst In] in Hx.
      rewrite Hl2 by tauto. apply Hother. intros ->. tauto.
Qed.

(** X21: the canonical histogram is the histogram carried along the
    canonical map.  For a histogram without repeated colours, the count of
    each colour in the aggregator's result is the sum of the counts of the
    histogram colours that the canonical map sends to it. *)
Theorem aggregate_counts_follow_map (dist : dict Z) (min_distance : float) :
  NoDup (keys dist) ->
  exists agg tc,
    aggregate distance items dist min_distance = Ok (agg, tc) /\
    forall k, count_of k agg = mapped_count tc k dist.
Proof.
  intros Hnd.
  destruct (aggregate_inv distance items items_perm dist min_distance)
    as (agg & tc & E & _).
  exists agg, tc. split; [exact E |].
  unfold aggregate in E.
  assert (P : Permutation (sorted_reverse count_ltb (items dist)) dist)
    by (etransitivity; [apply sorted_reverse_perm | apply items_perm]).
  apply aggregate_loop_push in E as [Hcount _].
  - intros k. rewrite Hcount. cbn [fst snd].
    change (count_of k [(WHITE, 0); (BLACK, 0)]) with
      (match lookup k [(WHITE, 0); (BLACK, 0)] with Some n => n | None => 0 end).
    assert (H0 : match lookup k [(WHITE, 0); (BLACK, 0)] with
                 | Some n => n | None => 0 end = 0).
    { cbn [lookup]. destruct (RawColor_eqb k WHITE); [reflexivity |].
      destruct (RawColor_eqb k BLACK); reflexivity. }
    rewrite H0. unfold mapped_count. rewrite (total_filter_perm _ _ _ P). lia.
  - eapply Permutation_NoDup; [| exact Hnd].
    apply Permutation_map, Permutation_sym, P.
  - split; cbn [fst snd keys map lookup].
    + intros k [<- | [<- | []]]; reflexivity.
    + intros c k.
      destruct (RawColor_eqb c WHITE) eqn:Ew.
      { apply RawColor_eqb_eq in Ew. intros [= <-]. auto. }
      destruct (RawColor_eqb c BLACK) eqn:Eb.
      { apply RawColor_eqb_eq in Eb. intros [= <-]. auto. }
      discriminate.
Qed.

End PushForward.

Lemma aggregate_counts_follow_map_witness :
  exists agg tc,
    aggregate manhattan_distance insertion_order
      [((100, 0, 5), 1); ((100, 0, 10), 3); ((100, 0, 0), 2)] MIN_DISTANCE
      = Ok (agg, tc) /\
    forall k, count_of k agg =
              mapped_count tc k
                [((100, 0, 5), 1); ((100, 0, 10), 3); ((100, 0, 0), 2)].
Proof.
  apply (aggregate_counts_follow_map manhattan_distance insertion_order
           insertion_order_perm
           [((100, 0, 5), 1); ((100, 0, 10), 3); ((100, 0, 0), 2)] MIN_DISTANCE).
  repeat constructor; cbn; intuition discriminate.
Defined.
